(** * Smarty Agent: the change-request pipeline and its request gate

    A shallow embedding of the HTTP service of the repository (the
    authenticated, rate-limited Bitbucket variant and, where it differs,
    the basic variant of [server.js]) together with the properties of the
    branch namer, the rate limiter, the attachment manager and the
    orchestration pipeline.

    In the handler JavaScript strings are modelled as [string]: a sequence
    of code units below 256 (the Latin-1 part of UTF-16).  The branch namer
    is modelled a second time, in [Wide], on lists of arbitrary code units.
    Numbers that hold integers (timestamps, counters, exit codes, HTTP
    statuses) are modelled as [Z]. *)

From Stdlib Require Import ZArith List Ascii String Lia Bool.
From stdpp Require Import base decidable option list strings pretty gmap.

Local Open Scope Z_scope.

(** ** Code units and character classes *)

Module Char.

Definition code (c : ascii) : N := N_of_ascii c.

Definition in_range (lo hi : N) (c : ascii) : bool :=
  ((lo <=? code c) && (code c <=? hi))%N.

Definition is_upper (c : ascii) : bool := in_range 65 90 c.
Definition is_lower (c : ascii) : bool := in_range 97 122 c.
Definition is_digit (c : ascii) : bool := in_range 48 57 c.
Definition is_hyphen (c : ascii) : bool := (code c =? 45)%N.
Definition is_underscore (c : ascii) : bool := (code c =? 95)%N.

(** [\w] of a JavaScript regular expression without the [u] or [i] flag. *)
Definition is_word (c : ascii) : bool :=
  is_upper c || is_lower c || is_digit c || is_underscore c.

(** [\s], and the characters removed by [String.prototype.trim]: white
    space and line terminators.  Below 256 these are TAB, LF, VT, FF, CR,
    SP and NBSP. *)
Definition is_space (c : ascii) : bool :=
  in_range 9 13 c || (code c =? 32)%N || (code c =? 160)%N.

(** [String.prototype.toLowerCase] on one code unit: A-Z and the
    Latin-1 capitals (all of 192-222 but the multiplication sign). *)
Definition to_lower (c : ascii) : ascii :=
  if is_upper c || (in_range 192 222 c && negb (code c =? 215)%N)
  then ascii_of_N (code c + 32)
  else c.

(** The characters a slug may contain: [[a-z0-9-]]. *)
Definition is_slug (c : ascii) : bool :=
  is_lower c || is_digit c || is_hyphen c.

End Char.

(** ** String primitives of the JavaScript runtime *)

Module Js.

Definition chars (s : string) : list ascii := list_ascii_of_string s.
Definition str (l : list ascii) : string := string_of_list_ascii l.

(** [s.toLowerCase()] on a string of code units below 256, where the
    mapping works unit by unit. *)
Definition toLowerCase (s : string) : string :=
  str (map Char.to_lower (chars s)).

Fixpoint drop_while (p : ascii -> bool) (l : list ascii) : list ascii :=
  match l with
  | [] => []
  | c :: r => if p c then drop_while p r else l
  end.

Definition strip (p : ascii -> bool) (l : list ascii) : list ascii :=
  rev (drop_while p (rev (drop_while p l))).

Definition trim (s : string) : string := str (strip Char.is_space (chars s)).

(** [s.substring(0, n)] *)
Definition substring0 (n : nat) (s : string) : string :=
  str (take n (chars s)).

(** [s.startsWith(p)] *)
Definition startsWith (p s : string) : bool := String.prefix p s.

(** [s.slice(n)] for a non-negative [n] *)
Definition slice_from (n : nat) (s : string) : string :=
  str (drop n (chars s)).

(** Template-literal rendering of an integer-valued number. *)
Definition of_int (z : Z) : string := pretty z.
Definition of_index (i : nat) : string := pretty i.

End Js.

(** ** The branch namer *)

(** [text.replace(/[^\w\s-]/g, "")] *)
Definition remove_non_word (l : list ascii) : list ascii :=
  List.filter (fun c => Char.is_word c || Char.is_space c || Char.is_hyphen c) l.

Definition is_separator (c : ascii) : bool :=
  Char.is_space c || Char.is_underscore c || Char.is_hyphen c.

(** [text.replace(/[\s_-]+/g, "-")]: every maximal run of separators
    becomes one hyphen; [in_run] tells that the run was already replaced. *)
Fixpoint collapse_separators (in_run : bool) (l : list ascii) : list ascii :=
  match l with
  | [] => []
  | c :: r =>
      if is_separator c
      then (if in_run then collapse_separators true r
            else "-"%char :: collapse_separators true r)
      else c :: collapse_separators false r
  end.

(** [text.replace(/^-+|-+$/g, "")] *)
Definition strip_hyphens (l : list ascii) : list ascii :=
  Js.strip Char.is_hyphen l.

(** [slugify] of the Bitbucket variant with authentication: no truncation. *)
Definition slugify (text : string) : string :=
  Js.str
    (strip_hyphens
       (collapse_separators false
          (remove_non_word (Js.chars (Js.trim (Js.toLowerCase text)))))).

(** [slugify] of [server.js] and of the Bitbucket variant without
    authentication: the same chain followed by [.substring(0, 50)]. *)
Module Basic.
Definition slugify (text : string) : string :=
  Js.substring0 50 (slugify text).
End Basic.

(** *** Child processes and promises *)

(** What a call of [spawn] brings about: the events the process delivers
    to its listeners, or [SpawnThrow] when [spawn] itself throws before it
    returns a process (Node refuses an argument that holds a NUL byte, the
    system an argument list that is too long).  The call sits in the
    executor of the promise without a [try], so the throw rejects the
    promise.  The exit code of [close] is [None] when the process was
    ended by a signal. *)
Inductive ProcEvent : Type :=
  | StdoutData (d : string)
  | StderrData (d : string)
  | Close (code : option Z)
  | ProcError (message : string)
  | SpawnThrow (message : string).

Inductive Settled (A : Type) : Type :=
  | Resolved (a : A)
  | Rejected (message : string).
Arguments Resolved {A} a.
Arguments Rejected {A} message.

(** A promise settles once: later calls of [resolve] or [reject] are
    ignored. *)
Definition settle {A} (p : option (Settled A)) (v : Settled A)
  : option (Settled A) :=
  match p with
  | Some _ => p
  | None => Some v
  end.

Record NamerState : Type := mkNamer {
  namer_stdout : string;
  namer_promise : option (Settled string)
}.

Definition namer_fallback (request : string) : string :=
  Js.substring0 30 (slugify request).

(** [branchName || fallback] *)
Definition or_else (a b : string) : string :=
  if decide (a = "") then b else a.

Definition namer_step (request : string) (st : NamerState) (ev : ProcEvent)
  : NamerState :=
  match ev with
  | StdoutData d => mkNamer (namer_stdout st +:+ d) (namer_promise st)
  | StderrData _ => st
  | Close code =>
      if decide (code = Some 0)
      then
        let branchName := Js.substring0 40 (slugify (Js.trim (namer_stdout st))) in
        mkNamer (namer_stdout st)
          (settle (namer_promise st)
             (Resolved (or_else branchName (namer_fallback request))))
      else
        mkNamer (namer_stdout st)
          (settle (namer_promise st) (Resolved (namer_fallback request)))
  | ProcError _ =>
      mkNamer (namer_stdout st)
        (settle (namer_promise st) (Resolved (namer_fallback request)))
  | SpawnThrow message =>
      mkNamer (namer_stdout st) (settle (namer_promise st) (Rejected message))
  end.

(** [generateBranchName(request)], run against what the call of [spawn]
    brings about.  [None]: the promise is still pending after the events. *)
Definition generateBranchName (request : string) (events : list ProcEvent)
  : option (Settled string) :=
  namer_promise (fold_left (namer_step request) events (mkNamer "" None)).

(** The branch name built at the call site. *)
Definition branchName (slug : string) (now : Z) : string :=
  "claude/" +:+ slug +:+ "-" +:+ Js.of_int now.

(** The pattern [claude/[a-z0-9-]{0,50}-\d+], matched against the whole
    string.  [match_slug n] consumes at most [n] slug characters and then
    requires a hyphen followed by one or more digits up to the end. *)
Definition all_digits (l : list ascii) : bool :=
  match l with
  | [] => false
  | _ => forallb Char.is_digit l
  end.

Definition match_tail (l : list ascii) : bool :=
  match l with
  | c :: r => Char.is_hyphen c && all_digits r
  | [] => false
  end.

Fixpoint match_slug (n : nat) (l : list ascii) : bool :=
  match_tail l ||
  match n, l with
  | S n', c :: r => Char.is_slug c && match_slug n' r
  | _, _ => false
  end.

Fixpoint strip_prefix (p l : list ascii) : option (list ascii) :=
  match p, l with
  | [], _ => Some l
  | a :: p', b :: l' => if decide (a = b) then strip_prefix p' l' else None
  | _ :: _, [] => None
  end.

Definition matches_branch_pattern (name : string) : bool :=
  match strip_prefix (Js.chars "claude/") (Js.chars name) with
  | Some rest => match_slug 50 rest
  | None => false
  end.

(** ** POSIX paths as [path.join] computes them *)

Module Path.

(** The segments between the slashes of a path (never the empty list). *)
Fixpoint split (s : string) : list string :=
  match s with
  | EmptyString => [""]
  | String c r =>
      if decide (c = "/"%char) then "" :: split r
      else match split r with
           | h :: t => String c h :: t
           | [] => [String c ""]
           end
  end.

Definition unsplit (segs : list string) : string := String.concat "/" segs.

(** One segment of [normalizeString]; the stack holds the segments kept
    so far, last one first. *)
Definition norm_step (allowAboveRoot : bool) (stack : list string)
    (seg : string) : list string :=
  if decide (seg = "" \/ seg = ".") then stack
  else if decide (seg = "..") then
    match stack with
    | top :: rest =>
        if decide (top = "..")
        then (if allowAboveRoot then ".." :: stack else stack)
        else rest
    | [] => if allowAboveRoot then [".."] else []
    end
  else seg :: stack.

Definition normalizeString (allowAboveRoot : bool) (p : string) : string :=
  unsplit (rev (fold_left (norm_step allowAboveRoot) (split p) [])).

Definition isAbsolute (p : string) : bool := Js.startsWith "/" p.

Definition ends_with_slash (p : string) : bool :=
  match rev (Js.chars p) with
  | c :: _ => if decide (c = "/"%char) then true else false
  | [] => false
  end.

Definition normalize (p : string) : string :=
  if decide (p = "") then "."
  else
    let res := normalizeString (negb (isAbsolute p)) p in
    if decide (res = "") then
      (if isAbsolute p then "/" else if ends_with_slash p then "./" else ".")
    else
      let res := if ends_with_slash p then res +:+ "/" else res in
      if isAbsolute p then "/" +:+ res else res.

(** [path.join(a, b)] *)
Definition join (a b : string) : string :=
  let args := List.filter (fun s => negb (String.eqb s "")) [a; b] in
  match args with
  | [] => "."
  | _ => normalize (unsplit args)
  end.

(** [inside dir p]: [p] names something below the directory [dir]. *)
Definition inside (dir p : string) : bool :=
  Js.startsWith (dir +:+ "/") p.

(** The directory a path lives in: the path without its last segment. *)
Definition parent (p : string) : string :=
  match rev (split p) with
  | _ :: r =>
      match r with
      | [] => "."
      | [""] => "/"
      | _ => unsplit (rev r)
      end
  | [] => "."
  end.

End Path.

(** ** The file system of the container *)

Record Fs : Type := mkFs {
  fs_dirs : gset string;
  fs_files : gmap string string
}.

Definition fs_exists (fs : Fs) (p : string) : bool :=
  bool_decide (p ∈ fs_dirs fs) || bool_decide (is_Some (fs_files fs !! p)).

(** [fs.mkdirSync(p, { recursive: true })] *)
Definition fs_mkdir (fs : Fs) (p : string) : Fs :=
  mkFs ({[ p ]} ∪ fs_dirs fs) (fs_files fs).

(** A file can be written where its directory exists and the path is not
    itself a directory. *)
Definition fs_writable (fs : Fs) (p : string) : bool :=
  negb (Path.ends_with_slash p)
  && bool_decide (Path.parent p ∈ fs_dirs fs)
  && negb (bool_decide (p ∈ fs_dirs fs)).

Definition fs_write (fs : Fs) (p data : string) : Fs :=
  mkFs (fs_dirs fs) (<[ p := data ]> (fs_files fs)).

(** [fs.rmSync(p, { recursive: true, force: true })] *)
Definition fs_rm_rf (fs : Fs) (p : string) : Fs :=
  let keep (q : string) : Prop := q <> p /\ Path.inside p q = false in
  mkFs (filter keep (fs_dirs fs)) (filter (fun kv => keep kv.1) (fs_files fs)).

(** ** Effects, outcomes and the handler monad *)

Inductive RespBody : Type :=
  | ErrorBody (error : string)
  | PrBody (pr branch : string)
  | HealthBody (repo_ready : bool)
  | NoBody.

Record Response : Type := mkResponse {
  status : Z;
  body : RespBody
}.

Inductive Effect : Type :=
  | EffMkdir (path : string)
  | EffWrite (path data : string)
  | EffRm (path : string)
  | EffExec (command : string)
  | EffSpawn (command : string) (args : list string)
  | EffFetch (url sourceBranch title description : string).

Record St : Type := mkSt {
  st_fs : Fs;
  st_trace : list Effect;
  st_imagePaths : list string;
  st_response : option Response
}.

Inductive Outcome (A : Type) : Type :=
  | Val (a : A)
  | Throw (message : string)
  | Return
  | Pending.
Arguments Val {A} a.
Arguments Throw {A} message.
Arguments Return {A}.
Arguments Pending {A}.

Definition M (A : Type) : Type := St -> Outcome A * St.

Definition ret {A} (a : A) : M A := fun s => (Val a, s).

Definition bind {A B} (m : M A) (k : A -> M B) : M B :=
  fun s =>
    match m s with
    | (Val a, s') => k a s'
    | (Throw e, s') => (Throw e, s')
    | (Return, s') => (Return, s')
    | (Pending, s') => (Pending, s')
    end.

Declare Scope handler_scope.
Delimit Scope handler_scope with handler.
Notation "x <- m ;; k" := (bind m (fun x => k))
  (at level 100, m at next level, right associativity) : handler_scope.
Notation "m ;;; k" := (bind m (fun _ => k))
  (at level 100, right associativity) : handler_scope.

Definition throw {A} (message : string) : M A := fun s => (Throw message, s).
Definition return_ {A} : M A := fun s => (Return, s).
Definition pending {A} : M A := fun s => (Pending, s).

Definition emit (e : Effect) : M unit :=
  fun s => (Val tt, mkSt (st_fs s) (st_trace s ++ [e]) (st_imagePaths s) (st_response s)).

Definition get_fs : M Fs := fun s => (Val (st_fs s), s).
Definition put_fs (fs : Fs) : M unit :=
  fun s => (Val tt, mkSt fs (st_trace s) (st_imagePaths s) (st_response s)).

Definition get_imagePaths : M (list string) := fun s => (Val (st_imagePaths s), s).
Definition set_imagePaths (l : list string) : M unit :=
  fun s => (Val tt, mkSt (st_fs s) (st_trace s) l (st_response s)).

(** [res.writeHead(status, ...); res.end(JSON.stringify(body))] *)
Definition respond (status : Z) (b : RespBody) : M unit :=
  fun s => (Val tt, mkSt (st_fs s) (st_trace s) (st_imagePaths s)
                      (Some (mkResponse status b))).

(** [await p] *)
Definition await {A} (p : option (Settled A)) : M A :=
  match p with
  | Some (Resolved a) => ret a
  | Some (Rejected e) => throw e
  | None => pending
  end.

(** ** The external collaborators *)

(** What [execSync] does with a command that ends: it returns the output
    or throws.  ([execSync] is called without a timeout; a command that
    never ends is not among the outcomes.) *)
Inductive ExecResult : Type :=
  | ExecOk (stdout : string)
  | ExecFail (message : string).

Inductive FetchOutcome : Type :=
  | FetchError (message : string)
  | FetchNotOk (status : Z) (errorText : string)
  | FetchOk (href : string).

(** What the world outside the handler answers during one request: the
    result of each git command line, the events of the two subprocesses,
    the clock readings and the reply of the forge. *)
Record World : Type := mkWorld {
  w_exec : string -> ExecResult;
  w_namer : list ProcEvent;
  w_agent : list ProcEvent;
  w_now : Z;
  w_gate_now : Z;
  w_fetch : FetchOutcome
}.

Record Image : Type := mkImage {
  img_name : option string;
  img_data : option string
}.

(** [JSON.parse(body)] followed by the destructuring of [request] and
    [images].  [body_request] is [None] when the field is missing or not a
    string, [body_images] is [None] when the field is missing or not an
    array. *)
Inductive ParsedBody : Type :=
  | BodyInvalid (message : string)
  | BodyObject (body_request : option string) (body_images : option (list Image)).

Definition nl : string := String "010"%char "".
Definition dq : string := String "034"%char "".

(** ** The agent invoker *)

Record AgentState : Type := mkAgent {
  agent_stdout : string;
  agent_stderr : string;
  agent_promise : option (Settled string)
}.

Definition exit_code_text (code : option Z) : string :=
  match code with
  | Some c => Js.of_int c
  | None => "null"
  end.

Definition agent_step (st : AgentState) (ev : ProcEvent) : AgentState :=
  match ev with
  | StdoutData d => mkAgent (agent_stdout st +:+ d) (agent_stderr st) (agent_promise st)
  | StderrData d => mkAgent (agent_stdout st) (agent_stderr st +:+ d) (agent_promise st)
  | Close code =>
      if decide (code = Some 0)
      then mkAgent (agent_stdout st) (agent_stderr st)
             (settle (agent_promise st) (Resolved (agent_stdout st)))
      else mkAgent (agent_stdout st) (agent_stderr st)
             (settle (agent_promise st)
                (Rejected ("Claude Code exited with code " +:+ exit_code_text code
                           +:+ ": " +:+ agent_stderr st)))
  | ProcError message =>
      mkAgent (agent_stdout st) (agent_stderr st)
        (settle (agent_promise st) (Rejected message))
  | SpawnThrow message =>
      mkAgent (agent_stdout st) (agent_stderr st)
        (settle (agent_promise st) (Rejected message))
  end.

Definition agent_run (events : list ProcEvent) : AgentState :=
  fold_left agent_step events (mkAgent "" "" None).

Definition agent_args (prompt : string) (imagePaths : list string) : list string :=
  ["--print"; "--model"; "sonnet"; "--dangerously-skip-permissions";
   "--allowedTools"; "Edit"; "Write"; "Read"; "Bash(git add:*)";
   "Bash(git commit:*)"; "-p"; prompt] ++ imagePaths.

(** [runClaudeCode(prompt, imagePaths)] *)
Definition runClaudeCode (w : World) (prompt : string) (imagePaths : list string)
  : M string :=
  (emit (EffSpawn "claude" (agent_args prompt imagePaths)) ;;;
   await (agent_promise (agent_run (w_agent w))))%handler.

Definition namer_prompt (request : string) : string :=
  "Generate a short git branch name (2-4 words, lowercase, hyphen-separated) that captures the essence of this request. Output ONLY the branch name, nothing else."
  +:+ nl +:+ nl +:+ "Request: " +:+ request +:+ nl +:+ nl
  +:+ "Examples of good branch names:" +:+ nl
  +:+ "- " +:+ dq +:+ "fix-login-bug" +:+ dq +:+ nl
  +:+ "- " +:+ dq +:+ "add-user-avatar" +:+ dq +:+ nl
  +:+ "- " +:+ dq +:+ "update-pricing-page" +:+ dq +:+ nl
  +:+ "- " +:+ dq +:+ "refactor-auth-flow" +:+ dq.

Definition namer_args (request : string) : list string :=
  ["--print"; "--model"; "haiku"; "-p"; namer_prompt request].

Definition is_push (command : string) : bool :=
  Js.startsWith "git push" command.

(** The agent is the process started with the model "sonnet". *)
Definition is_agent_spawn (e : Effect) : bool :=
  match e with
  | EffSpawn _ (_ :: _ :: model :: _) => String.eqb model "sonnet"
  | _ => false
  end.

Definition is_publish (e : Effect) : bool :=
  match e with
  | EffExec command => is_push command
  | EffFetch _ _ _ _ => true
  | _ => false
  end.

(** A trace in which the agent was not started and nothing was published. *)
Definition quiet (trace : list Effect) : Prop :=
  Forall (fun e => is_agent_spawn e = false /\ is_publish e = false) trace.

Definition unpublished (trace : list Effect) : Prop :=
  Forall (fun e => is_publish e = false) trace.

(** An error message that ends with the text of the error stream. *)
Definition carries (message stderr : string) : Prop :=
  exists before, message = before +:+ stderr.

Definition agent_was_run (trace : list Effect) : Prop :=
  exists prompt imagePaths, In (EffSpawn "claude" (agent_args prompt imagePaths)) trace.

Definition no_push (trace : list Effect) : Prop :=
  forall command, In (EffExec command) trace -> is_push command = false.

Definition no_pull_request (trace : list Effect) : Prop :=
  forall url b t d, ~ In (EffFetch url b t d) trace.

(** [parseInt(s, 10)]: leading white space, an optional sign and the
    longest run of decimal digits; [None] stands for NaN. *)
Fixpoint digits_value (acc : Z) (l : list ascii) : Z :=
  match l with
  | c :: r =>
      if Char.is_digit c
      then digits_value (10 * acc + Z.of_N (Char.code c - 48)) r
      else acc
  | [] => acc
  end.

Definition parse_digits (l : list ascii) : option Z :=
  match l with
  | c :: _ => if Char.is_digit c then Some (digits_value 0 l) else None
  | [] => None
  end.

Definition parseInt (s : string) : option Z :=
  match Js.drop_while Char.is_space (Js.chars s) with
  | c :: r =>
      if decide (c = "-"%char) then Z.opp <$> parse_digits r
      else if decide (c = "+"%char) then parse_digits r
      else parse_digits (c :: r)
  | [] => None
  end.

(** What [git rev-list --count] prints for a count. *)
Definition rev_list_output (count : N) : string := pretty count +:+ nl.

Section Service.

Variable REPO_PATH : string.
Variable API_KEY : string.
Variables BB_WORKSPACE BB_REPO : string.

Definition ALLOWED_ORIGINS : list string :=
  ["http://localhost:3220"; "https://localhost:3220"; "https://www.smarty.com"].

Definition RATE_LIMIT_WINDOW_MS : Z := 24 * 60 * 60 * 1000.
Definition RATE_LIMIT_MAX_REQUESTS : Z := 5.

Definition tempDir : string := Path.join REPO_PATH ".claude-temp-images".

Definition isRepoReady : M bool :=
  (fs <- get_fs ;; ret (fs_exists fs (Path.join REPO_PATH ".clone-complete")))%handler.

(** [execInRepo(command)] *)
Definition execInRepo (w : World) (command : string) : M string :=
  (emit (EffExec command) ;;;
   match w_exec w command with
   | ExecOk out => ret (Js.trim out)
   | ExecFail message => throw message
   end)%handler.

Definition getCurrentBranch (w : World) : M string :=
  execInRepo w "git rev-parse --abbrev-ref HEAD".

(** *** The attachment manager *)

(** [img.name || `image-${index}${ext}`], where [ext] is ".png" when
    the name is missing or empty ([path.extname] of a present name is
    computed but not used). *)
Definition image_filename (img : Image) (index : nat) : string :=
  match img_name img with
  | Some name => or_else name ("image-" +:+ Js.of_index index +:+ ".png")
  | None => "image-" +:+ Js.of_index index +:+ ".png"
  end.

(** The error of [fs.writeFileSync] for a path that cannot be written:
    the directory of the file is missing, or the path names a directory. *)
Definition write_error (fs : Fs) (filepath : string) : string :=
  if bool_decide (Path.parent filepath ∈ fs_dirs fs)
  then "EISDIR: illegal operation on a directory, open '" +:+ filepath +:+ "'"
  else "ENOENT: no such file or directory, open '" +:+ filepath +:+ "'".

Definition writeFileSync (filepath data : string) : M unit :=
  (fs <- get_fs ;;
   if fs_writable fs filepath
   then (put_fs (fs_write fs filepath data) ;;; emit (EffWrite filepath data))
   else throw (write_error fs filepath))%handler.

(** [Buffer.from(img.data, "base64")] throws on a missing payload.  The
    decoded bytes are kept in their base64 form. *)
Definition buffer_from (data : option string) : M string :=
  match data with
  | Some d => ret d
  | None => throw "The first argument must be of type string or an instance of Buffer, ArrayBuffer, or Array or an Array-like Object. Received undefined"
  end.

(** The body of [images.forEach((img, index) => ...)] *)
Fixpoint save_each (images : list Image) (index : nat) (savedPaths : list string)
  : M (list string) :=
  match images with
  | [] => ret savedPaths
  | img :: rest =>
      (let filepath := Path.join tempDir (image_filename img index) in
       buffer <- buffer_from (img_data img) ;;
       writeFileSync filepath buffer ;;;
       save_each rest (S index) (savedPaths ++ [filepath]))%handler
  end.

Definition saveImages (images : list Image) : M (list string) :=
  (fs <- get_fs ;;
   (if fs_exists fs tempDir then ret tt
    else (put_fs (fs_mkdir fs tempDir) ;;; emit (EffMkdir tempDir))) ;;;
   save_each images 0 [])%handler.

Definition cleanupImages : M unit :=
  (fs <- get_fs ;;
   if fs_exists fs tempDir
   then (put_fs (fs_rm_rf fs tempDir) ;;; emit (EffRm tempDir))
   else ret tt)%handler.

(** *** The publisher *)

Definition pr_url : string :=
  "https://api.bitbucket.org/2.0/repositories/" +:+ BB_WORKSPACE +:+ "/"
  +:+ BB_REPO +:+ "/pullrequests".

Definition createBitbucketPR (w : World) (sourceBranch title description : string)
  : M string :=
  (emit (EffFetch pr_url sourceBranch title description) ;;;
   match w_fetch w with
   | FetchError message => throw message
   | FetchNotOk st errorText =>
       throw ("Bitbucket API error (" +:+ Js.of_int st +:+ "): " +:+ errorText)
   | FetchOk href => ret href
   end)%handler.

(** *** The pipeline *)

(** The lines [`- Image ${index + 1}: ${imgPath}\n`] of the prompt. *)
Fixpoint image_lines (imagePaths : list string) (index : nat) : string :=
  match imagePaths with
  | [] => ""
  | imgPath :: rest =>
      "- Image " +:+ Js.of_index (S index) +:+ ": " +:+ imgPath +:+ nl
      +:+ image_lines rest (S index)
  end.

Definition claudePrompt (request : string) (imagePaths : list string) : string :=
  "You are helping to make code changes to this repository." +:+ nl +:+ nl
  +:+ "Request: " +:+ request
  +:+ (match imagePaths with
       | [] => ""
       | _ =>
           nl +:+ nl
           +:+ "The following reference image(s) have been provided to help you understand the request:"
           +:+ nl +:+ image_lines imagePaths 0 +:+ nl
           +:+ "Please examine these images to understand what changes are needed."
       end)
  +:+ nl +:+ nl
  +:+ "Please make the necessary code changes to fulfill this request. After making changes:"
  +:+ nl +:+ "1. Use git add to stage your changes"
  +:+ nl +:+ "2. Use git commit with a descriptive message"
  +:+ nl +:+ nl
  +:+ "Focus only on making the requested changes. Do not make unrelated modifications.".

Definition prDescription (request : string) : string :=
  "## Description" +:+ nl +:+ nl +:+ request +:+ nl +:+ nl +:+ "---" +:+ nl
  +:+ "*This PR was automatically created by Smarty Agent using Claude Code.*".

Definition safety_error (currentBranch : string) : string :=
  "Safety check failed: current branch " +:+ dq +:+ currentBranch +:+ dq
  +:+ " is not a claude/* branch".

Definition no_commits_error : string := "No changes were committed by Claude Code".

Definition invalid_request_error : string :=
  "Missing or invalid " +:+ dq +:+ "request" +:+ dq +:+ " field".

(** The statements of the [try] block from the safety check on. *)
Definition verify_and_publish (w : World) (request : string) : M unit :=
  (currentBranch <- getCurrentBranch w ;;
   if negb (Js.startsWith "claude/" currentBranch)
   then throw (safety_error currentBranch)
   else
     commitCount <- execInRepo w ("git rev-list --count master.." +:+ currentBranch) ;;
     if decide (parseInt commitCount = Some 0)
     then (respond 400 (ErrorBody no_commits_error) ;;; return_)
     else
       execInRepo w ("git push -u origin " +:+ dq +:+ currentBranch +:+ dq) ;;;
       prUrl <- createBitbucketPR w currentBranch (Js.substring0 100 request)
                  (prDescription request) ;;
       respond 200 (PrBody prUrl currentBranch))%handler.

(** The statements of the [try] block from the fetch up to the safety
    check: synchronise with the baseline, name and create the branch, run
    the agent. *)
Definition synchronize_and_run (w : World) (request : string) : M unit :=
  (execInRepo w "git fetch origin" ;;;
   execInRepo w "git checkout master" ;;;
   execInRepo w "git reset --hard origin/master" ;;;
   emit (EffSpawn "claude" (namer_args request)) ;;;
   slug <- await (generateBranchName request (w_namer w)) ;;
   execInRepo w ("git checkout -b " +:+ dq +:+ branchName slug (w_now w) +:+ dq) ;;;
   imagePaths <- get_imagePaths ;;
   runClaudeCode w (claudePrompt request imagePaths) imagePaths ;;;
   verify_and_publish w request)%handler.

(** The [try] block of the handler. *)
Definition pipeline (w : World) (parsed : ParsedBody) : M unit :=
  (ready <- isRepoReady ;;
   if negb ready
   then (respond 503 (ErrorBody "Repository is still cloning. Please try again in a moment.") ;;;
         return_)
   else
     match parsed with
     | BodyInvalid message => throw message
     | BodyObject None _ | BodyObject (Some "") _ =>
         respond 400 (ErrorBody invalid_request_error) ;;; return_
     | BodyObject (Some request) images =>
         match images with
         | Some (img :: imgs) =>
             paths <- saveImages (img :: imgs) ;; set_imagePaths paths
         | _ => ret tt
         end ;;;
         synchronize_and_run w request
     end)%handler.

(** [try { body } catch (error) { handler } finally { fin }], for a body
    that may also leave by [return].  A pending [await] never reaches
    either block. *)
Definition try_catch_finally (body : M unit) (handler : string -> M unit)
    (fin : M unit) : M unit :=
  fun s =>
    let '(o, s1) :=
      match body s with
      | (Throw e, s1) => handler e s1
      | r => r
      end in
    match o with
    | Pending => (Pending, s1)
    | _ =>
        match fin s1 with
        | (Val _, s2) => (o, s2)
        | (o', s2) => (o', s2)
        end
    end.

(** The [finally] block of the handler. *)
Definition finally_block : M unit :=
  (imagePaths <- get_imagePaths ;;
   match imagePaths with
   | [] => ret tt
   | _ => cleanupImages
   end)%handler.

Definition handleChangeRequest (w : World) (parsed : ParsedBody) : M unit :=
  (set_imagePaths [] ;;;
   try_catch_finally
     (pipeline w parsed)
     (fun message => respond 500 (ErrorBody message))
     finally_block)%handler.

(** *** The request gate *)

Record RateLimitRecord : Type := mkRecord {
  windowStart : Z;
  count : Z
}.

(** [checkRateLimit(ip)] with the clock reading [now]; the table is
    keyed by the client identity, [None] for [undefined]. *)
Definition checkRateLimit (now : Z) (ip : option string)
    (rateLimitMap : gmap (option string) RateLimitRecord)
  : bool * gmap (option string) RateLimitRecord :=
  match rateLimitMap !! ip with
  | None => (true, <[ ip := mkRecord now 1 ]> rateLimitMap)
  | Some record =>
      if decide (now - windowStart record > RATE_LIMIT_WINDOW_MS)
      then (true, <[ ip := mkRecord now 1 ]> rateLimitMap)
      else if decide (count record >= RATE_LIMIT_MAX_REQUESTS)
      then (false, rateLimitMap)
      else (true, <[ ip := mkRecord (windowStart record) (count record + 1) ]> rateLimitMap)
  end.

Record Request : Type := mkRequest {
  req_method : string;
  req_pathname : string;
  req_origin : option string;
  req_authorization : option string;
  req_forwarded_for : option string;
  req_remoteAddress : option string;
  req_body : ParsedBody
}.

Definition isAuthenticated (req : Request) : bool :=
  match req_authorization req with
  | None => false
  | Some authHeader =>
      if bool_decide (authHeader = "") || negb (Js.startsWith "Bearer " authHeader)
      then false
      else bool_decide (Js.slice_from 7 authHeader = API_KEY)
  end.

(** [s.split(",")[0]] *)
Fixpoint before_comma (s : string) : string :=
  match s with
  | EmptyString => ""
  | String c r => if decide (c = ","%char) then "" else String c (before_comma r)
  end.

(** [req.headers["x-forwarded-for"]?.split(",")[0]?.trim() || req.socket.remoteAddress] *)
Definition clientIp (req : Request) : option string :=
  match req_forwarded_for req with
  | Some h =>
      let first := Js.trim (before_comma h) in
      if decide (first = "") then req_remoteAddress req else Some first
  | None => req_remoteAddress req
  end.

(** The origin [setCorsHeaders] echoes in Access-Control-Allow-Origin. *)
Definition allowed_origin (req : Request) : option string :=
  match req_origin req with
  | Some origin =>
      if bool_decide (origin <> "") && bool_decide (origin ∈ ALLOWED_ORIGINS)
      then Some origin else None
  | None => None
  end.

Record ServerState : Type := mkServer {
  srv_rateLimitMap : gmap (option string) RateLimitRecord;
  srv_fs : Fs
}.

Record Reply : Type := mkReply {
  reply_allow_origin : option string;
  reply_response : option Response;
  reply_trace : list Effect
}.

(** A request as the listener receives it: [in_url_error] is the message
    of the TypeError that [new URL] throws for its target and Host header,
    [None] when they parse, and then [req_pathname] of [in_request] is the
    path of the URL. *)
Record Incoming : Type := mkIncoming {
  in_url_error : option string;
  in_request : Request
}.

(** What a call of the listener ends in: an uncaught exception, which ends
    the process, or a reply and the state the server goes on with. *)
Inductive Listened : Type :=
  | Crashed (message : string)
  | Replied (reply : Reply) (srv : ServerState).

Definition answer (req : Request) (st : Z) (b : RespBody) : Reply :=
  mkReply (allowed_origin req) (Some (mkResponse st b)) [].

(** The request listener passed to [http.createServer], from its second
    statement on: what it does with a request whose target has parsed,
    [req_pathname] being the path of the URL.  [listener] below puts the
    first statement in front. *)
Definition server (w : World) (req : Request) (srv : ServerState)
  : Reply * ServerState :=
  if decide (req_method req = "OPTIONS") then (answer req 204 NoBody, srv)
  else if decide (req_method req = "GET" /\ req_pathname req = "/health") then
    (answer req 200
       (HealthBody (fs_exists (srv_fs srv) (Path.join REPO_PATH ".clone-complete"))),
     srv)
  else if negb (isAuthenticated req) then
    (answer req 401 (ErrorBody "Unauthorized"), srv)
  else
    let '(allowed, table) := checkRateLimit (w_gate_now w) (clientIp req) (srv_rateLimitMap srv) in
    if negb allowed then
      (answer req 429 (ErrorBody "Too many requests. Please try again later."),
       mkServer table (srv_fs srv))
    else if decide (req_method req = "POST" /\ req_pathname req = "/") then
      let '(_, s) := handleChangeRequest w (req_body req) (mkSt (srv_fs srv) [] [] None) in
      (mkReply (allowed_origin req) (st_response s) (st_trace s),
       mkServer table (st_fs s))
    else
      (answer req 404 (ErrorBody "Not found"), mkServer table (srv_fs srv)).

(** The whole request listener.  Its first statement,
    [new URL(req.url, `http://${req.headers.host}`)], throws a TypeError
    when the request target and the Host header do not make a URL (the
    target "//" does not).  Nothing catches it: the exception is uncaught
    and the process ends, without a reply and with the rate-limit table
    gone. *)
Definition listener (w : World) (msg : Incoming) (srv : ServerState) : Listened :=
  match in_url_error msg with
  | Some message => Crashed message
  | None =>
      let '(reply, srv') := server w (in_request msg) srv in
      Replied reply srv'
  end.

End Service.

(** ** Vocabulary of the statements about the rate limiter *)

(** A sequence of checks, each with its clock reading and identity. *)
Definition run_checks (calls : list (Z * option string))
    (m : gmap (option string) RateLimitRecord)
  : gmap (option string) RateLimitRecord :=
  fold_left (fun table c => (checkRateLimit c.1 c.2 table).2) calls m.

(** The answers of successive checks of one identity. *)
Fixpoint check_times (times : list Z) (ip : option string)
    (m : gmap (option string) RateLimitRecord)
  : list bool * gmap (option string) RateLimitRecord :=
  match times with
  | [] => ([], m)
  | t :: rest =>
      let '(ok, m1) := checkRateLimit t ip m in
      let '(oks, m2) := check_times rest ip m1 in
      (ok :: oks, m2)
  end.

(** The table invariant, read at time [t]: a record whose window is
    current holds at most the maximum. *)
Definition window_inv (t : Z) (m : gmap (option string) RateLimitRecord) : Prop :=
  forall ip r, m !! ip = Some r ->
    t - windowStart r <= RATE_LIMIT_WINDOW_MS ->
    count r <= RATE_LIMIT_MAX_REQUESTS.

(** What it means for a check to use up one unit of quota. *)
Definition consumes (now : Z) (ip : option string)
    (m m' : gmap (option string) RateLimitRecord) : Prop :=
  m' = <[ ip := mkRecord now 1 ]> m \/
  exists r, m !! ip = Some r /\
    m' = <[ ip := mkRecord (windowStart r) (count r + 1) ]> m.

(** The reading of "every authenticated request that is neither a
    preflight nor the health probe uses up one unit of quota". *)
Definition every_request_consumes (REPO_PATH API_KEY BB_WORKSPACE BB_REPO : string)
  : Prop :=
  forall w req srv,
    req_method req <> "OPTIONS" ->
    ~ (req_method req = "GET" /\ req_pathname req = "/health") ->
    isAuthenticated API_KEY req = true ->
    consumes (w_gate_now w) (clientIp req) (srv_rateLimitMap srv)
      (srv_rateLimitMap (server REPO_PATH API_KEY BB_WORKSPACE BB_REPO w req srv).2).

(** ** Vocabulary of the statements about branch names *)

Definition slug_chars (s : string) : Prop :=
  Forall (fun c => Char.is_slug c = true) (Js.chars s).

(** The first event that settles the promise of a subprocess comes after
    data events only. *)
Definition is_data (ev : ProcEvent) : Prop :=
  match ev with
  | StdoutData _ | StderrData _ => True
  | Close _ | ProcError _ | SpawnThrow _ => False
  end.

Fixpoint stdout_of (events : list ProcEvent) : string :=
  match events with
  | StdoutData d :: rest => d +:+ stdout_of rest
  | _ :: rest => stdout_of rest
  | [] => ""
  end.

Fixpoint stderr_of (events : list ProcEvent) : string :=
  match events with
  | StderrData d :: rest => d +:+ stderr_of rest
  | _ :: rest => stderr_of rest
  | [] => ""
  end.

(** The state after the effects [t] have been appended to the trace. *)
Definition logged (s : St) (t : list Effect) : St :=
  mkSt (st_fs s) (st_trace s ++ t) (st_imagePaths s) (st_response s).

(** The statements of the [try] block from the agent run on, for the
    request text [request]. *)
Definition after_prepare (BB_WORKSPACE BB_REPO : string) (w : World)
    (request : string) : M unit :=
  (imagePaths <- get_imagePaths ;;
   runClaudeCode w (claudePrompt request imagePaths) imagePaths ;;;
   verify_and_publish BB_WORKSPACE BB_REPO w request)%handler.

(** A resolved namer promise holds a slug of at most 40 characters of the
    slug alphabet. *)
Definition namer_ok (st : NamerState) : Prop :=
  forall slug, namer_promise st = Some (Resolved slug) ->
    slug_chars slug /\ (String.length slug <= 40)%nat.

(** ** Vocabulary of the statements about attachments *)

(** A computation that leaves the handler's [imagePaths] variable alone. *)
Definition keeps_paths {A} (m : M A) : Prop :=
  forall s, st_imagePaths (m s).2 = st_imagePaths s.

Definition no_slash (seg : string) : Prop := ~ In "/"%char (Js.chars seg).

(** A plain file name: one path segment other than "." and "..". *)
Definition plain_name (name : string) : Prop :=
  name <> "" /\ name <> "." /\ name <> ".." /\ no_slash name.

Definition plain_image (img : Image) : Prop :=
  match img_name img with
  | Some name => name = "" \/ plain_name name
  | None => True
  end.

(** Every file written while the attachments are saved lies inside the
    attachment directory. *)
Definition writes_stay_inside (REPO_PATH : string) (images : list Image) (fs : Fs)
  : Prop :=
  forall p data,
    In (EffWrite p data) (st_trace (saveImages REPO_PATH images (mkSt fs [] [] None)).2) ->
    Path.inside (tempDir REPO_PATH) p = true.

(** The stacks [normalizeString] builds: plain segments on top of
    [dotdots] leading ".." segments (none for an absolute path). *)
Definition normal_stack (allowAboveRoot : bool) (stack : list string) : Prop :=
  exists plains dotdots,
    stack = plains ++ repeat ".." dotdots /\
    Forall plain_name plains /\
    (allowAboveRoot = false -> dotdots = 0%nat).

(** ** Concrete requests, worlds and states used in examples *)

Definition req_sixth : Request :=
  mkRequest "POST" "/" None (Some "Bearer secret") (Some "203.0.113.7, 10.0.0.1")
    None (BodyObject (Some "add a health icon") None).

Definition srv_full : ServerState :=
  mkServer (<[ Some "203.0.113.7" := mkRecord 1705123000000 5 ]> ∅)
    (mkFs ∅ ∅).

Definition world_quiet : World :=
  mkWorld (fun _ => ExecOk "") [] [] 1705123456789 1705123456000 (FetchOk "").

Definition fs_ready : Fs :=
  mkFs {[ "/workspace"; "/workspace/repo" ]}
       {[ "/workspace/repo/.clone-complete" := "" ]}.

(** A git that reports the branch [branch] and [commits] new commits and
    accepts every other command. *)
Definition exec_on_branch (branch : string) (commits : N) (command : string)
  : ExecResult :=
  if Js.startsWith "git rev-parse" command then ExecOk (branch +:+ nl)
  else if Js.startsWith "git rev-list" command then ExecOk (rev_list_output commits)
  else ExecOk "".

Definition world_switched : World :=
  mkWorld (exec_on_branch "master" 3)
    [StdoutData "fix-bug"; Close (Some 0)]
    [StdoutData "done"; Close (Some 0)]
    1705123456789 1705123456000 (FetchOk "https://bitbucket.org/ws/repo/pull-requests/1").

Definition world_noop : World :=
  mkWorld (exec_on_branch "claude/noop-1705123456789" 0)
    [StdoutData "noop"; Close (Some 0)]
    [StdoutData "nothing to do"; Close (Some 0)]
    1705123456789 1705123456000 (FetchOk "https://bitbucket.org/ws/repo/pull-requests/1").

Definition world_agent_crash : World :=
  mkWorld (exec_on_branch "claude/noop-1705123456789" 1)
    [StdoutData "noop"; Close (Some 0)]
    [StderrData "out of credit"; Close (Some 1)]
    1705123456789 1705123456000 (FetchOk "https://bitbucket.org/ws/repo/pull-requests/1").

Definition body_noop : ParsedBody := BodyObject (Some "noop") None.

Definition fs_with_sources : Fs :=
  mkFs {[ "/workspace"; "/workspace/repo"; "/workspace/repo/src" ]}
       {[ "/workspace/repo/.clone-complete" := "";
          "/workspace/repo/src/index.js" := "module.exports = {};" ]}.

Definition image_escaping : Image := mkImage (Some "../src/index.js") (Some "AAAA").

(** Two attachments, the second without its payload. *)
Definition body_partial : ParsedBody :=
  BodyObject (Some "match the mockup")
    (Some [mkImage (Some "mockup.png") (Some "AAAA"); mkImage (Some "second.png") None]).

Definition body_health_icon : ParsedBody := BodyObject (Some "add a health icon") None.

(** The agent commits one change on the branch the pipeline created. *)
Definition world_one_commit : World :=
  mkWorld (exec_on_branch "claude/add-health-icon-1705123456789" 1)
    [StdoutData "add-health-icon"; StdoutData nl; Close (Some 0)]
    [StdoutData "Committed 1 file."; Close (Some 0)]
    1705123456789 1705123456000 (FetchOk "https://bitbucket.org/ws/repo/pull-requests/7").

Definition req_post : Request :=
  mkRequest "POST" "/" (Some "https://www.smarty.com") (Some "Bearer secret")
    (Some " 203.0.113.7 , 10.0.0.1") (Some "10.0.0.1") body_noop.

(** ** Vocabulary of the further statements about slugs *)

Definition is_alnum (c : ascii) : bool :=
  Char.is_upper c || Char.is_lower c || Char.is_digit c.

Definition no_leading_hyphen (l : list ascii) : Prop :=
  forall c r, l = c :: r -> Char.is_hyphen c = false.

Definition no_trailing_hyphen (l : list ascii) : Prop :=
  forall r c, l = r ++ [c] -> Char.is_hyphen c = false.

Definition no_double_hyphen (l : list ascii) : Prop :=
  forall l1 l2, l <> l1 ++ "-"%char :: "-"%char :: l2.

(** A string in the form [slugify] produces. *)
Definition is_slug_form (s : string) : Prop :=
  slug_chars s /\ no_leading_hyphen (Js.chars s) /\
  no_trailing_hyphen (Js.chars s) /\ no_double_hyphen (Js.chars s).

(** ** The runs of the pipeline, tabulated *)

Definition cmd_rev_parse : string := "git rev-parse --abbrev-ref HEAD".

Definition cmd_rev_list (branch : string) : string :=
  "git rev-list --count master.." +:+ branch.

Definition cmd_push (branch : string) : string :=
  "git push -u origin " +:+ dq +:+ branch +:+ dq.

Definition cmd_checkout_new (name : string) : string :=
  "git checkout -b " +:+ dq +:+ name +:+ dq.

Definition is_fs_effect (e : Effect) : bool :=
  match e with
  | EffMkdir _ | EffWrite _ _ | EffRm _ => true
  | _ => false
  end.

(** What a stretch of the [try] block does: the effects it logs, how it
    ends, and the response it writes, if any. *)
Definition Run : Type := (list Effect * Outcome unit * option Response)%type.

Definition apply_run (r : Run) (s : St) : Outcome unit * St :=
  let '(t, o, resp) := r in
  (o, mkSt (st_fs s) (st_trace s ++ t) (st_imagePaths s)
        (match resp with Some x => Some x | None => st_response s end)).

Definition forge_call (BB_WORKSPACE BB_REPO request branch : string) : Effect :=
  EffFetch (pr_url BB_WORKSPACE BB_REPO) branch (Js.substring0 100 request)
    (prDescription request).

(** The table of [verify_and_publish]. *)
Definition verify_table (BB_WORKSPACE BB_REPO : string) (w : World) (request : string)
  : Run :=
  match w_exec w cmd_rev_parse with
  | ExecFail message => ([EffExec cmd_rev_parse], Throw message, None)
  | ExecOk out =>
      let branch := Js.trim out in
      if negb (Js.startsWith "claude/" branch)
      then ([EffExec cmd_rev_parse], Throw (safety_error branch), None)
      else
        match w_exec w (cmd_rev_list branch) with
        | ExecFail message =>
            ([EffExec cmd_rev_parse; EffExec (cmd_rev_list branch)], Throw message, None)
        | ExecOk counted =>
            if decide (parseInt (Js.trim counted) = Some 0)
            then ([EffExec cmd_rev_parse; EffExec (cmd_rev_list branch)], Return,
                  Some (mkResponse 400 (ErrorBody no_commits_error)))
            else
              match w_exec w (cmd_push branch) with
              | ExecFail message =>
                  ([EffExec cmd_rev_parse; EffExec (cmd_rev_list branch);
                    EffExec (cmd_push branch)], Throw message, None)
              | ExecOk _ =>
                  let t := [EffExec cmd_rev_parse; EffExec (cmd_rev_list branch);
                            EffExec (cmd_push branch);
                            forge_call BB_WORKSPACE BB_REPO request branch] in
                  match w_fetch w with
                  | FetchError message => (t, Throw message, None)
                  | FetchNotOk st errorText =>
                      (t, Throw ("Bitbucket API error (" +:+ Js.of_int st +:+ "): "
                                 +:+ errorText), None)
                  | FetchOk href =>
                      (t, Val tt, Some (mkResponse 200 (PrBody href branch)))
                  end
              end
        end
  end.

(** The table of [synchronize_and_run], for the value [imagePaths] holds
    when it starts. *)
Definition run_table (BB_WORKSPACE BB_REPO : string) (w : World) (request : string)
    (imagePaths : list string) : Run :=
  match w_exec w "git fetch origin" with
  | ExecFail message => ([EffExec "git fetch origin"], Throw message, None)
  | ExecOk _ =>
  match w_exec w "git checkout master" with
  | ExecFail message =>
      ([EffExec "git fetch origin"; EffExec "git checkout master"], Throw message, None)
  | ExecOk _ =>
  match w_exec w "git reset --hard origin/master" with
  | ExecFail message =>
      ([EffExec "git fetch origin"; EffExec "git checkout master";
        EffExec "git reset --hard origin/master"], Throw message, None)
  | ExecOk _ =>
  let synced := [EffExec "git fetch origin"; EffExec "git checkout master";
                 EffExec "git reset --hard origin/master";
                 EffSpawn "claude" (namer_args request)] in
  match generateBranchName request (w_namer w) with
  | None => (synced, Pending, None)
  | Some (Rejected message) => (synced, Throw message, None)
  | Some (Resolved slug) =>
  let create := EffExec (cmd_checkout_new (branchName slug (w_now w))) in
  match w_exec w (cmd_checkout_new (branchName slug (w_now w))) with
  | ExecFail message => (synced ++ [create], Throw message, None)
  | ExecOk _ =>
  let started := synced ++ [create;
                   EffSpawn "claude"
                     (agent_args (claudePrompt request imagePaths) imagePaths)] in
  match agent_promise (agent_run (w_agent w)) with
  | None => (started, Pending, None)
  | Some (Rejected message) => (started, Throw message, None)
  | Some (Resolved _) =>
      let '(t, o, resp) := verify_table BB_WORKSPACE BB_REPO w request in
      (started ++ t, o, resp)
  end end end end end end.

(** The effects of a complete run other than those on the file system,
    in order: synchronise, name, branch, run the agent, verify, publish. *)
Definition run_sequence (BB_WORKSPACE BB_REPO request : string)
    (imagePaths : list string) (name branch : string) : list Effect :=
  [EffExec "git fetch origin"; EffExec "git checkout master";
   EffExec "git reset --hard origin/master";
   EffSpawn "claude" (namer_args request);
   EffExec (cmd_checkout_new name);
   EffSpawn "claude" (agent_args (claudePrompt request imagePaths) imagePaths);
   EffExec cmd_rev_parse; EffExec (cmd_rev_list branch); EffExec (cmd_push branch);
   forge_call BB_WORKSPACE BB_REPO request branch].

Definition actions (trace : list Effect) : list Effect :=
  List.filter (fun e => negb (is_fs_effect e)) trace.

(** The paths the handler holds once the attachments are saved: those
    [saveImages] returned, or none when the request carries no image. *)
Definition attachments_saved (REPO_PATH : string) (images : option (list Image))
    (fs : Fs) (paths : list string) : Prop :=
  match images with
  | Some (img :: imgs) =>
      (saveImages REPO_PATH (img :: imgs) (mkSt fs [] [] None)).1 = Val paths
  | _ => paths = []
  end.

(** The paths [saveImages] builds for a list of attachments, the first of
    which has position [index]. *)
Fixpoint image_paths (REPO_PATH : string) (images : list Image) (index : nat)
  : list string :=
  match images with
  | [] => []
  | img :: rest =>
      Path.join (tempDir REPO_PATH) (image_filename img index)
      :: image_paths REPO_PATH rest (S index)
  end.

(** Nothing of the file system is the directory [dir] or lies below it. *)
Definition nothing_at (fs : Fs) (dir : string) : Prop :=
  set_Forall (fun q => q <> dir /\ Path.inside dir q = false) (fs_dirs fs) /\
  map_Forall (fun q (_ : string) => q <> dir /\ Path.inside dir q = false) (fs_files fs).

Definition unnamed (img : Image) : Prop :=
  img_name img = None \/ img_name img = Some "".

(** The state after [writeFileSync] has written [d] at [p]. *)
Definition after_write (s : St) (p d : string) : St :=
  mkSt (fs_write (st_fs s) p d) (st_trace s ++ [EffWrite p d]) (st_imagePaths s)
       (st_response s).

Definition images_mixed : list Image :=
  [mkImage (Some "mockup.png") (Some "AAAA"); mkImage None (Some "BBBB")].

Definition images_unnamed : list Image :=
  [mkImage None (Some "AAAA"); mkImage (Some "") (Some "BBBB")].

(** A run that ends before the first git command: it has touched the file
    system at most, it has ended, and it has answered with an error. *)
Definition stopped_early (outcome : Outcome unit) (trace : list Effect)
    (response : option Response) : Prop :=
  Forall (fun e => is_fs_effect e = true) trace /\
  outcome <> Pending /\ (forall message, outcome <> Throw message) /\
  exists r, response = Some r /\ (status r = 400 \/ status r = 500 \/ status r = 503).

(** The forge turns the pull request down. *)
Definition world_forge_refuses : World :=
  mkWorld (exec_on_branch "claude/add-health-icon-1705123456789" 1)
    [StdoutData "add-health-icon"; StdoutData nl; Close (Some 0)]
    [StdoutData "Committed 1 file."; Close (Some 0)]
    1705123456789 1705123456000 (FetchNotOk 401 "Unauthorized").

(** The remote turns the push down. *)
Definition world_push_rejected : World :=
  mkWorld (fun command =>
             if is_push command then ExecFail "remote: Permission denied"
             else exec_on_branch "claude/add-health-icon-1705123456789" 1 command)
    [StdoutData "add-health-icon"; StdoutData nl; Close (Some 0)]
    [StdoutData "Committed 1 file."; Close (Some 0)]
    1705123456789 1705123456000 (FetchOk "https://bitbucket.org/ws/repo/pull-requests/7").

Definition body_no_request : ParsedBody := BodyObject (Some "") (Some images_mixed).

(** A request text with a NUL byte in it. *)
Definition request_with_nul : string := "fix" +:+ String "000"%char "bug".

Definition body_with_nul : ParsedBody := BodyObject (Some request_with_nul) None.

(** The TypeError of [spawn] for the namer's argument list when the prompt
    holds a NUL byte. *)
Definition spawn_nul_error : string :=
  "The argument 'args[4]' must be a string without null bytes. Received 'Generate a short git branch name (2-4 words, lowercase, hyphen-separated) that captures the essence of this request. Output ONL...".

(** [spawn] refuses the argument list of the namer. *)
Definition world_spawn_refuses : World :=
  mkWorld (exec_on_branch "master" 0)
    [SpawnThrow spawn_nul_error]
    [StdoutData "done"; Close (Some 0)]
    1705123456789 1705123456000 (FetchOk "https://bitbucket.org/ws/repo/pull-requests/1").


Definition incoming_sixth : Incoming := mkIncoming None req_sixth.

(** ** The branch namer on strings of arbitrary code units

    A JavaScript string is a sequence of 16-bit code units.  The handler
    above is modelled on strings of code units below 256; the namer is
    modelled here once more for every string, a list of code units.
    [String.prototype.toLowerCase] follows the case tables of Unicode,
    which are not part of the repository: it is a parameter, [toLowerCase],
    and the statements about the namer say what they assume of it. *)

Module Wide.

Definition of_string (s : string) : list N := map Char.code (Js.chars s).

Definition in_range (lo hi c : N) : bool := ((lo <=? c) && (c <=? hi))%N.

Definition is_upper (c : N) : bool := in_range 65 90 c.
Definition is_lower (c : N) : bool := in_range 97 122 c.
Definition is_digit (c : N) : bool := in_range 48 57 c.
Definition is_hyphen (c : N) : bool := (c =? 45)%N.
Definition is_underscore (c : N) : bool := (c =? 95)%N.

(** [\w] of a regular expression without the [u] or [i] flag. *)
Definition is_word (c : N) : bool :=
  is_upper c || is_lower c || is_digit c || is_underscore c.

(** [\s], and the code units removed by [trim]: the white space and line
    terminators of ECMAScript (TAB, LF, VT, FF, CR, SP, NBSP, U+1680,
    U+2000 to U+200A, LS, PS, U+202F, U+205F, U+3000 and U+FEFF). *)
Definition is_space (c : N) : bool :=
  in_range 9 13 c || (c =? 32)%N || (c =? 160)%N || (c =? 5760)%N
  || in_range 8192 8202 c || (c =? 8232)%N || (c =? 8233)%N || (c =? 8239)%N
  || (c =? 8287)%N || (c =? 12288)%N || (c =? 65279)%N.

(** The code units a slug may contain: [[a-z0-9-]]. *)
Definition is_slug (c : N) : bool := is_lower c || is_digit c || is_hyphen c.

Fixpoint drop_while (p : N -> bool) (l : list N) : list N :=
  match l with
  | [] => []
  | c :: r => if p c then drop_while p r else l
  end.

Definition strip (p : N -> bool) (l : list N) : list N :=
  rev (drop_while p (rev (drop_while p l))).

(** [s.trim()] *)
Definition trim (s : list N) : list N := strip is_space s.

(** [text.replace(/[^\w\s-]/g, "")] *)
Definition remove_non_word (l : list N) : list N :=
  List.filter (fun c => is_word c || is_space c || is_hyphen c) l.

Definition is_separator (c : N) : bool :=
  is_space c || is_underscore c || is_hyphen c.

(** [text.replace(/[\s_-]+/g, "-")] *)
Fixpoint collapse_separators (in_run : bool) (l : list N) : list N :=
  match l with
  | [] => []
  | c :: r =>
      if is_separator c
      then (if in_run then collapse_separators true r
            else 45%N :: collapse_separators true r)
      else c :: collapse_separators false r
  end.

(** [text.replace(/^-+|-+$/g, "")] *)
Definition strip_hyphens (l : list N) : list N := strip is_hyphen l.

(** [branchName || fallback] *)
Definition or_else (a b : list N) : list N :=
  match a with
  | [] => b
  | _ => a
  end.

Inductive Event : Type :=
  | StdoutData (d : list N)
  | StderrData (d : list N)
  | Close (code : option Z)
  | ProcError (message : string)
  | SpawnThrow (message : string).

Record NamerState : Type := mkNamer {
  namer_stdout : list N;
  namer_promise : option (Settled (list N))
}.

Section Namer.

Variable toLowerCase : list N -> list N.

(** [slugify] of the Bitbucket variant with authentication. *)
Definition slugify (text : list N) : list N :=
  strip_hyphens
    (collapse_separators false (remove_non_word (trim (toLowerCase text)))).

(** [slugify] of [server.js]: the same chain followed by
    [.substring(0, 50)]. *)
Definition basic_slugify (text : list N) : list N := take 50 (slugify text).

Definition namer_fallback (request : list N) : list N := take 30 (slugify request).

Definition namer_step (request : list N) (st : NamerState) (ev : Event)
  : NamerState :=
  match ev with
  | StdoutData d => mkNamer (namer_stdout st ++ d) (namer_promise st)
  | StderrData _ => st
  | Close code =>
      if decide (code = Some 0)
      then
        let branchName := take 40 (slugify (trim (namer_stdout st))) in
        mkNamer (namer_stdout st)
          (settle (namer_promise st)
             (Resolved (or_else branchName (namer_fallback request))))
      else
        mkNamer (namer_stdout st)
          (settle (namer_promise st) (Resolved (namer_fallback request)))
  | ProcError _ =>
      mkNamer (namer_stdout st)
        (settle (namer_promise st) (Resolved (namer_fallback request)))
  | SpawnThrow message =>
      mkNamer (namer_stdout st) (settle (namer_promise st) (Rejected message))
  end.

(** [generateBranchName(request)] *)
Definition generateBranchName (request : list N) (events : list Event)
  : option (Settled (list N)) :=
  namer_promise (fold_left (namer_step request) events (mkNamer [] None)).

End Namer.

(** [`claude/${slug}-${Date.now()}`] *)
Definition branchName (slug : list N) (now : Z) : list N :=
  of_string "claude/" ++ slug ++ of_string "-" ++ of_string (Js.of_int now).

(** The pattern [claude/[a-z0-9-]{0,50}-\d+], matched against the whole
    string. *)
Definition all_digits (l : list N) : bool :=
  match l with
  | [] => false
  | _ => forallb is_digit l
  end.

Definition match_tail (l : list N) : bool :=
  match l with
  | c :: r => is_hyphen c && all_digits r
  | [] => false
  end.

Fixpoint match_slug (n : nat) (l : list N) : bool :=
  match_tail l ||
  match n, l with
  | S n', c :: r => is_slug c && match_slug n' r
  | _, _ => false
  end.

Fixpoint strip_prefix (p l : list N) : option (list N) :=
  match p, l with
  | [], _ => Some l
  | a :: p', b :: l' => if decide (a = b) then strip_prefix p' l' else None
  | _ :: _, [] => None
  end.

Definition matches_branch_pattern (name : list N) : bool :=
  match strip_prefix (of_string "claude/") name with
  | Some rest => match_slug 50 rest
  | None => false
  end.

(** The lower-case mapping on the code units for which it is written out
    here: the capitals of ASCII and Latin-1, the Kelvin sign (to "k") and
    the dotted capital I (to "i" and a combining dot); every other unit is
    left as it is.  An instance for examples. *)
Definition lower_unit (c : N) : list N :=
  if is_upper c || (in_range 192 222 c && negb (c =? 215)%N) then [(c + 32)%N]
  else if (c =? 8490)%N then [107%N]
  else if (c =? 304)%N then [105%N; 775%N]
  else [c].

Definition lower_known (s : list N) : list N := flat_map lower_unit s.

Definition is_alnum (c : N) : bool := is_upper c || is_lower c || is_digit c.

End Wide.

(** A request that starts with the Kelvin sign: "<U+212A>elvin scale". *)
Definition request_kelvin : list N := 8490%N :: Wide.of_string "elvin scale".

(** * Properties *)

(** ** The rate limiter *)

Section RateLimiter.

Implicit Types (m : gmap (option string) RateLimitRecord) (ip : option string).

Lemma check_fresh now ip m :
  m !! ip = None ->
  checkRateLimit now ip m = (true, <[ ip := mkRecord now 1 ]> m).
Proof. intros H. unfold checkRateLimit. now rewrite H. Qed.

Lemma check_expired now ip m r :
  m !! ip = Some r -> now - windowStart r > RATE_LIMIT_WINDOW_MS ->
  checkRateLimit now ip m = (true, <[ ip := mkRecord now 1 ]> m).
Proof.
  intros H Hexp. unfold checkRateLimit. rewrite H.
  destruct (decide _); [reflexivity | contradiction].
Qed.

Lemma check_full now ip m r :
  m !! ip = Some r -> now - windowStart r <= RATE_LIMIT_WINDOW_MS ->
  count r >= RATE_LIMIT_MAX_REQUESTS ->
  checkRateLimit now ip m = (false, m).
Proof.
  intros H Hcur Hfull. unfold checkRateLimit. rewrite H.
  destruct (decide _); [lia |].
  destruct (decide _); [reflexivity | contradiction].
Qed.

Lemma check_increment now ip m r :
  m !! ip = Some r -> now - windowStart r <= RATE_LIMIT_WINDOW_MS ->
  count r < RATE_LIMIT_MAX_REQUESTS ->
  checkRateLimit now ip m
  = (true, <[ ip := mkRecord (windowStart r) (count r + 1) ]> m).
Proof.
  intros H Hcur Hroom. unfold checkRateLimit. rewrite H.
  destruct (decide _); [lia |].
  destruct (decide _); [lia | reflexivity].
Qed.

Lemma check_allowed_consumes now ip m :
  (checkRateLimit now ip m).1 = true ->
  consumes now ip m (checkRateLimit now ip m).2.
Proof.
  unfold checkRateLimit, consumes.
  destruct (m !! ip) as [r|] eqn:E; [| now left].
  destruct (decide _); [now left |].
  destruct (decide _); [discriminate |].
  intros _. right. exists r. split; reflexivity.
Qed.

Lemma check_denied_same now ip m :
  (checkRateLimit now ip m).1 = false -> (checkRateLimit now ip m).2 = m.
Proof.
  unfold checkRateLimit.
  destruct (m !! ip) as [r|]; [| discriminate].
  repeat (destruct (decide _)); simpl; congruence.
Qed.

Lemma window_inv_step t now ip m :
  window_inv t m -> window_inv t (checkRateLimit now ip m).2.
Proof.
  intros Hinv k r. unfold checkRateLimit.
  destruct (m !! ip) as [r0|] eqn:E.
  - destruct (decide _).
    + simpl. rewrite lookup_insert. destruct (decide (ip = k)).
      * intros [= <-] _. simpl. unfold RATE_LIMIT_MAX_REQUESTS. lia.
      * apply Hinv.
    + destruct (decide _); simpl; [apply Hinv |].
      rewrite lookup_insert. destruct (decide (ip = k)).
      * intros [= <-] _. simpl. lia.
      * apply Hinv.
  - simpl. rewrite lookup_insert. destruct (decide (ip = k)).
    + intros [= <-] _. simpl. unfold RATE_LIMIT_MAX_REQUESTS. lia.
    + apply Hinv.
Qed.

Lemma window_inv_run t calls m :
  window_inv t m -> window_inv t (run_checks calls m).
Proof.
  revert m. induction calls as [|c calls IH]; intros m Hinv; [exact Hinv |].
  simpl. apply IH. now apply window_inv_step.
Qed.

Lemma window_inv_empty t : window_inv t ∅.
Proof. intros k r H. rewrite lookup_empty in H. discriminate. Qed.

End RateLimiter.

(** C7.  Starting from the empty table, after every sequence of checks
    each record whose window is current at a given time holds a count of
    at most the maximum; and every single check preserves that. *)
Theorem rate_limit_invariant :
  (forall calls t, window_inv t (run_checks calls ∅)) /\
  (forall t now ip m, window_inv t m -> window_inv t (checkRateLimit now ip m).2).
Proof.
  split.
  - intros calls t. apply window_inv_run, window_inv_empty.
  - intros t now ip m. apply window_inv_step.
Qed.

Lemma rate_limit_invariant_witness :
  window_inv 100 (<[ Some "10.0.0.1" := mkRecord 0 5 ]> ∅) /\
  window_inv 100 (checkRateLimit 50 (Some "10.0.0.1")
                    (<[ Some "10.0.0.1" := mkRecord 0 5 ]> ∅)).2.
Proof.
  assert (H : window_inv 100 (<[ Some "10.0.0.1" := mkRecord 0 5 ]> ∅)).
  { intros k r. rewrite lookup_insert. destruct (decide _).
    - intros [= <-] _. simpl. unfold RATE_LIMIT_MAX_REQUESTS. lia.
    - rewrite lookup_empty. discriminate. }
  split; [exact H |].
  apply (proj2 rate_limit_invariant 100 50 (Some "10.0.0.1") _ H).
Defined.

Section Gate.

Variables REPO_PATH API_KEY BB_WORKSPACE BB_REPO : string.

Local Abbreviation serve := (server REPO_PATH API_KEY BB_WORKSPACE BB_REPO).
Local Abbreviation authenticated := (isAuthenticated API_KEY).
Local Abbreviation handle := (handleChangeRequest REPO_PATH BB_WORKSPACE BB_REPO).

(** A request that reaches the rate limiter: not a preflight, not the
    health probe, and carrying the right bearer token. *)
Lemma server_gated w req srv :
  req_method req <> "OPTIONS" ->
  ~ (req_method req = "GET" /\ req_pathname req = "/health") ->
  authenticated req = true ->
  serve w req srv =
  let '(allowed, table) :=
    checkRateLimit (w_gate_now w) (clientIp req) (srv_rateLimitMap srv) in
  if negb allowed then
    (answer req 429 (ErrorBody "Too many requests. Please try again later."),
     mkServer table (srv_fs srv))
  else if decide (req_method req = "POST" /\ req_pathname req = "/") then
    let '(_, s) := handle w (req_body req)
                     (mkSt (srv_fs srv) [] [] None) in
    (mkReply (allowed_origin req) (st_response s) (st_trace s),
     mkServer table (st_fs s))
  else
    (answer req 404 (ErrorBody "Not found"), mkServer table (srv_fs srv)).
Proof.
  intros Hopt Hhealth Hauth. unfold server.
  destruct (decide (req_method req = "OPTIONS")); [contradiction |].
  destruct (decide (req_method req = "GET" /\ req_pathname req = "/health"));
    [contradiction |].
  rewrite Hauth. reflexivity.
Qed.

Lemma server_table w req srv :
  req_method req <> "OPTIONS" ->
  ~ (req_method req = "GET" /\ req_pathname req = "/health") ->
  authenticated req = true ->
  srv_rateLimitMap (serve w req srv).2
  = (checkRateLimit (w_gate_now w) (clientIp req) (srv_rateLimitMap srv)).2.
Proof.
  intros Hopt Hhealth Hauth. rewrite server_gated by assumption.
  destruct (checkRateLimit _ _ _) as [allowed table]. simpl.
  destruct allowed; simpl; [| reflexivity].
  destruct (decide _); [| reflexivity].
  destruct (handleChangeRequest _ _ _ _ _ _). reflexivity.
Qed.

Lemma server_denied w req srv :
  req_method req <> "OPTIONS" ->
  ~ (req_method req = "GET" /\ req_pathname req = "/health") ->
  authenticated req = true ->
  (checkRateLimit (w_gate_now w) (clientIp req) (srv_rateLimitMap srv)).1 = false ->
  reply_response (serve w req srv).1
  = Some (mkResponse 429 (ErrorBody "Too many requests. Please try again later.")).
Proof.
  intros Hopt Hhealth Hauth Hdeny. rewrite server_gated by assumption.
  destruct (checkRateLimit _ _ _) as [allowed table]. simpl in Hdeny.
  subst allowed. reflexivity.
Qed.

Lemma handle_not_ready w parsed fs :
  fs_exists fs (Path.join REPO_PATH ".clone-complete") = false ->
  handle w parsed (mkSt fs [] [] None)
  = (Return,
     mkSt fs [] []
       (Some (mkResponse 503
                (ErrorBody "Repository is still cloning. Please try again in a moment.")))).
Proof.
  intros H. unfold handleChangeRequest, try_catch_finally, pipeline, isRepoReady.
  unfold finally_block, bind, set_imagePaths, get_fs, ret, respond, return_, get_imagePaths.
  simpl. rewrite H. reflexivity.
Qed.

Lemma six_checks (now t2 t3 t4 t5 t6 : Z) (ip : option string)
    (m : gmap (option string) RateLimitRecord) :
  m !! ip = None ->
  t2 - now <= RATE_LIMIT_WINDOW_MS -> t3 - now <= RATE_LIMIT_WINDOW_MS ->
  t4 - now <= RATE_LIMIT_WINDOW_MS -> t5 - now <= RATE_LIMIT_WINDOW_MS ->
  t6 - now <= RATE_LIMIT_WINDOW_MS ->
  check_times [now; t2; t3; t4; t5; t6] ip m
  = ([true; true; true; true; true; false], <[ ip := mkRecord now 5 ]> m).
Proof.
  intros Hnone H2 H3 H4 H5 H6. unfold check_times.
  rewrite (check_fresh now ip m Hnone).
  rewrite (check_increment t2 ip _ (mkRecord now 1)); simpl;
    [| apply lookup_insert_eq | lia | unfold RATE_LIMIT_MAX_REQUESTS; lia].
  rewrite insert_insert_eq.
  rewrite (check_increment t3 ip _ (mkRecord now 2)); simpl;
    [| apply lookup_insert_eq | lia | unfold RATE_LIMIT_MAX_REQUESTS; lia].
  rewrite insert_insert_eq.
  rewrite (check_increment t4 ip _ (mkRecord now 3)); simpl;
    [| apply lookup_insert_eq | lia | unfold RATE_LIMIT_MAX_REQUESTS; lia].
  rewrite insert_insert_eq.
  rewrite (check_increment t5 ip _ (mkRecord now 4)); simpl;
    [| apply lookup_insert_eq | lia | unfold RATE_LIMIT_MAX_REQUESTS; lia].
  rewrite insert_insert_eq.
  rewrite (check_full t6 ip _ (mkRecord now 5)); simpl;
    [| apply lookup_insert_eq | lia | unfold RATE_LIMIT_MAX_REQUESTS; lia].
  reflexivity.
Qed.

(** C6.  A check of an identity without a record, or with a record whose
    window began more than the window length ago, starts a new window with
    count 1 and allows; otherwise a count at or above the maximum denies
    and leaves the table as it is, and the server answers 429; otherwise
    the count is incremented and the request is allowed.  With the maximum
    of 5, of six checks inside one window the sixth is denied, and a check
    after the window has elapsed is allowed and sets the count to 1. *)
Theorem rate_limit_check (now : Z) (ip : option string)
    (m : gmap (option string) RateLimitRecord) :
  (m !! ip = None \/
   (exists r, m !! ip = Some r /\ now - windowStart r > RATE_LIMIT_WINDOW_MS) ->
   checkRateLimit now ip m = (true, <[ ip := mkRecord now 1 ]> m)) /\
  (forall r, m !! ip = Some r ->
     now - windowStart r <= RATE_LIMIT_WINDOW_MS ->
     count r >= RATE_LIMIT_MAX_REQUESTS ->
     checkRateLimit now ip m = (false, m)) /\
  (forall r, m !! ip = Some r ->
     now - windowStart r <= RATE_LIMIT_WINDOW_MS ->
     count r < RATE_LIMIT_MAX_REQUESTS ->
     checkRateLimit now ip m
     = (true, <[ ip := mkRecord (windowStart r) (count r + 1) ]> m)) /\
  (forall w req srv,
     req_method req <> "OPTIONS" ->
     ~ (req_method req = "GET" /\ req_pathname req = "/health") ->
     authenticated req = true ->
     w_gate_now w = now -> clientIp req = ip -> srv_rateLimitMap srv = m ->
     (checkRateLimit now ip m).1 = false ->
     reply_response (serve w req srv).1
     = Some (mkResponse 429 (ErrorBody "Too many requests. Please try again later."))) /\
  RATE_LIMIT_MAX_REQUESTS = 5 /\
  (forall t2 t3 t4 t5 t6 t7,
     m !! ip = None ->
     t2 - now <= RATE_LIMIT_WINDOW_MS -> t3 - now <= RATE_LIMIT_WINDOW_MS ->
     t4 - now <= RATE_LIMIT_WINDOW_MS -> t5 - now <= RATE_LIMIT_WINDOW_MS ->
     t6 - now <= RATE_LIMIT_WINDOW_MS -> t7 - now > RATE_LIMIT_WINDOW_MS ->
     (check_times [now; t2; t3; t4; t5; t6] ip m).1
     = [true; true; true; true; true; false] /\
     checkRateLimit t7 ip (check_times [now; t2; t3; t4; t5; t6] ip m).2
     = (true, <[ ip := mkRecord t7 1 ]> (check_times [now; t2; t3; t4; t5; t6] ip m).2)).
Proof.
  split; [| split; [| split; [| split; [| split]]]].
  - intros [Hnone | (r & Hr & Hexp)].
    + now apply check_fresh.
    + now apply (check_expired now ip m r).
  - intros r. apply check_full.
  - intros r. apply check_increment.
  - intros w req srv Hopt Hhealth Hauth <- <- <- Hdeny.
    now apply server_denied.
  - reflexivity.
  - intros t2 t3 t4 t5 t6 t7 Hnone H2 H3 H4 H5 H6 H7.
    rewrite six_checks by assumption. simpl. split; [reflexivity |].
    apply (check_expired t7 ip _ (mkRecord now 5)); [apply lookup_insert_eq | exact H7].
Qed.

(** The gate of [server]: the table afterwards is the one the check left;
    an allowing check uses up one unit, a denying one leaves the table as
    it is and the answer is 429. *)
Lemma server_gate w req srv :
  req_method req <> "OPTIONS" ->
  ~ (req_method req = "GET" /\ req_pathname req = "/health") ->
  authenticated req = true ->
  srv_rateLimitMap (serve w req srv).2
  = (checkRateLimit (w_gate_now w) (clientIp req) (srv_rateLimitMap srv)).2 /\
  ((checkRateLimit (w_gate_now w) (clientIp req) (srv_rateLimitMap srv)).1 = true ->
   consumes (w_gate_now w) (clientIp req) (srv_rateLimitMap srv)
     (srv_rateLimitMap (serve w req srv).2) /\
   (~ (req_method req = "POST" /\ req_pathname req = "/") ->
    reply_response (serve w req srv).1
    = Some (mkResponse 404 (ErrorBody "Not found"))) /\
   (req_method req = "POST" /\ req_pathname req = "/" ->
    fs_exists (srv_fs srv) (Path.join REPO_PATH ".clone-complete") = false ->
    reply_response (serve w req srv).1
    = Some (mkResponse 503
              (ErrorBody "Repository is still cloning. Please try again in a moment.")))) /\
  ((checkRateLimit (w_gate_now w) (clientIp req) (srv_rateLimitMap srv)).1 = false ->
   srv_rateLimitMap (serve w req srv).2 = srv_rateLimitMap srv /\
   reply_response (serve w req srv).1
   = Some (mkResponse 429 (ErrorBody "Too many requests. Please try again later."))).
Proof.
  intros Hopt Hhealth Hauth.
  pose proof (server_table w req srv Hopt Hhealth Hauth) as Htable.
  split; [exact Htable |]. split.
  - intros Hallow. split; [| split].
    + rewrite Htable. now apply check_allowed_consumes.
    + intros Hroute. rewrite server_gated by assumption.
      destruct (checkRateLimit _ _ _) as [allowed table]. simpl in Hallow.
      subst allowed. simpl.
      destruct (decide _); [contradiction | reflexivity].
    + intros Hroute Hready. rewrite server_gated by assumption.
      destruct (checkRateLimit _ _ _) as [allowed table]. simpl in Hallow.
      subst allowed. simpl.
      destruct (decide _); [| contradiction].
      rewrite handle_not_ready by exact Hready. reflexivity.
  - intros Hdeny. split.
    + rewrite Htable. now apply check_denied_same.
    + now apply server_denied.
Qed.

(** C10, as amended.  Every authenticated request whose target parses
    and that is neither a preflight nor the health probe is replied to
    after going through the rate-limit check, before routing and readiness
    are looked at, and the table afterwards is the one the check left.
    When the check allows, one unit is used up (a new window is started or
    the count incremented), also for requests answered 404 or 503; when it
    denies, the answer is 429 and the table is unchanged. *)
Theorem gate_consumes_quota_when_allowed w msg srv :
  in_url_error msg = None ->
  req_method (in_request msg) <> "OPTIONS" ->
  ~ (req_method (in_request msg) = "GET" /\ req_pathname (in_request msg) = "/health") ->
  isAuthenticated API_KEY (in_request msg) = true ->
  exists reply srv',
    listener REPO_PATH API_KEY BB_WORKSPACE BB_REPO w msg srv = Replied reply srv' /\
    srv_rateLimitMap srv'
    = (checkRateLimit (w_gate_now w) (clientIp (in_request msg))
         (srv_rateLimitMap srv)).2 /\
    ((checkRateLimit (w_gate_now w) (clientIp (in_request msg))
        (srv_rateLimitMap srv)).1 = true ->
     consumes (w_gate_now w) (clientIp (in_request msg)) (srv_rateLimitMap srv)
       (srv_rateLimitMap srv') /\
     (~ (req_method (in_request msg) = "POST" /\ req_pathname (in_request msg) = "/") ->
      reply_response reply = Some (mkResponse 404 (ErrorBody "Not found"))) /\
     (req_method (in_request msg) = "POST" /\ req_pathname (in_request msg) = "/" ->
      fs_exists (srv_fs srv) (Path.join REPO_PATH ".clone-complete") = false ->
      reply_response reply
      = Some (mkResponse 503
                (ErrorBody "Repository is still cloning. Please try again in a moment.")))) /\
    ((checkRateLimit (w_gate_now w) (clientIp (in_request msg))
        (srv_rateLimitMap srv)).1 = false ->
     srv_rateLimitMap srv' = srv_rateLimitMap srv /\
     reply_response reply
     = Some (mkResponse 429 (ErrorBody "Too many requests. Please try again later."))).
Proof.
  intros Hurl Hopt Hhealth Hauth.
  pose proof (server_gate w (in_request msg) srv Hopt Hhealth Hauth) as Hgate.
  unfold listener. rewrite Hurl.
  destruct (server REPO_PATH API_KEY BB_WORKSPACE BB_REPO w (in_request msg) srv)
    as [reply srv'].
  exists reply, srv'. split; [reflexivity | exact Hgate].
Qed.

End Gate.

(** C10, as stated, fails: a sixth request inside the window is answered
    429 and neither starts a window nor increments the count. *)
Lemma quota_not_always_consumed :
  ~ every_request_consumes "/workspace/repo" "secret" "ws" "repo".
Proof.
  intros H.
  specialize (H world_quiet req_sixth srv_full).
  assert (Hopt : req_method req_sixth <> "OPTIONS") by discriminate.
  assert (Hhealth : ~ (req_method req_sixth = "GET" /\ req_pathname req_sixth = "/health"))
    by (intros [? _]; discriminate).
  assert (Hauth : isAuthenticated "secret" req_sixth = true) by (vm_compute; reflexivity).
  specialize (H Hopt Hhealth Hauth).
  rewrite (server_table "/workspace/repo" "secret" "ws" "repo" _ _ _ Hopt Hhealth Hauth) in H.
  assert (Hip : clientIp req_sixth = Some "203.0.113.7") by (vm_compute; reflexivity).
  rewrite Hip in H.
  assert (Hdeny : checkRateLimit (w_gate_now world_quiet) (Some "203.0.113.7")
                    (srv_rateLimitMap srv_full)
                  = (false, srv_rateLimitMap srv_full)).
  { apply (check_full _ _ _ (mkRecord 1705123000000 5)).
    - apply lookup_insert_eq.
    - unfold RATE_LIMIT_WINDOW_MS. simpl. lia.
    - unfold RATE_LIMIT_MAX_REQUESTS. simpl. lia. }
  rewrite Hdeny in H. simpl in H.
  destruct H as [H | (r & Hr & H)].
  - apply (f_equal (fun t => t !! Some "203.0.113.7")) in H.
    rewrite !lookup_insert_eq in H. discriminate.
  - rewrite lookup_insert_eq in Hr. injection Hr as <-.
    apply (f_equal (fun t => t !! Some "203.0.113.7")) in H.
    rewrite !lookup_insert_eq in H. discriminate.
Qed.

Lemma gate_consumes_quota_when_allowed_witness :
  exists reply srv',
    listener "/workspace/repo" "secret" "ws" "repo" world_quiet
      (mkIncoming None
         (mkRequest "GET" "/nowhere" None (Some "Bearer secret") None
            (Some "198.51.100.4") (BodyInvalid "Unexpected end of JSON input")))
      (mkServer ∅ (mkFs ∅ ∅))
    = Replied reply srv' /\
    srv_rateLimitMap srv' = <[ Some "198.51.100.4" := mkRecord 1705123456000 1 ]> ∅ /\
    reply_response reply = Some (mkResponse 404 (ErrorBody "Not found")).
Proof.
  destruct (gate_consumes_quota_when_allowed "/workspace/repo" "secret" "ws" "repo"
              world_quiet
              (mkIncoming None
                 (mkRequest "GET" "/nowhere" None (Some "Bearer secret") None
                    (Some "198.51.100.4") (BodyInvalid "Unexpected end of JSON input")))
              (mkServer ∅ (mkFs ∅ ∅)))
    as (reply & srv' & Hrun & Htable & Hallow & _).
  - reflexivity.
  - discriminate.
  - intros [_ ?]. discriminate.
  - vm_compute. reflexivity.
  - exists reply, srv'. split; [exact Hrun |]. split; [exact Htable |].
    apply Hallow; [reflexivity |]. intros [? _]. discriminate.
Defined.

Lemma rate_limit_check_witness :
  checkRateLimit 1000 (Some "10.0.0.1") (<[ Some "10.0.0.1" := mkRecord 0 5 ]> ∅)
  = (false, <[ Some "10.0.0.1" := mkRecord 0 5 ]> ∅).
Proof.
  refine (proj1 (proj2 (rate_limit_check "" "" "" "" 1000 (Some "10.0.0.1")
                          (<[ Some "10.0.0.1" := mkRecord 0 5 ]> ∅)))
            (mkRecord 0 5) _ _ _).
  - apply lookup_insert_eq.
  - unfold RATE_LIMIT_WINDOW_MS. simpl. lia.
  - unfold RATE_LIMIT_MAX_REQUESTS. simpl. lia.
Defined.

(** ** Strings and characters *)

Lemma chars_str l : Js.chars (Js.str l) = l.
Proof. apply list_ascii_of_string_of_list_ascii. Qed.

Lemma str_chars s : Js.str (Js.chars s) = s.
Proof. apply string_of_list_ascii_of_string. Qed.

Lemma chars_app a b : Js.chars (a +:+ b) = Js.chars a ++ Js.chars b.
Proof.
  induction a as [|c a IH]; [reflexivity |].
  change (Js.chars (String c a +:+ b)) with (c :: Js.chars (a +:+ b)).
  rewrite IH. reflexivity.
Qed.

Lemma chars_inj a b : Js.chars a = Js.chars b -> a = b.
Proof. intros H. rewrite <- (str_chars a), <- (str_chars b), H. reflexivity. Qed.

Lemma length_chars s : String.length s = length (Js.chars s).
Proof. induction s as [|c s IH]; [reflexivity |]. simpl. now rewrite IH. Qed.

Lemma chars_nil s : Js.chars s = [] -> s = "".
Proof. destruct s; [reflexivity | discriminate]. Qed.

Lemma Forall_drop_while (P : ascii -> Prop) p l :
  Forall P l -> Forall P (Js.drop_while p l).
Proof.
  induction 1 as [|c l Hc Hl IH]; simpl; [constructor |].
  destruct (p c); [exact IH | now constructor].
Qed.

Lemma Forall_strip (P : ascii -> Prop) p l :
  Forall P l -> Forall P (Js.strip p l).
Proof.
  intros H. unfold Js.strip.
  apply Forall_rev, Forall_drop_while, Forall_rev, Forall_drop_while, H.
Qed.

Lemma length_substring0 n s : (String.length (Js.substring0 n s) <= n)%nat.
Proof.
  unfold Js.substring0. rewrite length_chars, chars_str, length_take.
  apply Nat.le_min_l.
Qed.

Lemma Forall_substring0 (P : ascii -> Prop) n s :
  Forall P (Js.chars s) -> Forall P (Js.chars (Js.substring0 n s)).
Proof.
  intros H. unfold Js.substring0. rewrite chars_str. now apply Forall_take.
Qed.

(** *** Character classes, by enumeration of the 256 code units *)

Ltac by_cases_on_char c :=
  destruct c as [[] [] [] [] [] [] [] []]; vm_compute; intros; congruence.

Lemma to_lower_not_upper c : Char.is_upper (Char.to_lower c) = false.
Proof. by_cases_on_char c. Qed.

Lemma kept_is_slug c :
  Char.is_upper c = false ->
  (Char.is_word c || Char.is_space c || Char.is_hyphen c) = true ->
  is_separator c = false ->
  Char.is_slug c = true.
Proof. revert c. intros c. by_cases_on_char c. Qed.

Lemma digit_not_hyphen c : Char.is_digit c = true -> c <> "-"%char.
Proof. by_cases_on_char c. Qed.

(** *** The slug alphabet *)

Lemma collapse_slug b l :
  Forall (fun c => Char.is_upper c = false /\
                   (Char.is_word c || Char.is_space c || Char.is_hyphen c) = true) l ->
  Forall (fun c => Char.is_slug c = true) (collapse_separators b l).
Proof.
  intros H. revert b. induction H as [|c l [Hup Hkept] Hl IH]; intros b; simpl.
  - constructor.
  - destruct (is_separator c) eqn:Hsep.
    + destruct b; [apply IH | constructor; [reflexivity | apply IH]].
    + constructor; [now apply kept_is_slug | apply IH].
Qed.

Lemma slugify_slug_chars text : slug_chars (slugify text).
Proof.
  unfold slug_chars, slugify. rewrite chars_str.
  apply Forall_strip, collapse_slug.
  unfold remove_non_word.
  apply List.Forall_forall. intros c Hc.
  apply List.filter_In in Hc as [Hc Hkept]. split; [| exact Hkept].
  unfold Js.trim, Js.toLowerCase in Hc. rewrite !chars_str in Hc.
  assert (Hall : Forall (fun c => Char.is_upper c = false)
                   (Js.strip Char.is_space (map Char.to_lower (Js.chars text)))).
  { apply Forall_strip, List.Forall_forall. intros x Hx.
    apply List.in_map_iff in Hx as (y & <- & _). apply to_lower_not_upper. }
  rewrite List.Forall_forall in Hall. now apply Hall.
Qed.

Lemma basic_slugify_slug_chars text : slug_chars (Basic.slugify text).
Proof. apply Forall_substring0, slugify_slug_chars. Qed.

Lemma namer_fallback_slug_chars request : slug_chars (namer_fallback request).
Proof. apply Forall_substring0, slugify_slug_chars. Qed.

(** *** Decimal rendering *)

Lemma pretty_N_char_digit x : Char.is_digit (pretty_N_char x) = true.
Proof. unfold pretty_N_char. repeat case_match; reflexivity. Qed.

Lemma pretty_N_go_digits x s :
  Forall (fun c => Char.is_digit c = true) (Js.chars s) ->
  Forall (fun c => Char.is_digit c = true) (Js.chars (pretty_N_go x s)).
Proof.
  revert s. induction (N.lt_wf_0 x) as [x _ IH]. intros s Hs.
  destruct (decide (x = 0)%N) as [-> | Hx].
  - now rewrite pretty_N_go_0.
  - rewrite pretty_N_go_step by lia.
    apply IH.
    + apply N.div_lt; lia.
    + constructor; [apply pretty_N_char_digit | exact Hs].
Qed.

Lemma pretty_N_go_length x s :
  (String.length s <= String.length (pretty_N_go x s))%nat.
Proof.
  revert s. induction (N.lt_wf_0 x) as [x _ IH]. intros s.
  destruct (decide (x = 0)%N) as [-> | Hx].
  - now rewrite pretty_N_go_0.
  - rewrite pretty_N_go_step by lia.
    etransitivity; [| apply IH; apply N.div_lt; lia]. simpl. lia.
Qed.

Lemma pretty_N_digits (n : N) :
  Forall (fun c => Char.is_digit c = true) (Js.chars (pretty n)) /\ pretty n <> "".
Proof.
  unfold pretty, pretty_N. destruct (decide (n = 0)%N) as [-> | Hn].
  - split; [repeat constructor | discriminate].
  - split; [apply pretty_N_go_digits; constructor |].
    intros E. pose proof (pretty_N_go_length n "") as Hlen.
    rewrite pretty_N_go_step in * by lia.
    pose proof (pretty_N_go_length (n `div` 10)
                  (String (pretty_N_char (n `mod` 10)) "")) as Hlen'.
    rewrite E in Hlen'. simpl in Hlen'. lia.
Qed.

Lemma pretty_Z_digits (z : Z) :
  0 <= z ->
  Forall (fun c => Char.is_digit c = true) (Js.chars (Js.of_int z)) /\
  Js.of_int z <> "".
Proof.
  intros Hz. unfold Js.of_int, pretty, pretty_Z.
  destruct z as [|p|p]; [| | lia].
  - split; [repeat constructor | discriminate].
  - apply (pretty_N_digits (N.pos p)).
Qed.

Lemma all_digits_true l :
  Forall (fun c => Char.is_digit c = true) l -> l <> [] -> all_digits l = true.
Proof.
  intros H Hne. destruct l as [|c l]; [congruence |].
  unfold all_digits. apply forallb_forall. now apply List.Forall_forall.
Qed.

Lemma of_int_all_digits z : 0 <= z -> all_digits (Js.chars (Js.of_int z)) = true.
Proof.
  intros Hz. destruct (pretty_Z_digits z Hz) as [Hd Hne].
  apply all_digits_true; [exact Hd |].
  intros E. apply Hne. now apply chars_nil.
Qed.

(** *** The pattern matcher *)

Lemma strip_prefix_app p l : strip_prefix p (p ++ l) = Some l.
Proof.
  induction p as [|a p IH]; [reflexivity |]. simpl.
  destruct (decide (a = a)); [exact IH | congruence].
Qed.

Lemma match_slug_ok n mid digits :
  Forall (fun c => Char.is_slug c = true) mid ->
  (length mid <= n)%nat ->
  all_digits digits = true ->
  match_slug n (mid ++ "-"%char :: digits) = true.
Proof.
  intros Hmid. revert n. induction Hmid as [|c mid Hc Hmid IH]; intros n Hlen Hd.
  - destruct n; simpl; rewrite Hd; reflexivity.
  - destruct n as [|n]; [simpl in Hlen; lia |].
    change (match_slug (S n) ((c :: mid) ++ "-"%char :: digits))
      with (match_tail (c :: mid ++ "-"%char :: digits)
            || (Char.is_slug c && match_slug n (mid ++ "-"%char :: digits))).
    rewrite Hc, IH; [apply orb_true_r | simpl in Hlen; lia | exact Hd].
Qed.

Lemma branchName_chars slug now :
  Js.chars (branchName slug now)
  = Js.chars "claude/" ++ Js.chars slug ++ "-"%char :: Js.chars (Js.of_int now).
Proof. unfold branchName. rewrite !chars_app. reflexivity. Qed.

Lemma branchName_matches slug now :
  slug_chars slug -> (String.length slug <= 50)%nat -> 0 <= now ->
  matches_branch_pattern (branchName slug now) = true.
Proof.
  intros Hs Hlen Hnow. unfold matches_branch_pattern.
  rewrite branchName_chars, strip_prefix_app.
  apply match_slug_ok; [exact Hs | now rewrite <- length_chars |].
  now apply of_int_all_digits.
Qed.

(** *** Names built at distinct timestamps *)

Lemma hyphen_digits_suffix (a b d1 d2 : list ascii) :
  Forall (fun c => Char.is_digit c = true) d1 ->
  Forall (fun c => Char.is_digit c = true) d2 ->
  a ++ "-"%char :: d1 = b ++ "-"%char :: d2 -> d1 = d2.
Proof.
  intros H1 H2. revert b.
  assert (Hno : forall d l, Forall (fun c => Char.is_digit c = true) d ->
                            d <> l ++ "-"%char :: d2 /\ d <> l ++ "-"%char :: d1).
  { intros d l Hd. rewrite List.Forall_forall in Hd.
    split; intros E; apply (digit_not_hyphen "-"%char); try reflexivity;
      apply Hd; rewrite E; apply in_elt. }
  induction a as [|x a IH]; intros [|y b] E; simpl in E.
  - congruence.
  - injection E as _ E. now apply (Hno d1 b) in E.
  - injection E as _ E. symmetry in E. now apply (Hno d2 a) in E.
  - injection E as _ E. now apply (IH b).
Qed.

Lemma branchName_timestamp_inj slug1 slug2 now1 now2 :
  0 <= now1 -> 0 <= now2 ->
  branchName slug1 now1 = branchName slug2 now2 -> now1 = now2.
Proof.
  intros H1 H2 E. unfold branchName in E.
  apply (inj (String.app "claude/")) in E.
  apply (f_equal Js.chars) in E. rewrite !chars_app in E.
  apply hyphen_digits_suffix in E;
    [| apply (pretty_Z_digits _ H1) | apply (pretty_Z_digits _ H2)].
  apply chars_inj in E. now apply (inj pretty) in E.
Qed.

(** ** The branch namer *)

Lemma namer_step_settled request st ev v :
  namer_promise st = Some v -> namer_promise (namer_step request st ev) = Some v.
Proof.
  intros H. destruct ev as [d|d|code|msg|msg]; simpl; try exact H.
  - destruct (decide _); simpl; now rewrite H.
  - now rewrite H.
  - now rewrite H.
Qed.

Lemma namer_run_settled request events st v :
  namer_promise st = Some v ->
  namer_promise (fold_left (namer_step request) events st) = Some v.
Proof.
  revert st. induction events as [|ev events IH]; intros st H; [exact H |].
  simpl. apply IH. now apply namer_step_settled.
Qed.

Lemma namer_run_data request pre out :
  Forall is_data pre ->
  fold_left (namer_step request) pre (mkNamer out None)
  = mkNamer (out +:+ stdout_of pre) None.
Proof.
  intros H. revert out. induction H as [|ev pre Hev Hpre IH]; intros out; simpl.
  - f_equal. rewrite <- (str_chars (out +:+ "")), chars_app, app_nil_r.
    symmetry. apply str_chars.
  - destruct ev as [d|d|code|msg|msg]; simpl in Hev; try contradiction; simpl.
    + rewrite IH. f_equal.
      apply chars_inj. rewrite !chars_app. now rewrite app_assoc.
    + apply IH.
Qed.

(** The value the promise takes when the first settling event [ev] comes
    after the data events [pre]. *)
Lemma namer_run_first request pre ev post :
  Forall is_data pre -> ~ is_data ev ->
  generateBranchName request (pre ++ ev :: post)
  = namer_promise (namer_step request (mkNamer (stdout_of pre) None) ev).
Proof.
  intros Hpre Hev. unfold generateBranchName.
  rewrite fold_left_app, namer_run_data by exact Hpre. simpl fold_left.
  change ("" +:+ stdout_of pre) with (stdout_of pre).
  destruct ev as [d|d|code|msg|msg]; simpl in Hev; try (exfalso; now apply Hev).
  - destruct (namer_promise (namer_step request (mkNamer (stdout_of pre) None) (Close code)))
      as [v|] eqn:E.
    + now apply namer_run_settled.
    + simpl in E. destruct (decide _); discriminate.
  - now apply namer_run_settled.
  - now apply namer_run_settled.
Qed.

Lemma namer_fallback_length request : (String.length (namer_fallback request) <= 30)%nat.
Proof. apply length_substring0. Qed.

Lemma or_else_cases a b : or_else a b = a \/ (a = "" /\ or_else a b = b).
Proof. unfold or_else. destruct (decide (a = "")); auto. Qed.

Lemma namer_step_ok request st ev : namer_ok st -> namer_ok (namer_step request st ev).
Proof.
  intros Hok slug Hv.
  destruct (namer_promise st) as [v0|] eqn:E.
  - rewrite (namer_step_settled request st ev v0 E) in Hv. injection Hv as ->.
    now apply Hok.
  - assert (Hfb : slug_chars (namer_fallback request) /\
                  (String.length (namer_fallback request) <= 40)%nat).
    { split; [apply namer_fallback_slug_chars |].
      pose proof (namer_fallback_length request). lia. }
    destruct ev as [d|d|code|msg|msg]; simpl in Hv; try congruence.
    + destruct (decide _); simpl in Hv; rewrite E in Hv; simpl in Hv;
        injection Hv as <-; [| exact Hfb].
      destruct (or_else_cases (Js.substring0 40 (slugify (Js.trim (namer_stdout st))))
                  (namer_fallback request)) as [-> | [_ ->]]; [| exact Hfb].
      split.
      * apply Forall_substring0, slugify_slug_chars.
      * apply length_substring0.
    + rewrite E in Hv. simpl in Hv. injection Hv as <-. exact Hfb.
    + rewrite E in Hv. simpl in Hv. discriminate.
Qed.

Lemma namer_run_ok request events st :
  namer_ok st -> namer_ok (fold_left (namer_step request) events st).
Proof.
  revert st. induction events as [|ev events IH]; intros st H; [exact H |].
  simpl. apply IH. now apply namer_step_ok.
Qed.

Lemma generateBranchName_ok request events slug :
  generateBranchName request events = Some (Resolved slug) ->
  slug_chars slug /\ (String.length slug <= 40)%nat.
Proof.
  apply (namer_run_ok request events (mkNamer "" None)).
  intros v0 H. discriminate.
Qed.

(** X24.  When the first event that settles the assisted namer is a close with
    a non-zero (or no) exit code, a process error, or a close with exit
    code zero after output whose slug is empty, it resolves to the
    deterministic slug of the same request cut to 30 characters. *)
Theorem assisted_namer_falls_back (request : string) (events : list ProcEvent) :
  (forall pre code post,
     events = pre ++ Close code :: post -> Forall is_data pre -> code <> Some 0 ->
     generateBranchName request events = Some (Resolved (namer_fallback request))) /\
  (forall pre message post,
     events = pre ++ ProcError message :: post -> Forall is_data pre ->
     generateBranchName request events = Some (Resolved (namer_fallback request))) /\
  (forall pre post,
     events = pre ++ Close (Some 0) :: post -> Forall is_data pre ->
     slugify (Js.trim (stdout_of pre)) = "" ->
     generateBranchName request events = Some (Resolved (namer_fallback request))) /\
  namer_fallback request = Js.substring0 30 (slugify request).
Proof.
  split; [| split; [| split]]; [| | | reflexivity].
  - intros pre code post -> Hpre Hcode.
    rewrite namer_run_first by (exact Hpre || (simpl; tauto)).
    simpl. destruct (decide _); [contradiction | reflexivity].
  - intros pre message post -> Hpre.
    rewrite namer_run_first by (exact Hpre || (simpl; tauto)). reflexivity.
  - intros pre post -> Hpre Hout.
    rewrite namer_run_first by (exact Hpre || (simpl; tauto)).
    simpl. rewrite Hout. reflexivity.
Qed.

Lemma assisted_namer_falls_back_witness :
  generateBranchName "Fix the login bug"
    [StderrData "rate limited"; Close (Some 1); StdoutData "late"]
  = Some (Resolved "fix-the-login-bug").
Proof.
  pose proof (assisted_namer_falls_back "Fix the login bug"
                [StderrData "rate limited"; Close (Some 1); StdoutData "late"])
    as (H & _).
  rewrite (H [StderrData "rate limited"] (Some 1) [StdoutData "late"]).
  - vm_compute. reflexivity.
  - reflexivity.
  - repeat constructor.
  - discriminate.
Defined.

(** ** The agent invoker *)

Lemma app_empty_r s : s +:+ "" = s.
Proof. apply chars_inj. rewrite chars_app. apply app_nil_r. Qed.

Lemma app_assoc_str a b c : (a +:+ b) +:+ c = a +:+ b +:+ c.
Proof. apply chars_inj. rewrite !chars_app. now rewrite app_assoc. Qed.

Lemma agent_step_settled st ev v :
  agent_promise st = Some v -> agent_promise (agent_step st ev) = Some v.
Proof.
  intros H. destruct ev as [d|d|code|msg|msg]; simpl; try exact H.
  - destruct (decide _); simpl; now rewrite H.
  - now rewrite H.
  - now rewrite H.
Qed.

Lemma agent_fold_settled events st v :
  agent_promise st = Some v ->
  agent_promise (fold_left agent_step events st) = Some v.
Proof.
  revert st. induction events as [|ev events IH]; intros st H; [exact H |].
  simpl. apply IH. now apply agent_step_settled.
Qed.

Lemma agent_fold_data pre out err :
  Forall is_data pre ->
  fold_left agent_step pre (mkAgent out err None)
  = mkAgent (out +:+ stdout_of pre) (err +:+ stderr_of pre) None.
Proof.
  intros H. revert out err.
  induction H as [|ev pre Hev Hpre IH]; intros out err; simpl.
  - now rewrite !app_empty_r.
  - destruct ev as [d|d|code|msg|msg]; simpl in Hev; try contradiction; simpl;
      rewrite IH, app_assoc_str; reflexivity.
Qed.

Lemma agent_run_first pre ev post :
  Forall is_data pre -> ~ is_data ev ->
  agent_promise (agent_run (pre ++ ev :: post))
  = agent_promise (agent_step (mkAgent (stdout_of pre) (stderr_of pre) None) ev).
Proof.
  intros Hpre Hev. unfold agent_run.
  rewrite fold_left_app, agent_fold_data by exact Hpre. simpl fold_left.
  change ("" +:+ stdout_of pre) with (stdout_of pre).
  change ("" +:+ stderr_of pre) with (stderr_of pre).
  destruct (agent_promise (agent_step (mkAgent (stdout_of pre) (stderr_of pre) None) ev))
    as [v|] eqn:E.
  - now apply agent_fold_settled.
  - destruct ev as [d|d|code|msg|msg]; simpl in Hev; try (exfalso; now apply Hev);
      simpl in E; try destruct (decide _); discriminate.
Qed.

Lemma agent_exit_zero pre post :
  Forall is_data pre ->
  agent_promise (agent_run (pre ++ Close (Some 0) :: post))
  = Some (Resolved (stdout_of pre)).
Proof.
  intros Hpre. rewrite agent_run_first by (exact Hpre || (simpl; tauto)).
  reflexivity.
Qed.

Lemma agent_exit_nonzero pre code post :
  Forall is_data pre -> code <> Some 0 ->
  agent_promise (agent_run (pre ++ Close code :: post))
  = Some (Rejected ("Claude Code exited with code " +:+ exit_code_text code
                    +:+ ": " +:+ stderr_of pre)).
Proof.
  intros Hpre Hcode. rewrite agent_run_first by (exact Hpre || (simpl; tauto)).
  simpl. destruct (decide _); [contradiction | reflexivity].
Qed.

Lemma agent_spawn_error pre message post :
  Forall is_data pre ->
  agent_promise (agent_run (pre ++ ProcError message :: post))
  = Some (Rejected message).
Proof.
  intros Hpre. rewrite agent_run_first by (exact Hpre || (simpl; tauto)).
  reflexivity.
Qed.

(** ** The attachment manager and the pipeline *)

Lemma quiet_app t1 t2 : quiet (t1 ++ t2) <-> quiet t1 /\ quiet t2.
Proof. apply Forall_app. Qed.

Lemma quiet_nil : quiet [].
Proof. constructor. Qed.

Lemma quiet_not_run t : quiet t -> ~ agent_was_run t.
Proof.
  intros Hq (prompt & paths & Hin).
  unfold quiet in Hq. rewrite List.Forall_forall in Hq.
  destruct (Hq _ Hin) as [Hspawn _]. discriminate.
Qed.

Section Pipeline.

Variables REPO_PATH BB_WORKSPACE BB_REPO : string.

Local Abbreviation handle := (handleChangeRequest REPO_PATH BB_WORKSPACE BB_REPO).
Local Abbreviation run_pipeline := (pipeline REPO_PATH BB_WORKSPACE BB_REPO).
Local Abbreviation tmp := (tempDir REPO_PATH).
Local Abbreviation sync := (synchronize_and_run BB_WORKSPACE BB_REPO).
Local Abbreviation rest_of_try := (after_prepare BB_WORKSPACE BB_REPO).

(** The writes of the [forEach] loop: one per image, at the joined path. *)
Lemma save_each_spec (P : string -> Prop) images index savedPaths s :
  (forall img i, In img images -> P (Path.join tmp (image_filename img i))) ->
  exists t,
    st_trace (save_each REPO_PATH images index savedPaths s).2 = st_trace s ++ t /\
    Forall (fun e => exists p d, e = EffWrite p d /\ P p) t /\
    st_response (save_each REPO_PATH images index savedPaths s).2 = st_response s /\
    st_imagePaths (save_each REPO_PATH images index savedPaths s).2 = st_imagePaths s.
Proof.
  revert index savedPaths s.
  induction images as [|img rest IH]; intros index savedPaths s HP.
  - exists []. simpl. rewrite app_nil_r. repeat split; constructor.
  - simpl. unfold bind at 1.
    destruct (img_data img) as [data|]; simpl.
    2:{ exists []. rewrite app_nil_r. repeat split; constructor. }
    unfold bind at 1. unfold writeFileSync, bind, get_fs, put_fs, emit, throw.
    simpl.
    destruct (fs_writable (st_fs s) _) eqn:Hw; simpl.
    2:{ exists []. rewrite app_nil_r. repeat split; constructor. }
    match goal with
    | |- context [save_each REPO_PATH rest ?i ?sp ?s1] =>
        destruct (IH i sp s1) as (t & Ht & Hall & Hresp & Hpaths)
    end.
    { intros img' i' Hin. apply HP. now right. }
    simpl in Ht, Hresp, Hpaths.
    eexists (_ :: t). rewrite Ht, Hresp, Hpaths.
    split; [now rewrite <- app_assoc |].
    split; [| split; reflexivity].
    constructor; [| exact Hall].
    eexists _, _. split; [reflexivity |]. apply HP. now left.
Qed.

Lemma writes_quiet (P : string -> Prop) t :
  Forall (fun e => exists p d, e = EffWrite p d /\ P p) t -> quiet t.
Proof.
  intros H. unfold quiet. eapply Forall_impl; [exact H |].
  intros e (p & d & -> & _). split; reflexivity.
Qed.

Lemma saveImages_spec images s :
  exists t,
    st_trace (saveImages REPO_PATH images s).2 = st_trace s ++ t /\
    quiet t /\
    st_response (saveImages REPO_PATH images s).2 = st_response s /\
    st_imagePaths (saveImages REPO_PATH images s).2 = st_imagePaths s.
Proof.
  unfold saveImages, bind, get_fs. simpl.
  destruct (fs_exists (st_fs s) tmp); simpl.
  - destruct (save_each_spec (fun _ => True) images 0 [] s) as (t & Ht & Hall & Hr & Hp);
      [auto |].
    exists t. repeat split; try assumption. now apply (writes_quiet (fun _ => True)).
  - unfold put_fs, emit, bind. simpl.
    match goal with
    | |- context [save_each REPO_PATH images 0 [] ?s1] =>
        destruct (save_each_spec (fun _ => True) images 0 [] s1)
          as (t & Ht & Hall & Hr & Hp); [auto |]
    end.
    simpl in Ht, Hr, Hp. exists (EffMkdir tmp :: t).
    rewrite Ht, Hr, Hp. split; [now rewrite <- app_assoc |].
    split; [| split; reflexivity].
    constructor; [split; reflexivity | now apply (writes_quiet (fun _ => True))].
Qed.

Lemma bind_emit {B} e (k : unit -> M B) s :
  bind (emit e) k s = k tt (logged s [e]).
Proof. reflexivity. Qed.

Lemma bind_exec_ok {B} w command out (k : string -> M B) s :
  w_exec w command = ExecOk out ->
  bind (execInRepo w command) k s = k (Js.trim out) (logged s [EffExec command]).
Proof. intros H. unfold bind, execInRepo, emit. simpl. rewrite H. reflexivity. Qed.

Lemma bind_exec_fail {B} w command message (k : string -> M B) s :
  w_exec w command = ExecFail message ->
  bind (execInRepo w command) k s = (Throw message, logged s [EffExec command]).
Proof. intros H. unfold bind, execInRepo, emit. simpl. rewrite H. reflexivity. Qed.

Lemma bind_await_resolved {A B} p (a : A) (k : A -> M B) s :
  p = Some (Resolved a) -> bind (await p) k s = k a s.
Proof. intros ->. reflexivity. Qed.

Lemma bind_await_rejected {A B} p message (k : A -> M B) s :
  p = Some (Rejected message) -> bind (await p) k s = (Throw message, s).
Proof. intros ->. reflexivity. Qed.

Lemma bind_await_pending {A B} p (k : A -> M B) s :
  p = None -> bind (await p) k s = (Pending, s).
Proof. intros ->. reflexivity. Qed.

Lemma logged_logged s t1 t2 : logged (logged s t1) t2 = logged s (t1 ++ t2).
Proof. unfold logged. simpl. now rewrite <- app_assoc. Qed.

Ltac quiet_steps :=
  repeat (apply quiet_app; split); try assumption;
  repeat (constructor; [split; reflexivity |]); try apply quiet_nil.

Ltac stops_quietly :=
  left; rewrite ?logged_logged; eexists; split; [reflexivity | quiet_steps].

Lemma synchronize_prefix w request s :
  (exists t, st_trace (sync w request s).2 = st_trace s ++ t /\ quiet t) \/
  (exists t,
     sync w request s = rest_of_try w request (logged s t) /\ quiet t).
Proof.
  unfold synchronize_and_run.
  destruct (w_exec w "git fetch origin") as [o1|e1] eqn:E1;
    [rewrite (bind_exec_ok _ _ _ _ _ E1)
    | rewrite (bind_exec_fail _ _ _ _ _ E1); stops_quietly].
  destruct (w_exec w "git checkout master") as [o2|e2] eqn:E2;
    [rewrite (bind_exec_ok _ _ _ _ _ E2)
    | rewrite (bind_exec_fail _ _ _ _ _ E2); stops_quietly].
  destruct (w_exec w "git reset --hard origin/master") as [o3|e3] eqn:E3;
    [rewrite (bind_exec_ok _ _ _ _ _ E3)
    | rewrite (bind_exec_fail _ _ _ _ _ E3); stops_quietly].
  rewrite bind_emit.
  destruct (generateBranchName request (w_namer w)) as [[slug|e4]|];
    [rewrite (bind_await_resolved _ slug _ _ eq_refl)
    | rewrite (bind_await_rejected _ e4 _ _ eq_refl); stops_quietly
    | rewrite (bind_await_pending _ _ _ eq_refl); stops_quietly].
  destruct (w_exec w ("git checkout -b " +:+ dq +:+ branchName slug (w_now w) +:+ dq))
    as [o5|e5] eqn:E5;
    [rewrite (bind_exec_ok _ _ _ _ _ E5)
    | rewrite (bind_exec_fail _ _ _ _ _ E5); stops_quietly].
  right. rewrite !logged_logged. eexists. split; [reflexivity | quiet_steps].
Qed.

Lemma bind_assoc {A B C} (m : M A) (f : A -> M B) (k : B -> M C) s :
  bind (bind m f) k s = bind m (fun a => bind (f a) k) s.
Proof. unfold bind. destruct (m s) as [[a| | |] s']; reflexivity. Qed.

Lemma bind_val {A B} (m : M A) (k : A -> M B) s a s' :
  m s = (Val a, s') -> bind m k s = k a s'.
Proof. intros H. unfold bind. now rewrite H. Qed.

Lemma bind_stop {A B} (m : M A) (k : A -> M B) s o s' :
  m s = (o, s') -> (forall a, o <> Val a) ->
  (bind m k s).2 = s'.
Proof.
  intros H Ho. unfold bind. rewrite H.
  destruct o as [a| | |]; [now destruct (Ho a) | reflexivity..].
Qed.

Lemma pipeline_prefix w parsed s :
  (exists t, st_trace (run_pipeline w parsed s).2 = st_trace s ++ t /\ quiet t) \/
  (exists request s1 t,
     run_pipeline w parsed s = rest_of_try w request s1 /\
     st_trace s1 = st_trace s ++ t /\ quiet t).
Proof.
  assert (Hsync : forall request s1 t1,
            st_trace s1 = st_trace s ++ t1 -> quiet t1 ->
            (exists t, st_trace (sync w request s1).2 = st_trace s ++ t /\ quiet t) \/
            (exists s2 t,
               sync w request s1 = rest_of_try w request s2 /\
               st_trace s2 = st_trace s ++ t /\ quiet t)).
  { intros request s1 t1 Ht1 Hq1.
    destruct (synchronize_prefix w request s1) as [(t & Ht & Hq) | (t & Ht & Hq)].
    - left. exists (t1 ++ t). rewrite Ht, Ht1, <- app_assoc.
      split; [reflexivity | now apply quiet_app].
    - right. exists (logged s1 t), (t1 ++ t). split; [exact Ht |].
      simpl. rewrite Ht1, <- app_assoc. split; [reflexivity | now apply quiet_app]. }
  assert (Hstop : forall r, st_trace r.2 = st_trace s ->
            (exists t, st_trace r.2 = st_trace s ++ t /\ quiet t) \/
            (exists request s1 t,
               r = rest_of_try w request s1 /\
               st_trace s1 = st_trace s ++ t /\ quiet t)).
  { intros r Hr. left. exists []. rewrite app_nil_r. split; [exact Hr | apply quiet_nil]. }
  assert (Hgo : forall r request s1 t1,
            r = sync w request s1 -> st_trace s1 = st_trace s ++ t1 -> quiet t1 ->
            (exists t, st_trace r.2 = st_trace s ++ t /\ quiet t) \/
            (exists request s1 t,
               r = rest_of_try w request s1 /\
               st_trace s1 = st_trace s ++ t /\ quiet t)).
  { intros r request s1 t1 -> Ht1 Hq1.
    destruct (Hsync request s1 t1 Ht1 Hq1) as [H | (s2 & t & H)]; [now left |].
    right. now exists request, s2, t. }
  remember (run_pipeline w parsed s) as r eqn:Hr.
  unfold pipeline, isRepoReady in Hr. rewrite bind_assoc in Hr.
  unfold bind at 1 in Hr. unfold get_fs at 1 in Hr. cbv beta iota in Hr.
  unfold bind at 1 in Hr. unfold ret at 1 in Hr. cbv beta iota in Hr.
  destruct (fs_exists (st_fs s) _); cbv beta iota delta [negb] in Hr.
  2:{ apply Hstop. now subst r. }
  destruct parsed as [message | [[|c request]|] images].
  - apply Hstop. now subst r.
  - apply Hstop. now subst r.
  - destruct images as [[|img imgs]|].
    + apply (Hgo r (String c request) s []);
        [exact Hr | now rewrite app_nil_r | apply quiet_nil].
    + cbv iota in Hr. rewrite bind_assoc in Hr.
      destruct (saveImages_spec (img :: imgs) s) as (t & Ht & Hq & Hrs & Hp).
      destruct (saveImages REPO_PATH (img :: imgs) s) as [[paths|e| |] s'] eqn:E;
        simpl in Ht, Hrs, Hp.
      * rewrite (bind_val _ _ _ _ _ E) in Hr.
        apply (Hgo r (String c request) (mkSt (st_fs s') (st_trace s') paths (st_response s')) t);
          [exact Hr | exact Ht | exact Hq].
      * left. exists t. subst r. rewrite (bind_stop _ _ _ _ _ E) by discriminate. now split.
      * left. exists t. subst r. rewrite (bind_stop _ _ _ _ _ E) by discriminate. now split.
      * left. exists t. subst r. rewrite (bind_stop _ _ _ _ _ E) by discriminate. now split.
    + apply (Hgo r (String c request) s []);
        [exact Hr | now rewrite app_nil_r | apply quiet_nil].
  - apply Hstop. now subst r.
Qed.

Lemma quiet_unpublished t : quiet t -> unpublished t.
Proof. intros H. eapply Forall_impl; [exact H |]. now intros e [_ He]. Qed.

Lemma unpublished_app t1 t2 : unpublished (t1 ++ t2) <-> unpublished t1 /\ unpublished t2.
Proof. apply Forall_app. Qed.

Lemma unpublished_no_push t : unpublished t -> no_push t.
Proof.
  intros Hq command Hin. unfold unpublished in Hq. rewrite List.Forall_forall in Hq.
  exact (Hq _ Hin).
Qed.

Lemma unpublished_no_pull_request t : unpublished t -> no_pull_request t.
Proof.
  intros Hq url b ttl dsc Hin. unfold unpublished in Hq. rewrite List.Forall_forall in Hq.
  specialize (Hq _ Hin). discriminate.
Qed.

(** The [finally] block completes, keeps the response and logs at most
    the removal of the attachment directory. *)
Lemma finally_spec s :
  exists s2 t,
    finally_block REPO_PATH s = (Val tt, s2) /\
    st_response s2 = st_response s /\
    st_trace s2 = st_trace s ++ t /\ quiet t.
Proof.
  unfold finally_block, bind, get_imagePaths. simpl.
  destruct (st_imagePaths s) as [|p ps].
  - exists s, []. rewrite app_nil_r. repeat split; apply quiet_nil.
  - unfold cleanupImages, bind, get_fs. simpl.
    destruct (fs_exists (st_fs s) tmp); simpl.
    + eexists _, [_]. repeat split. repeat constructor.
    + exists s, []. rewrite app_nil_r. repeat split; apply quiet_nil.
Qed.

Lemma handle_unfold w parsed s :
  handle w parsed s
  = try_catch_finally (run_pipeline w parsed)
      (fun message => respond 500 (ErrorBody message))
      (finally_block REPO_PATH)
      (mkSt (st_fs s) (st_trace s) [] (st_response s)).
Proof. reflexivity. Qed.

(** The handler in terms of the outcome of its [try] block. *)
Lemma handle_result w parsed s o s1 :
  run_pipeline w parsed (mkSt (st_fs s) (st_trace s) [] (st_response s)) = (o, s1) ->
  match o with
  | Pending => handle w parsed s = (Pending, s1)
  | Throw message =>
      exists s2 t, handle w parsed s = (Val tt, s2) /\
        st_response s2 = Some (mkResponse 500 (ErrorBody message)) /\
        st_trace s2 = st_trace s1 ++ t /\ quiet t
  | _ =>
      exists s2 t, handle w parsed s = (o, s2) /\
        st_response s2 = st_response s1 /\
        st_trace s2 = st_trace s1 ++ t /\ quiet t
  end.
Proof.
  intros Hp.
  destruct o as [[]|message| |]; rewrite handle_unfold; unfold try_catch_finally;
    rewrite Hp; cbv beta iota zeta delta [respond].
  - destruct (finally_spec s1) as (s2 & t & Hf & Hr & Ht & Hq).
    exists s2, t. rewrite Hf. auto.
  - destruct (finally_spec (mkSt (st_fs s1) (st_trace s1) (st_imagePaths s1)
                              (Some (mkResponse 500 (ErrorBody message)))))
      as (s2 & t & Hf & Hr & Ht & Hq).
    exists s2, t. rewrite Hf. auto.
  - destruct (finally_spec s1) as (s2 & t & Hf & Hr & Ht & Hq).
    exists s2, t. rewrite Hf. auto.
  - reflexivity.
Qed.

(** The handler never starts the agent nor publishes when its [try]
    block stops before the agent run. *)
Lemma handle_stops_quietly w parsed s t :
  st_trace (run_pipeline w parsed (mkSt (st_fs s) (st_trace s) [] (st_response s))).2
  = st_trace s ++ t ->
  quiet t ->
  exists t', st_trace (handle w parsed s).2 = st_trace s ++ t' /\ quiet t'.
Proof.
  intros Ht Hq.
  destruct (run_pipeline w parsed _) as [o s1] eqn:Hp. simpl in Ht.
  pose proof (handle_result w parsed s o s1 Hp) as H.
  destruct o as [[]|message| |].
  - destruct H as (s2 & t2 & -> & _ & Ht2 & Hq2). exists (t ++ t2). simpl.
    rewrite Ht2, Ht, <- app_assoc. split; [reflexivity | now apply quiet_app].
  - destruct H as (s2 & t2 & -> & _ & Ht2 & Hq2). exists (t ++ t2). simpl.
    rewrite Ht2, Ht, <- app_assoc. split; [reflexivity | now apply quiet_app].
  - destruct H as (s2 & t2 & -> & _ & Ht2 & Hq2). exists (t ++ t2). simpl.
    rewrite Ht2, Ht, <- app_assoc. split; [reflexivity | now apply quiet_app].
  - rewrite H. exists t. now split.
Qed.

Local Abbreviation agent_spawn request s1 :=
  (EffSpawn "claude"
     (agent_args (claudePrompt request (st_imagePaths s1)) (st_imagePaths s1))).

Lemma rest_of_try_agent_ok w request s1 out :
  agent_promise (agent_run (w_agent w)) = Some (Resolved out) ->
  rest_of_try w request s1
  = verify_and_publish BB_WORKSPACE BB_REPO w request (logged s1 [agent_spawn request s1]).
Proof.
  intros H. unfold after_prepare, runClaudeCode.
  unfold bind at 1. unfold get_imagePaths at 1. cbv beta iota.
  rewrite bind_assoc, bind_emit.
  now rewrite (bind_await_resolved _ out _ _ H).
Qed.

Lemma rest_of_try_agent_fails w request s1 message :
  agent_promise (agent_run (w_agent w)) = Some (Rejected message) ->
  rest_of_try w request s1 = (Throw message, logged s1 [agent_spawn request s1]).
Proof.
  intros H. unfold after_prepare, runClaudeCode.
  unfold bind at 1. unfold get_imagePaths at 1. cbv beta iota.
  rewrite bind_assoc, bind_emit.
  now rewrite (bind_await_rejected _ message _ _ H).
Qed.

Lemma verify_unsafe w request s out :
  w_exec w "git rev-parse --abbrev-ref HEAD" = ExecOk out ->
  Js.startsWith "claude/" (Js.trim out) = false ->
  verify_and_publish BB_WORKSPACE BB_REPO w request s
  = (Throw (safety_error (Js.trim out)),
     logged s [EffExec "git rev-parse --abbrev-ref HEAD"]).
Proof.
  intros Hexec Hprefix. unfold verify_and_publish, getCurrentBranch.
  rewrite (bind_exec_ok _ _ _ _ _ Hexec), Hprefix. reflexivity.
Qed.

Lemma verify_no_commits w request s out counted :
  w_exec w "git rev-parse --abbrev-ref HEAD" = ExecOk out ->
  Js.startsWith "claude/" (Js.trim out) = true ->
  w_exec w ("git rev-list --count master.." +:+ Js.trim out) = ExecOk counted ->
  parseInt (Js.trim counted) = Some 0 ->
  verify_and_publish BB_WORKSPACE BB_REPO w request s
  = (Return,
     mkSt (st_fs s)
       (st_trace s ++ [EffExec "git rev-parse --abbrev-ref HEAD";
                        EffExec ("git rev-list --count master.." +:+ Js.trim out)])
       (st_imagePaths s)
       (Some (mkResponse 400 (ErrorBody no_commits_error)))).
Proof.
  intros Hexec Hprefix Hcount Hzero. unfold verify_and_publish, getCurrentBranch.
  rewrite (bind_exec_ok _ _ _ _ _ Hexec), Hprefix. cbv beta iota delta [negb].
  rewrite (bind_exec_ok _ _ _ _ _ Hcount).
  destruct (decide _); [| contradiction].
  unfold bind, respond, return_, logged. simpl. now rewrite <- app_assoc.
Qed.

Local Abbreviation final w parsed fs := (handle w parsed (mkSt fs [] [] None)).2.

(** A run in which the agent was started went through the whole
    preparation, and nothing was published up to then. *)
Lemma handle_reaches_agent w parsed fs :
  agent_was_run (st_trace (final w parsed fs)) ->
  exists request s1,
    run_pipeline w parsed (mkSt fs [] [] None) = rest_of_try w request s1 /\
    quiet (st_trace s1).
Proof.
  intros Hrun.
  destruct (pipeline_prefix w parsed (mkSt fs [] [] None))
    as [(t & Ht & Hq) | (request & s1 & t & Hp & Ht & Hq)].
  - exfalso.
    destruct (handle_stops_quietly w parsed (mkSt fs [] [] None) t Ht Hq)
      as (t' & Ht' & Hq').
    simpl in Ht'. rewrite Ht' in Hrun. now apply (quiet_not_run t').
  - exists request, s1. split; [exact Hp |]. simpl in Ht. now rewrite Ht.
Qed.

Ltac unpublished_steps :=
  repeat (apply unpublished_app; split);
  try (apply quiet_unpublished; assumption);
  repeat (constructor; [reflexivity |]); try constructor.

(** C1.  When the agent was run and exited with status zero and the
    branch read afterwards does not start with claude/, the request is
    answered 500 with the safety-check error, and the run neither pushes
    nor creates a pull request, whatever the commit count would be. *)
Theorem safety_check_blocks_publish w parsed fs out :
  agent_was_run (st_trace (final w parsed fs)) ->
  (exists pre post, w_agent w = pre ++ Close (Some 0) :: post /\ Forall is_data pre) ->
  w_exec w "git rev-parse --abbrev-ref HEAD" = ExecOk out ->
  Js.startsWith "claude/" (Js.trim out) = false ->
  st_response (final w parsed fs)
  = Some (mkResponse 500 (ErrorBody (safety_error (Js.trim out)))) /\
  no_push (st_trace (final w parsed fs)) /\
  no_pull_request (st_trace (final w parsed fs)).
Proof.
  intros Hrun (pre & post & Hagent & Hpre) Hexec Hprefix.
  destruct (handle_reaches_agent w parsed fs Hrun) as (request & s1 & Hp & Hq).
  rewrite (rest_of_try_agent_ok w request s1 (stdout_of pre)) in Hp
    by (rewrite Hagent; now apply agent_exit_zero).
  rewrite (verify_unsafe w request _ out Hexec Hprefix) in Hp.
  destruct (handle_result w parsed (mkSt fs [] [] None) _ _ Hp)
    as (s2 & t2 & -> & Hresp & Ht2 & Hq2).
  simpl. split; [exact Hresp |].
  assert (Hun : unpublished (st_trace s2)).
  { rewrite Ht2. simpl. unpublished_steps. }
  split; [now apply unpublished_no_push | now apply unpublished_no_pull_request].
Qed.

(** C2.  When the agent was run and exited with status zero, the branch
    read afterwards starts with claude/ and git counts zero commits on it
    that are not on the baseline, the request is answered 400 with the
    message that no changes were committed; the handler leaves by
    [return], not through its [catch] block, and nothing is pushed. *)
Theorem no_commits_is_reported w parsed fs out (commits : N) :
  agent_was_run (st_trace (final w parsed fs)) ->
  (exists pre post, w_agent w = pre ++ Close (Some 0) :: post /\ Forall is_data pre) ->
  w_exec w "git rev-parse --abbrev-ref HEAD" = ExecOk out ->
  Js.startsWith "claude/" (Js.trim out) = true ->
  w_exec w ("git rev-list --count master.." +:+ Js.trim out)
  = ExecOk (rev_list_output commits) ->
  commits = 0%N ->
  st_response (final w parsed fs)
  = Some (mkResponse 400 (ErrorBody "No changes were committed by Claude Code")) /\
  (handle w parsed (mkSt fs [] [] None)).1 = Return /\
  no_push (st_trace (final w parsed fs)) /\
  no_pull_request (st_trace (final w parsed fs)).
Proof.
  intros Hrun (pre & post & Hagent & Hpre) Hexec Hprefix Hcount ->.
  destruct (handle_reaches_agent w parsed fs Hrun) as (request & s1 & Hp & Hq).
  rewrite (rest_of_try_agent_ok w request s1 (stdout_of pre)) in Hp
    by (rewrite Hagent; now apply agent_exit_zero).
  rewrite (verify_no_commits w request _ out _ Hexec Hprefix Hcount) in Hp
    by reflexivity.
  destruct (handle_result w parsed (mkSt fs [] [] None) _ _ Hp)
    as (s2 & t2 & -> & Hresp & Ht2 & Hq2).
  simpl. split; [exact Hresp |]. split; [reflexivity |].
  assert (Hun : unpublished (st_trace s2)).
  { rewrite Ht2. simpl. unpublished_steps. }
  split; [now apply unpublished_no_push | now apply unpublished_no_pull_request].
Qed.

(** C3.  When the agent was run and its process closed with a non-zero
    exit code (or none), or failed to spawn, the request is answered 500
    with an error that carries the buffered error stream, and the run
    neither pushes nor calls the forge.  After a non-zero exit the message
    is "Claude Code exited with code <code>: " followed by the buffer;
    after a failure to spawn it is the message of the spawn error, the
    buffer being empty. *)
Theorem agent_failure_blocks_publish w parsed fs :
  agent_was_run (st_trace (final w parsed fs)) ->
  (forall pre code post,
     w_agent w = pre ++ Close code :: post -> Forall is_data pre -> code <> Some 0 ->
     exists message,
       st_response (final w parsed fs) = Some (mkResponse 500 (ErrorBody message)) /\
       message = "Claude Code exited with code " +:+ exit_code_text code +:+ ": "
                 +:+ stderr_of pre /\
       carries message (stderr_of pre) /\
       no_push (st_trace (final w parsed fs)) /\
       no_pull_request (st_trace (final w parsed fs))) /\
  (forall message post,
     w_agent w = ProcError message :: post ->
     st_response (final w parsed fs) = Some (mkResponse 500 (ErrorBody message)) /\
     carries message (stderr_of []) /\
     no_push (st_trace (final w parsed fs)) /\
     no_pull_request (st_trace (final w parsed fs))).
Proof.
  intros Hrun.
  destruct (handle_reaches_agent w parsed fs Hrun) as (request & s1 & Hp & Hq).
  assert (Hfail : forall message,
            agent_promise (agent_run (w_agent w)) = Some (Rejected message) ->
            st_response (final w parsed fs) = Some (mkResponse 500 (ErrorBody message)) /\
            no_push (st_trace (final w parsed fs)) /\
            no_pull_request (st_trace (final w parsed fs))).
  { intros message Hrej.
    rewrite (rest_of_try_agent_fails w request s1 message Hrej) in Hp.
    destruct (handle_result w parsed (mkSt fs [] [] None) _ _ Hp)
      as (s2 & t2 & -> & Hresp & Ht2 & Hq2).
    simpl. split; [exact Hresp |].
    assert (Hun : unpublished (st_trace s2)).
    { rewrite Ht2. simpl. unpublished_steps. }
    split; [now apply unpublished_no_push | now apply unpublished_no_pull_request]. }
  split.
  - intros pre code post Hagent Hpre Hcode.
    destruct (Hfail ("Claude Code exited with code " +:+ exit_code_text code +:+ ": "
                     +:+ stderr_of pre)) as (Hresp & Hpush & Hpr).
    { rewrite Hagent. now apply agent_exit_nonzero. }
    eexists. split; [exact Hresp |]. split; [reflexivity |].
    split; [| now split].
    exists ("Claude Code exited with code " +:+ exit_code_text code +:+ ": ").
    now rewrite !app_assoc_str.
  - intros message post Hagent.
    destruct (Hfail message) as (Hresp & Hpush & Hpr).
    { rewrite Hagent. now apply (agent_spawn_error []). }
    split; [exact Hresp |]. split; [| now split].
    exists message. simpl. now rewrite app_empty_r.
Qed.

(** *** Removal of the attachment directory once the attachments are saved *)

Lemma keeps_bind {A B} (m : M A) (k : A -> M B) :
  keeps_paths m -> (forall a, keeps_paths (k a)) -> keeps_paths (bind m k).
Proof.
  intros Hm Hk s. unfold bind. specialize (Hm s).
  destruct (m s) as [[a| | |] s1]; simpl in *; try exact Hm.
  now rewrite Hk.
Qed.

Lemma keeps_ret {A} (a : A) : keeps_paths (ret a).
Proof. now intros s. Qed.

Lemma keeps_throw {A} message : keeps_paths (@throw A message).
Proof. now intros s. Qed.

Lemma keeps_return {A} : keeps_paths (@return_ A).
Proof. now intros s. Qed.

Lemma keeps_emit e : keeps_paths (emit e).
Proof. now intros s. Qed.

Lemma keeps_respond st b : keeps_paths (respond st b).
Proof. now intros s. Qed.

Lemma keeps_get_imagePaths : keeps_paths get_imagePaths.
Proof. now intros s. Qed.

Lemma keeps_await {A} (p : option (Settled A)) : keeps_paths (await p).
Proof. destruct p as [[a|e]|]; now intros s. Qed.

Lemma keeps_exec w command : keeps_paths (execInRepo w command).
Proof.
  unfold execInRepo. apply keeps_bind; [apply keeps_emit |]. intros _.
  destruct (w_exec w command); [apply keeps_ret | apply keeps_throw].
Qed.

Lemma keeps_createPR w b ttl dsc :
  keeps_paths (createBitbucketPR BB_WORKSPACE BB_REPO w b ttl dsc).
Proof.
  unfold createBitbucketPR. apply keeps_bind; [apply keeps_emit |]. intros _.
  destruct (w_fetch w); [apply keeps_throw | apply keeps_throw | apply keeps_ret].
Qed.

Lemma keeps_verify w request :
  keeps_paths (verify_and_publish BB_WORKSPACE BB_REPO w request).
Proof.
  unfold verify_and_publish, getCurrentBranch.
  apply keeps_bind; [apply keeps_exec |]. intros currentBranch.
  destruct (negb _); [apply keeps_throw |].
  apply keeps_bind; [apply keeps_exec |]. intros commitCount.
  destruct (decide _).
  - apply keeps_bind; [apply keeps_respond | intros _; apply keeps_return].
  - apply keeps_bind; [apply keeps_exec |]. intros _.
    apply keeps_bind; [apply keeps_createPR |]. intros prUrl. apply keeps_respond.
Qed.

Lemma keeps_sync w request : keeps_paths (sync w request).
Proof.
  unfold synchronize_and_run.
  repeat (apply keeps_bind; [apply keeps_exec |]; intros _).
  apply keeps_bind; [apply keeps_emit |]. intros _.
  apply keeps_bind; [apply keeps_await |]. intros slug.
  apply keeps_bind; [apply keeps_exec |]. intros _.
  apply keeps_bind; [apply keeps_get_imagePaths |]. intros imagePaths.
  apply keeps_bind; [| intros _; apply keeps_verify].
  unfold runClaudeCode. apply keeps_bind; [apply keeps_emit |]. intros _.
  apply keeps_await.
Qed.

Lemma save_each_paths images index savedPaths s paths s' :
  save_each REPO_PATH images index savedPaths s = (Val paths, s') ->
  length paths = (length savedPaths + length images)%nat.
Proof.
  revert index savedPaths s. induction images as [|img rest IH];
    intros index savedPaths s H.
  - injection H as <- _. simpl. lia.
  - simpl in H. unfold bind at 1 in H.
    destruct (img_data img) as [data|]; simpl in H; [| discriminate].
    unfold bind at 1 in H. unfold writeFileSync, bind, get_fs, put_fs, emit, throw in H.
    simpl in H. destruct (fs_writable (st_fs s) _); simpl in H; [| discriminate].
    apply IH in H. rewrite H, length_app. simpl. lia.
Qed.

Lemma saveImages_paths img imgs s paths s' :
  saveImages REPO_PATH (img :: imgs) s = (Val paths, s') -> paths <> [].
Proof.
  unfold saveImages. unfold bind at 1. unfold get_fs at 1. cbv beta iota.
  destruct (fs_exists (st_fs s) tmp).
  - unfold bind at 1. unfold ret at 1. cbv beta iota. intros H.
    apply (save_each_paths (img :: imgs)) in H. intros ->. simpl in H. lia.
  - rewrite bind_assoc. unfold bind at 1. unfold put_fs at 1. cbv beta iota.
    rewrite bind_emit. intros H.
    apply (save_each_paths (img :: imgs)) in H. intros ->. simpl in H. lia.
Qed.

Lemma rm_rf_gone fs p : fs_exists (fs_rm_rf fs p) p = false.
Proof.
  unfold fs_exists, fs_rm_rf. simpl. apply orb_false_iff. split.
  - apply bool_decide_eq_false. rewrite elem_of_filter. intros [[H _] _]. congruence.
  - apply bool_decide_eq_false. intros [v Hv].
    apply map_lookup_filter_Some in Hv as [_ [H _]]. simpl in H. congruence.
Qed.

Lemma finally_removes s :
  st_imagePaths s <> [] ->
  fs_exists (st_fs (finally_block REPO_PATH s).2) tmp = false.
Proof.
  intros Hne. unfold finally_block, bind, get_imagePaths. simpl.
  destruct (st_imagePaths s) as [|p ps]; [congruence |].
  unfold cleanupImages, bind, get_fs. simpl.
  destruct (fs_exists (st_fs s) tmp) eqn:E; simpl; [apply rm_rf_gone | exact E].
Qed.

(** Once [saveImages] has returned, every request that completes leaves
    no attachment directory behind, whichever way it ends. *)
Lemma attachments_removed_when_saved w request img imgs fs paths s' :
  fs_exists fs (Path.join REPO_PATH ".clone-complete") = true ->
  request <> "" ->
  saveImages REPO_PATH (img :: imgs) (mkSt fs [] [] None) = (Val paths, s') ->
  (handle w (BodyObject (Some request) (Some (img :: imgs))) (mkSt fs [] [] None)).1
  <> Pending ->
  fs_exists (st_fs (final w (BodyObject (Some request) (Some (img :: imgs))) fs)) tmp
  = false.
Proof.
  intros Hready Hreq Hsave.
  pose proof (saveImages_paths _ _ _ _ _ Hsave) as Hpaths.
  rewrite handle_unfold. unfold try_catch_finally.
  assert (Hp : run_pipeline w (BodyObject (Some request) (Some (img :: imgs)))
                 (mkSt fs [] [] None)
               = sync w request
                   (mkSt (st_fs s') (st_trace s') paths (st_response s'))).
  { unfold pipeline, isRepoReady. rewrite bind_assoc.
    unfold bind at 1. unfold get_fs at 1. cbv beta iota.
    unfold bind at 1. unfold ret at 1. cbv beta iota.
    cbn [st_fs]. rewrite Hready. cbv beta iota delta [negb].
    destruct request as [|c request]; [congruence |].
    rewrite bind_assoc. now rewrite (bind_val _ _ _ _ _ Hsave). }
  cbn [st_fs st_trace st_response]. rewrite Hp.
  pose proof (keeps_sync w request
                (mkSt (st_fs s') (st_trace s') paths (st_response s'))) as Hkeep.
  destruct (sync w request _) as [o s1]. simpl in Hkeep.
  assert (Hs1 : st_imagePaths s1 <> []) by now rewrite Hkeep.
  destruct o as [[]|message| |]; cbv beta iota zeta delta [respond].
  - intros _. pose proof (finally_removes s1 Hs1) as Hf.
    destruct (finally_block REPO_PATH s1) as [[[]| | |] s2]; exact Hf.
  - intros _.
    pose proof (finally_removes
                  (mkSt (st_fs s1) (st_trace s1) (st_imagePaths s1)
                     (Some (mkResponse 500 (ErrorBody message)))) Hs1) as Hf.
    destruct (finally_block REPO_PATH _) as [[[]| | |] s2]; exact Hf.
  - intros _. pose proof (finally_removes s1 Hs1) as Hf.
    destruct (finally_block REPO_PATH s1) as [[[]| | |] s2]; exact Hf.
  - intros H. now destruct H.
Qed.

(** *** The directory that stays when saving fails *)

Lemma save_each_dirs images index savedPaths s :
  fs_dirs (st_fs (save_each REPO_PATH images index savedPaths s).2) = fs_dirs (st_fs s).
Proof.
  revert index savedPaths s. induction images as [|img rest IH];
    intros index savedPaths s; [reflexivity |].
  simpl. unfold bind at 1.
  destruct (img_data img) as [data|]; simpl; [| reflexivity].
  unfold bind at 1. unfold writeFileSync, bind, get_fs, put_fs, emit, throw. simpl.
  destruct (fs_writable (st_fs s) _); simpl; [| reflexivity].
  now rewrite IH.
Qed.

Lemma saveImages_creates_dir images s :
  fs_exists (st_fs s) tmp = false ->
  fs_exists (st_fs (saveImages REPO_PATH images s).2) tmp = true.
Proof.
  intros Habsent. unfold saveImages. unfold bind at 1. unfold get_fs at 1.
  cbv beta iota. rewrite Habsent.
  rewrite bind_assoc. unfold bind at 1. unfold put_fs at 1. cbv beta iota.
  rewrite bind_emit. unfold fs_exists. rewrite save_each_dirs. simpl.
  apply orb_true_iff. left. apply bool_decide_eq_true. set_solver.
Qed.

Lemma bind_throw {A B} (m : M A) (k : A -> M B) s message s' :
  m s = (Throw message, s') -> bind m k s = (Throw message, s').
Proof. intros H. unfold bind. now rewrite H. Qed.

(** When [saveImages] throws, the request is answered 500 and the
    directory it had created is still there afterwards: [imagePaths] was
    never assigned, so the [finally] block does not clean up. *)
Lemma attachments_left_when_saving_fails w request img imgs fs message s' :
  fs_exists fs (Path.join REPO_PATH ".clone-complete") = true ->
  request <> "" ->
  fs_exists fs tmp = false ->
  saveImages REPO_PATH (img :: imgs) (mkSt fs [] [] None) = (Throw message, s') ->
  st_response (final w (BodyObject (Some request) (Some (img :: imgs))) fs)
  = Some (mkResponse 500 (ErrorBody message)) /\
  fs_exists (st_fs (final w (BodyObject (Some request) (Some (img :: imgs))) fs)) tmp
  = true.
Proof.
  intros Hready Hreq Habsent Hsave.
  pose proof (saveImages_creates_dir (img :: imgs) (mkSt fs [] [] None) Habsent)
    as Hdir.
  destruct (saveImages_spec (img :: imgs) (mkSt fs [] [] None)) as (t & _ & _ & _ & Hpaths).
  rewrite Hsave in Hdir, Hpaths. simpl in Hdir, Hpaths.
  rewrite handle_unfold. unfold try_catch_finally.
  assert (Hp : run_pipeline w (BodyObject (Some request) (Some (img :: imgs)))
                 (mkSt fs [] [] None) = (Throw message, s')).
  { unfold pipeline, isRepoReady. rewrite bind_assoc.
    unfold bind at 1. unfold get_fs at 1. cbv beta iota.
    unfold bind at 1. unfold ret at 1. cbv beta iota.
    cbn [st_fs]. rewrite Hready. cbv beta iota delta [negb].
    destruct request as [|c request]; [congruence |].
    rewrite bind_assoc. now rewrite (bind_throw _ _ _ _ _ Hsave). }
  cbn [st_fs st_trace st_response]. rewrite Hp.
  cbv beta iota zeta delta [respond].
  unfold finally_block, bind, get_imagePaths. cbn [st_imagePaths].
  rewrite Hpaths. simpl. now split.
Qed.

End Pipeline.

Ltac pick_in_trace :=
  vm_compute; repeat (try (left; reflexivity); right).

Lemma safety_check_blocks_publish_witness :
  st_response (handleChangeRequest "/workspace/repo" "ws" "repo" world_switched body_noop
                 (mkSt fs_ready [] [] None)).2
  = Some (mkResponse 500 (ErrorBody (safety_error "master"))).
Proof.
  refine (proj1 (safety_check_blocks_publish "/workspace/repo" "ws" "repo"
                   world_switched body_noop fs_ready ("master" +:+ nl) _ _ _ _)).
  - exists (claudePrompt "noop" []), []. pick_in_trace.
  - exists [StdoutData "done"], []. split; [reflexivity | repeat constructor].
  - reflexivity.
  - reflexivity.
Defined.

Lemma no_commits_is_reported_witness :
  st_response (handleChangeRequest "/workspace/repo" "ws" "repo" world_noop body_noop
                 (mkSt fs_ready [] [] None)).2
  = Some (mkResponse 400 (ErrorBody "No changes were committed by Claude Code")).
Proof.
  refine (proj1 (no_commits_is_reported "/workspace/repo" "ws" "repo"
                   world_noop body_noop fs_ready ("claude/noop-1705123456789" +:+ nl)
                   0%N _ _ _ _ _ _)).
  - exists (claudePrompt "noop" []), []. pick_in_trace.
  - exists [StdoutData "nothing to do"], []. split; [reflexivity | repeat constructor].
  - reflexivity.
  - reflexivity.
  - reflexivity.
  - reflexivity.
Defined.

Lemma agent_failure_blocks_publish_witness :
  exists message,
    st_response (handleChangeRequest "/workspace/repo" "ws" "repo" world_agent_crash
                   body_noop (mkSt fs_ready [] [] None)).2
    = Some (mkResponse 500 (ErrorBody message)) /\
    message = "Claude Code exited with code 1: out of credit".
Proof.
  assert (Hrun : agent_was_run
            (st_trace (handleChangeRequest "/workspace/repo" "ws" "repo"
                         world_agent_crash body_noop (mkSt fs_ready [] [] None)).2)).
  { exists (claudePrompt "noop" []), []. pick_in_trace. }
  destruct (proj1 (agent_failure_blocks_publish "/workspace/repo" "ws" "repo"
                     world_agent_crash body_noop fs_ready Hrun)
              [StderrData "out of credit"] (Some 1) [])
    as (message & Hresp & Hmsg & _).
  - reflexivity.
  - repeat constructor.
  - discriminate.
  - exists message. split; [exact Hresp |]. rewrite Hmsg. vm_compute. reflexivity.
Defined.

(** ** Paths *)

Lemma split_nonempty s : Path.split s <> [].
Proof.
  destruct s as [|c s]; simpl; [discriminate |].
  destruct (decide _); [discriminate |]. destruct (Path.split s); discriminate.
Qed.

Lemma split_app_slash a b :
  Path.split (a +:+ "/" +:+ b) = Path.split a ++ Path.split b.
Proof.
  induction a as [|c a IH]; [reflexivity |].
  change (String c a +:+ "/" +:+ b) with (String c (a +:+ "/" +:+ b)).
  simpl. rewrite IH. destruct (decide _); [reflexivity |].
  destruct (Path.split a) as [|h t] eqn:E; [now destruct (split_nonempty a) |].
  reflexivity.
Qed.

Lemma split_no_slash seg : no_slash seg -> Path.split seg = [seg].
Proof.
  unfold no_slash. induction seg as [|c seg IH]; intros H; [reflexivity |].
  simpl. destruct (decide _) as [-> | Hc].
  - exfalso. apply H. now left.
  - rewrite IH; [reflexivity |]. intros Hin. apply H. now right.
Qed.

Lemma split_segments_no_slash s : Forall no_slash (Path.split s).
Proof.
  induction s as [|c s IH]; simpl.
  - constructor; [| constructor]. intros [].
  - destruct (decide _) as [-> | Hc].
    + constructor; [intros [] | exact IH].
    + destruct (Path.split s) as [|h t]; [repeat constructor |].
      * intros [E | []]. now apply Hc.
      * inversion IH as [|? ? Hh Ht]; subst. constructor; [| exact Ht].
        intros [E | Hin]; [now apply Hc | now apply Hh].
Qed.

Lemma unsplit_cons x y r :
  Path.unsplit (x :: y :: r) = x +:+ "/" +:+ Path.unsplit (y :: r).
Proof. reflexivity. Qed.

Lemma unsplit_snoc l f :
  l <> [] -> Path.unsplit (l ++ [f]) = Path.unsplit l +:+ "/" +:+ f.
Proof.
  induction l as [|x l IH]; intros Hne; [congruence |].
  destruct l as [|y l]; [reflexivity |].
  change ((x :: y :: l) ++ [f]) with (x :: (y :: l) ++ [f]).
  change ((y :: l) ++ [f]) with (y :: l ++ [f]) at 1.
  rewrite unsplit_cons.
  change (y :: l ++ [f]) with ((y :: l) ++ [f]).
  rewrite IH by discriminate.
  rewrite unsplit_cons. now rewrite !app_assoc_str.
Qed.

Lemma split_unsplit segs :
  segs <> [] -> Forall no_slash segs -> Path.split (Path.unsplit segs) = segs.
Proof.
  induction segs as [|x segs IH]; intros Hne Hall; [congruence |].
  inversion Hall as [|? ? Hx Hrest]; subst.
  destruct segs as [|y segs]; [now apply split_no_slash |].
  rewrite unsplit_cons, split_app_slash, split_no_slash by exact Hx.
  rewrite IH by (discriminate || exact Hrest). reflexivity.
Qed.

Lemma norm_step_plain allow stack seg :
  plain_name seg -> Path.norm_step allow stack seg = seg :: stack.
Proof.
  intros (Hne & Hdot & Hdd & _). unfold Path.norm_step.
  destruct (decide _) as [[?|?]|_]; [contradiction.. |].
  destruct (decide _); [contradiction | reflexivity].
Qed.

Lemma norm_step_skip allow stack seg :
  seg = "" \/ seg = "." -> Path.norm_step allow stack seg = stack.
Proof.
  intros H. unfold Path.norm_step. destruct (decide _); [reflexivity | contradiction].
Qed.

Lemma fold_plain allow l stack :
  Forall plain_name l ->
  fold_left (Path.norm_step allow) l stack = rev l ++ stack.
Proof.
  intros H. revert stack. induction H as [|seg l Hseg Hl IH]; intros stack.
  - reflexivity.
  - simpl. rewrite norm_step_plain by exact Hseg. rewrite IH.
    now rewrite <- app_assoc.
Qed.

Lemma repeat_snoc {A} (x : A) k : repeat x k ++ [x] = x :: repeat x k.
Proof. induction k as [|k IH]; [reflexivity |]. simpl. now rewrite IH. Qed.

Lemma rev_repeat {A} (x : A) k : rev (repeat x k) = repeat x k.
Proof.
  induction k as [|k IH]; [reflexivity |]. simpl. rewrite IH. apply repeat_snoc.
Qed.

Lemma fold_dotdots k j :
  fold_left (Path.norm_step true) (repeat ".." k) (repeat ".." j)
  = repeat ".." (k + j).
Proof.
  revert j. induction k as [|k IH]; intros j; [reflexivity |].
  simpl. replace (Path.norm_step true (repeat ".." j) "..") with (repeat ".." (S j)).
  - rewrite IH. now rewrite Nat.add_succ_r.
  - destruct j; reflexivity.
Qed.

Lemma normal_stack_nil allow : normal_stack allow [].
Proof. exists [], 0%nat. repeat split. constructor. Qed.

Lemma normal_stack_push allow stack seg :
  plain_name seg -> normal_stack allow stack -> normal_stack allow (seg :: stack).
Proof.
  intros Hseg (ps & k & -> & Hps & Hk).
  exists (seg :: ps), k. repeat split; [now constructor | exact Hk].
Qed.

Lemma norm_step_normal allow stack seg :
  no_slash seg -> normal_stack allow stack ->
  normal_stack allow (Path.norm_step allow stack seg).
Proof.
  intros Hseg Hst.
  destruct (decide (seg = "" \/ seg = ".")) as [Hskip | Hkeep].
  { now rewrite norm_step_skip. }
  destruct (decide (seg = "..")) as [-> | Hdd].
  2:{ assert (Hplain : plain_name seg).
      { repeat split; try exact Hseg; try exact Hdd; intros ->; apply Hkeep; auto. }
      rewrite norm_step_plain by exact Hplain. now apply normal_stack_push. }
  destruct Hst as (ps & k & -> & Hps & Hk).
  unfold Path.norm_step.
  destruct (decide _) as [[?|?]|_]; [discriminate.. |].
  destruct (decide _); [| congruence].
  destruct ps as [|p ps]; simpl.
  - destruct k as [|k]; simpl.
    + destruct allow.
      * exists [], 1%nat. repeat split; [constructor | discriminate].
      * apply normal_stack_nil.
    + destruct allow.
      * exists [], (S (S k)). repeat split; [constructor | discriminate].
      * exists [], (S k). repeat split; [constructor | exact Hk].
  - inversion Hps as [|? ? Hp Hps']; subst.
    destruct (decide (p = "..")) as [-> | _].
    + destruct Hp as (_ & _ & Hp & _). congruence.
    + exists ps, k. repeat split; assumption.
Qed.

Lemma fold_normal allow segs stack :
  Forall no_slash segs -> normal_stack allow stack ->
  normal_stack allow (fold_left (Path.norm_step allow) segs stack).
Proof.
  intros H. revert stack. induction H as [|seg segs Hseg Hsegs IH]; intros stack Hst.
  - exact Hst.
  - simpl. apply IH. now apply norm_step_normal.
Qed.

(** Normalising the segments of a normalised path gives them back. *)
Lemma renormalize allow stack :
  normal_stack allow stack ->
  fold_left (Path.norm_step allow) (rev stack) [] = stack.
Proof.
  intros (ps & k & -> & Hps & Hk).
  rewrite rev_app_distr, rev_repeat, fold_left_app.
  assert (Hdots : fold_left (Path.norm_step allow) (repeat ".." k) [] = repeat ".." k).
  { destruct allow.
    - change (@nil string) with (repeat ".." 0) at 1.
      rewrite fold_dotdots. now rewrite Nat.add_0_r.
    - rewrite Hk by reflexivity. reflexivity. }
  rewrite Hdots, fold_plain by now apply Forall_rev.
  now rewrite rev_involutive.
Qed.

Lemma prefix_cons a s1 b s2 :
  String.prefix (String a s1) (String b s2)
  = if ascii_dec a b then String.prefix s1 s2 else false.
Proof. reflexivity. Qed.

Lemma prefix_nil s : String.prefix "" s = true.
Proof. destruct s; reflexivity. Qed.

Lemma prefix_app p x : String.prefix p (p +:+ x) = true.
Proof.
  induction p as [|c p IH]; [apply prefix_nil |].
  change (String c p +:+ x) with (String c (p +:+ x)).
  rewrite prefix_cons. destruct (ascii_dec c c); [exact IH | congruence].
Qed.

Lemma isAbsolute_app p x : p <> "" -> Path.isAbsolute (p +:+ x) = Path.isAbsolute p.
Proof.
  destruct p as [|c p]; [congruence |]. intros _.
  unfold Path.isAbsolute, Js.startsWith.
  change (String c p +:+ x) with (String c (p +:+ x)).
  change "/" with (String "/"%char "").
  rewrite !prefix_cons, !prefix_nil. reflexivity.
Qed.

Lemma isAbsolute_unsplit seg segs :
  seg <> "" -> no_slash seg -> Path.isAbsolute (Path.unsplit (seg :: segs)) = false.
Proof.
  intros Hne Hns. destruct seg as [|c seg]; [congruence |].
  assert (Hc : c <> "/"%char).
  { intros ->. apply Hns. now left. }
  assert (E : exists rest, Path.unsplit (String c seg :: segs) = String c rest).
  { destruct segs as [|y segs]; [now exists seg |].
    rewrite unsplit_cons. eexists. reflexivity. }
  destruct E as (rest & ->).
  unfold Path.isAbsolute, Js.startsWith.
  change "/" with (String "/"%char "").
  rewrite prefix_cons. destruct (ascii_dec "/" c); [congruence | reflexivity].
Qed.

Lemma ends_with_slash_plain x f :
  plain_name f -> Path.ends_with_slash (x +:+ "/" +:+ f) = false.
Proof.
  intros (Hne & _ & _ & Hns). unfold Path.ends_with_slash.
  rewrite !chars_app, !rev_app_distr.
  destruct (rev (Js.chars f)) as [|c r] eqn:E.
  - exfalso. apply Hne, chars_nil.
    rewrite <- (rev_involutive (Js.chars f)), E. reflexivity.
  - simpl. destruct (decide _) as [-> | _]; [| reflexivity].
    exfalso. apply Hns. apply in_rev. rewrite E. now left.
Qed.

Lemma unsplit_last_nonempty l f : f <> "" -> Path.unsplit (l ++ [f]) <> "".
Proof.
  intros Hf. destruct l as [|x l].
  - exact Hf.
  - rewrite unsplit_snoc by discriminate. intros E.
    apply (f_equal String.length) in E. rewrite !length_chars, !chars_app in E.
    rewrite !length_app in E. simpl in E. lia.
Qed.

Lemma join_two a b : a <> "" -> b <> "" -> Path.join a b = Path.normalize (a +:+ "/" +:+ b).
Proof.
  intros Ha Hb. unfold Path.join.
  apply String.eqb_neq in Ha, Hb. simpl. now rewrite Ha, Hb.
Qed.

Lemma app_nonempty a b : a <> "" -> a +:+ b <> "".
Proof. destruct a; [congruence | discriminate]. Qed.

(** Joining a plain name onto a path: the normalised segments of the
    path followed by the name. *)
Lemma normalize_append_plain p f :
  p <> "" -> plain_name f ->
  Path.normalize (p +:+ "/" +:+ f)
  = (if Path.isAbsolute p then "/" else "")
    +:+ Path.unsplit
          (rev (f :: fold_left (Path.norm_step (negb (Path.isAbsolute p)))
                       (Path.split p) [])).
Proof.
  intros Hp Hf. unfold Path.normalize.
  destruct (decide _) as [E | _]; [now apply app_nonempty in E |].
  rewrite isAbsolute_app by exact Hp.
  unfold Path.normalizeString.
  rewrite split_app_slash, fold_left_app, split_no_slash by apply Hf.
  simpl fold_left. rewrite norm_step_plain by exact Hf.
  rewrite ends_with_slash_plain by exact Hf.
  simpl rev.
  destruct (decide _) as [E | _].
  - exfalso. revert E. apply unsplit_last_nonempty, Hf.
  - destruct (Path.isAbsolute p); reflexivity.
Qed.

Lemma normalize_append_normal p f :
  p <> "" -> plain_name f ->
  normal_stack (negb (Path.isAbsolute p))
    (f :: fold_left (Path.norm_step (negb (Path.isAbsolute p))) (Path.split p) []).
Proof.
  intros Hp Hf. apply normal_stack_push; [exact Hf |].
  apply fold_normal; [apply split_segments_no_slash | apply normal_stack_nil].
Qed.

Lemma normal_stack_no_slash allow stack :
  normal_stack allow stack -> Forall no_slash stack /\ Forall (fun s => s <> "") stack.
Proof.
  intros (ps & k & -> & Hps & _). split; apply Forall_app; split.
  - eapply Forall_impl; [exact Hps |]. now intros s (_ & _ & _ & H).
  - apply List.Forall_forall. intros s Hs. apply repeat_spec in Hs as ->.
    intros [E | [E | []]]; discriminate.
  - eapply Forall_impl; [exact Hps |]. now intros s (H & _).
  - apply List.Forall_forall. intros s Hs. apply repeat_spec in Hs as ->. discriminate.
Qed.

(** Joining a plain name onto the result of such a join appends it. *)
Lemma join_plain_twice p f g :
  p <> "" -> plain_name f -> plain_name g ->
  Path.join (Path.join p f) g = Path.join p f +:+ "/" +:+ g.
Proof.
  intros Hp Hf Hg.
  assert (Hf' : f <> "") by apply Hf.
  assert (Hg' : g <> "") by apply Hg.
  rewrite (join_two p f) by assumption.
  rewrite normalize_append_plain by assumption.
  pose proof (normalize_append_normal p f Hp Hf) as Hnorm.
  set (stack := f :: fold_left (Path.norm_step (negb (Path.isAbsolute p))) (Path.split p) [])
    in *.
  destruct (normal_stack_no_slash _ _ Hnorm) as [Hns Hne].
  assert (Hrev : rev stack <> []).
  { unfold stack. simpl. intros E. now apply app_eq_nil in E as [_ E]. }
  set (dir := (if Path.isAbsolute p then "/" else "") +:+ Path.unsplit (rev stack)).
  assert (Hdir : dir <> "").
  { unfold dir. destruct (Path.isAbsolute p); [discriminate |].
    change ("" +:+ Path.unsplit (rev stack)) with (Path.unsplit (rev stack)).
    unfold stack. simpl rev. apply unsplit_last_nonempty, Hf'. }
  assert (Habs : Path.isAbsolute dir = Path.isAbsolute p).
  { unfold dir. destruct (Path.isAbsolute p) eqn:Eabs; [apply (prefix_app "/") |].
    change ("" +:+ Path.unsplit (rev stack)) with (Path.unsplit (rev stack)).
    destruct (rev stack) as [|seg segs] eqn:Er; [congruence |].
    assert (Hin : In seg stack) by (apply in_rev; rewrite Er; now left).
    rewrite List.Forall_forall in Hns, Hne.
    apply isAbsolute_unsplit; [now apply Hne | now apply Hns]. }
  assert (Hsplit : fold_left (Path.norm_step (negb (Path.isAbsolute p))) (Path.split dir) []
                   = stack).
  { unfold dir. destruct (Path.isAbsolute p).
    - change ("/" +:+ Path.unsplit (rev stack)) with ("" +:+ "/" +:+ Path.unsplit (rev stack)).
      rewrite split_app_slash, split_unsplit by (exact Hrev || now apply Forall_rev).
      change (Path.split "") with [""].
      rewrite fold_left_app. cbn [fold_left].
      rewrite norm_step_skip by (left; reflexivity).
      now apply renormalize.
    - change ("" +:+ Path.unsplit (rev stack)) with (Path.unsplit (rev stack)).
      rewrite split_unsplit by (exact Hrev || now apply Forall_rev).
      now apply renormalize. }
  rewrite (join_two dir g) by assumption.
  rewrite normalize_append_plain by assumption.
  rewrite Habs, Hsplit. simpl rev.
  rewrite unsplit_snoc by exact Hrev.
  unfold dir. now rewrite !app_assoc_str.
Qed.

(** ** Where attachments are written *)

Lemma digit_not_slash c : Char.is_digit c = true -> c <> "/"%char.
Proof. by_cases_on_char c. Qed.

Lemma default_filename_plain index :
  plain_name ("image-" +:+ Js.of_index index +:+ ".png").
Proof.
  repeat split; try discriminate.
  unfold no_slash. rewrite !chars_app, !in_app_iff.
  intros [H | [H | H]].
  - simpl in H. decompose [or] H; discriminate || contradiction.
  - destruct (pretty_N_digits (N.of_nat index)) as [Hd _].
    rewrite List.Forall_forall in Hd.
    now apply (digit_not_slash "/"%char); [apply Hd |].
  - simpl in H. decompose [or] H; discriminate || contradiction.
Qed.

Lemma image_filename_plain img index :
  plain_image img -> plain_name (image_filename img index).
Proof.
  unfold plain_image, image_filename.
  destruct (img_name img) as [name|]; [| intros _; apply default_filename_plain].
  intros [-> | Hname]; [apply default_filename_plain |].
  unfold or_else. destruct (decide _) as [-> | _]; [| exact Hname].
  apply default_filename_plain.
Qed.

Lemma temp_name_plain : plain_name ".claude-temp-images".
Proof.
  repeat split; try discriminate.
  intros H. simpl in H. decompose [or] H; discriminate || contradiction.
Qed.

Lemma inside_child dir f : Path.inside dir (dir +:+ "/" +:+ f) = true.
Proof.
  unfold Path.inside, Js.startsWith. rewrite <- app_assoc_str. apply prefix_app.
Qed.

Lemma plain_file_inside REPO_PATH img index :
  REPO_PATH <> "" -> plain_image img ->
  Path.inside (tempDir REPO_PATH)
    (Path.join (tempDir REPO_PATH) (image_filename img index)) = true.
Proof.
  intros Hrepo Himg. unfold tempDir.
  rewrite join_plain_twice;
    [apply inside_child | exact Hrepo | apply temp_name_plain
    | now apply image_filename_plain].
Qed.

Lemma saveImages_writes (P : string -> Prop) REPO_PATH images s p data :
  (forall img i, In img images ->
     P (Path.join (tempDir REPO_PATH) (image_filename img i))) ->
  In (EffWrite p data) (st_trace (saveImages REPO_PATH images s).2) ->
  In (EffWrite p data) (st_trace s) \/ P p.
Proof.
  intros HP. unfold saveImages, bind, get_fs. simpl.
  destruct (fs_exists (st_fs s) (tempDir REPO_PATH)); simpl.
  - destruct (save_each_spec REPO_PATH P images 0 [] s HP) as (t & Ht & Hall & _).
    rewrite Ht, in_app_iff. intros [H | H]; [now left | right].
    rewrite List.Forall_forall in Hall.
    destruct (Hall _ H) as (p' & d' & [= -> ->] & Hp). exact Hp.
  - unfold put_fs, emit, bind. simpl.
    match goal with
    | |- context [save_each REPO_PATH images 0 [] ?s1] =>
        destruct (save_each_spec REPO_PATH P images 0 [] s1 HP) as (t & Ht & Hall & _)
    end.
    rewrite Ht. simpl. rewrite !in_app_iff. intros [[H | H] | H].
    + now left.
    + destruct H as [H | []]. discriminate.
    + right. rewrite List.Forall_forall in Hall.
      destruct (Hall _ H) as (p' & d' & [= -> ->] & Hp). exact Hp.
Qed.

(** X25.  When the repository path is not empty and every
    attachment either has no name (or an empty one) or has a plain file
    name (one path segment other than "." and ".."), every file written
    while saving the attachments lies inside the attachment directory. *)
Theorem plain_names_stay_inside REPO_PATH images fs :
  REPO_PATH <> "" -> Forall plain_image images ->
  writes_stay_inside REPO_PATH images fs.
Proof.
  intros Hrepo Himgs p data Hin.
  apply (saveImages_writes (fun q => Path.inside (tempDir REPO_PATH) q = true)) in Hin.
  - destruct Hin as [[] | H]. exact H.
  - intros img i Himg. apply plain_file_inside; [exact Hrepo |].
    rewrite List.Forall_forall in Himgs. now apply Himgs.
Qed.

Lemma plain_names_stay_inside_witness :
  writes_stay_inside "/workspace/repo"
    [mkImage (Some "mockup.png") (Some "AAAA"); mkImage None (Some "BBBB")] fs_ready.
Proof.
  apply plain_names_stay_inside.
  - discriminate.
  - constructor; [| constructor; [exact I | constructor]].
    right. repeat split; try discriminate.
    intros H. simpl in H. decompose [or] H; discriminate || contradiction.
Defined.

(** Not every write of [saveImages] stays inside: the name
    "../src/index.js" makes it write a source file of the working tree. *)
Lemma attachment_name_escapes :
  ~ writes_stay_inside "/workspace/repo" [image_escaping] fs_with_sources.
Proof.
  intros H.
  specialize (H "/workspace/repo/src/index.js" "AAAA").
  assert (Hin : In (EffWrite "/workspace/repo/src/index.js" "AAAA")
                  (st_trace (saveImages "/workspace/repo" [image_escaping]
                               (mkSt fs_with_sources [] [] None)).2))
    by pick_in_trace.
  apply H in Hin. vm_compute in Hin. discriminate.
Qed.

(** C4, at a failing input.  A request with two attachments, the second
    without payload: saving creates the directory, writes the first file
    and throws; [imagePaths] is still empty when the [finally] block runs,
    so the directory is not removed.  The request completes with 500 and
    the attachment directory, absent before, exists afterwards. *)
Theorem attachment_directory_left_behind :
  fs_exists fs_ready (tempDir "/workspace/repo") = false /\
  (handleChangeRequest "/workspace/repo" "ws" "repo" world_noop body_partial
     (mkSt fs_ready [] [] None)).1 = Val tt /\
  st_response
    (handleChangeRequest "/workspace/repo" "ws" "repo" world_noop body_partial
       (mkSt fs_ready [] [] None)).2
  = Some (mkResponse 500
            (ErrorBody "The first argument must be of type string or an instance of Buffer, ArrayBuffer, or Array or an Array-like Object. Received undefined")) /\
  st_trace
    (handleChangeRequest "/workspace/repo" "ws" "repo" world_noop body_partial
       (mkSt fs_ready [] [] None)).2
  = [EffMkdir "/workspace/repo/.claude-temp-images";
     EffWrite "/workspace/repo/.claude-temp-images/mockup.png" "AAAA"] /\
  fs_exists
    (st_fs (handleChangeRequest "/workspace/repo" "ws" "repo" world_noop body_partial
              (mkSt fs_ready [] [] None)).2)
    (tempDir "/workspace/repo") = true /\
  fs_exists
    (st_fs (handleChangeRequest "/workspace/repo" "ws" "repo" world_noop body_partial
              (mkSt fs_ready [] [] None)).2)
    "/workspace/repo/.claude-temp-images/mockup.png" = true.
Proof. vm_compute. repeat split; reflexivity. Qed.

(** ** Concrete runs *)

Example slugify_example :
  slugify "  Add a Loading_spinner -- to the page!  " = "add-a-loading-spinner-to-the-page".
Proof. vm_compute. reflexivity. Qed.

Example parseInt_examples :
  parseInt "0" = Some 0 /\ parseInt " 12 commits" = Some 12 /\
  parseInt "-3" = Some (-3) /\ parseInt "none" = None.
Proof. vm_compute. repeat split; reflexivity. Qed.

Example join_examples :
  Path.join "/workspace/repo" ".claude-temp-images" = "/workspace/repo/.claude-temp-images" /\
  Path.join "/workspace/repo/.claude-temp-images" "../../../etc/cron.d/job" = "/etc/cron.d/job" /\
  Path.join "/workspace/repo/.claude-temp-images" "/etc/passwd"
  = "/workspace/repo/.claude-temp-images/etc/passwd" /\
  Path.join "repo/../.." "a/./b/" = "../a/b/".
Proof. vm_compute. repeat split; reflexivity. Qed.

(** A request whose agent commits one change: the branch is pushed, the
    pull request is opened and the answer is 200 with the branch read
    from the working directory and the link the forge returned. *)
Example one_commit_is_published :
  st_response
    (handleChangeRequest "/workspace/repo" "ws" "repo" world_one_commit body_health_icon
       (mkSt fs_ready [] [] None)).2
  = Some (mkResponse 200
            (PrBody "https://bitbucket.org/ws/repo/pull-requests/7"
                    "claude/add-health-icon-1705123456789")) /\
  List.filter is_publish
    (st_trace
       (handleChangeRequest "/workspace/repo" "ws" "repo" world_one_commit body_health_icon
          (mkSt fs_ready [] [] None)).2)
  = [EffExec ("git push -u origin " +:+ dq +:+ "claude/add-health-icon-1705123456789" +:+ dq);
     EffFetch "https://api.bitbucket.org/2.0/repositories/ws/repo/pullrequests"
       "claude/add-health-icon-1705123456789" "add a health icon"
       (prDescription "add a health icon")] /\
  matches_branch_pattern "claude/add-health-icon-1705123456789" = true.
Proof. vm_compute. repeat split; reflexivity. Qed.

(** C9, at a failing input.  One attachment, named "../src/index.js":
    [path.join] resolves the name against the attachment directory, so the
    path written, and returned, is that of a source file of the working
    tree, outside the directory, and the file's content is replaced by the
    attachment's. *)
Theorem attachment_written_outside_directory :
  Path.join (tempDir "/workspace/repo") "../src/index.js"
  = "/workspace/repo/src/index.js" /\
  Path.inside (tempDir "/workspace/repo") "/workspace/repo/src/index.js" = false /\
  fs_files fs_with_sources !! "/workspace/repo/src/index.js"
  = Some "module.exports = {};" /\
  (saveImages "/workspace/repo" [image_escaping] (mkSt fs_with_sources [] [] None)).1
  = Val ["/workspace/repo/src/index.js"] /\
  st_trace (saveImages "/workspace/repo" [image_escaping]
              (mkSt fs_with_sources [] [] None)).2
  = [EffMkdir "/workspace/repo/.claude-temp-images";
     EffWrite "/workspace/repo/src/index.js" "AAAA"] /\
  fs_files (st_fs (saveImages "/workspace/repo" [image_escaping]
                     (mkSt fs_with_sources [] [] None)).2)
    !! "/workspace/repo/src/index.js"
  = Some "AAAA" /\
  ~ writes_stay_inside "/workspace/repo" [image_escaping] fs_with_sources.
Proof.
  repeat split; try (vm_compute; reflexivity). exact attachment_name_escapes.
Qed.

(** C8, at a failing input.  The request text holds a NUL byte and reaches
    [spawn] inside the prompt.  Node refuses an argument with a NUL byte:
    [spawn] throws before there is a process.  The call sits in the
    executor of the promise, outside any [try], so the promise is
    rejected where the claim has it resolve to the deterministic slug
    "fixbug": the [await] of the handler throws, no branch is created, the
    agent is not started and the request is answered 500 with the message
    of the throw. *)
Theorem assisted_namer_rejects_when_spawn_throws :
  generateBranchName request_with_nul (w_namer world_spawn_refuses)
  = Some (Rejected spawn_nul_error) /\
  namer_fallback request_with_nul = "fixbug" /\
  (handleChangeRequest "/workspace/repo" "ws" "repo" world_spawn_refuses body_with_nul
     (mkSt fs_ready [] [] None)).1 = Val tt /\
  st_response
    (handleChangeRequest "/workspace/repo" "ws" "repo" world_spawn_refuses body_with_nul
       (mkSt fs_ready [] [] None)).2
  = Some (mkResponse 500 (ErrorBody spawn_nul_error)) /\
  st_trace
    (handleChangeRequest "/workspace/repo" "ws" "repo" world_spawn_refuses body_with_nul
       (mkSt fs_ready [] [] None)).2
  = [EffExec "git fetch origin"; EffExec "git checkout master";
     EffExec "git reset --hard origin/master";
     EffSpawn "claude" (namer_args request_with_nul)].
Proof. vm_compute. repeat split; reflexivity. Qed.

(** ** The branch namer on strings of arbitrary code units *)

Lemma wide_Forall_drop_while (P : N -> Prop) p l :
  Forall P l -> Forall P (Wide.drop_while p l).
Proof.
  induction 1 as [|c l Hc Hl IH]; simpl; [constructor |].
  destruct (p c); [exact IH | now constructor].
Qed.

Lemma wide_Forall_strip (P : N -> Prop) p l :
  Forall P l -> Forall P (Wide.strip p l).
Proof.
  intros H. unfold Wide.strip.
  apply List.Forall_rev, wide_Forall_drop_while, List.Forall_rev.
  now apply wide_Forall_drop_while.
Qed.

Lemma wide_Forall_filter (P : N -> Prop) p l :
  Forall P l -> Forall (fun c => p c = true /\ P c) (List.filter p l).
Proof.
  induction 1 as [|c l Hc Hl IH]; simpl; [constructor |].
  destruct (p c) eqn:E; [constructor; [split |]; assumption | exact IH].
Qed.

(** What the removal of other characters keeps and the collapse does not
    replace is, when it is no capital, a lowercase letter or a digit. *)
Lemma wide_kept_is_slug c :
  Wide.is_word c || Wide.is_space c || Wide.is_hyphen c = true ->
  Wide.is_upper c = false ->
  Wide.is_separator c = false ->
  Wide.is_slug c = true.
Proof.
  unfold Wide.is_word, Wide.is_separator, Wide.is_slug.
  destruct (Wide.is_upper c), (Wide.is_lower c), (Wide.is_digit c),
    (Wide.is_underscore c), (Wide.is_space c), (Wide.is_hyphen c);
    simpl; congruence.
Qed.

Lemma wide_collapse_slug in_run l :
  Forall (fun c => Wide.is_word c || Wide.is_space c || Wide.is_hyphen c = true /\
                   Wide.is_upper c = false) l ->
  Forall (fun c => Wide.is_slug c = true) (Wide.collapse_separators in_run l).
Proof.
  intros H. revert in_run.
  induction H as [|c l [Hkept Hc] Hl IH]; intros in_run; simpl; [constructor |].
  destruct (Wide.is_separator c) eqn:Hsep.
  - destruct in_run; [apply IH |]. constructor; [reflexivity | apply IH].
  - constructor; [now apply wide_kept_is_slug | apply IH].
Qed.

Lemma wide_length_take (n : nat) (l : list N) : (length (take n l) <= n)%nat.
Proof. rewrite length_take. lia. Qed.

Lemma wide_Forall_take (P : N -> Prop) (n : nat) (l : list N) :
  Forall P l -> Forall P (take n l).
Proof.
  intros H. revert n. induction H as [|c l Hc Hl IH]; intros [|n]; simpl;
    constructor; auto.
Qed.

Lemma wide_strip_prefix_app p l : Wide.strip_prefix p (p ++ l) = Some l.
Proof.
  induction p as [|a p IH]; [reflexivity |]. simpl.
  destruct (decide (a = a)); [exact IH | congruence].
Qed.

Lemma wide_all_digits_true l :
  Forall (fun c => Wide.is_digit c = true) l -> l <> [] -> Wide.all_digits l = true.
Proof.
  intros H Hne. destruct l as [|c l]; [congruence |].
  unfold Wide.all_digits. apply forallb_forall. now apply List.Forall_forall.
Qed.

Lemma wide_match_slug_ok n mid digits :
  Forall (fun c => Wide.is_slug c = true) mid ->
  (length mid <= n)%nat ->
  Wide.all_digits digits = true ->
  Wide.match_slug n (mid ++ 45%N :: digits) = true.
Proof.
  intros Hmid. revert n. induction Hmid as [|c mid Hc Hmid IH]; intros n Hlen Hd.
  - destruct n; simpl; rewrite Hd; reflexivity.
  - destruct n as [|n]; [simpl in Hlen; lia |].
    change (Wide.match_slug (S n) ((c :: mid) ++ 45%N :: digits))
      with (Wide.match_tail (c :: mid ++ 45%N :: digits)
            || (Wide.is_slug c && Wide.match_slug n (mid ++ 45%N :: digits))).
    rewrite Hc, IH; [apply orb_true_r | simpl in Hlen; lia | exact Hd].
Qed.

(** The decimal rendering of a non-negative clock reading, as code units. *)
Lemma wide_of_int_digits z :
  0 <= z ->
  Forall (fun c => Wide.is_digit c = true) (Wide.of_string (Js.of_int z)) /\
  Wide.of_string (Js.of_int z) <> [].
Proof.
  intros Hz. destruct (pretty_Z_digits z Hz) as [Hd Hne]. split.
  - unfold Wide.of_string. apply List.Forall_map.
    eapply Forall_impl; [exact Hd |]. intros c Hc. exact Hc.
  - unfold Wide.of_string. intros E. apply map_eq_nil in E.
    apply Hne. now apply chars_nil.
Qed.

Lemma wide_of_string_inj a b : Wide.of_string a = Wide.of_string b -> a = b.
Proof.
  intros E. apply chars_inj. unfold Wide.of_string in E.
  revert E. generalize (Js.chars a) (Js.chars b).
  induction l as [|x l IH]; intros [|y l'] E; try discriminate; [reflexivity |].
  injection E as Hxy E. f_equal; [| now apply IH].
  unfold Char.code in Hxy.
  rewrite <- (ascii_N_embedding x), <- (ascii_N_embedding y). now rewrite Hxy.
Qed.

Lemma wide_branchName_matches slug now :
  Forall (fun c => Wide.is_slug c = true) slug -> (length slug <= 50)%nat -> 0 <= now ->
  Wide.matches_branch_pattern (Wide.branchName slug now) = true.
Proof.
  intros Hs Hlen Hnow. unfold Wide.matches_branch_pattern, Wide.branchName.
  rewrite wide_strip_prefix_app.
  apply (wide_match_slug_ok 50 slug); [exact Hs | exact Hlen |].
  destruct (wide_of_int_digits now Hnow) as [Hd Hne].
  now apply wide_all_digits_true.
Qed.

Lemma wide_hyphen_digits_suffix (a b d1 d2 : list N) :
  Forall (fun c => Wide.is_digit c = true) d1 ->
  Forall (fun c => Wide.is_digit c = true) d2 ->
  a ++ 45%N :: d1 = b ++ 45%N :: d2 -> d1 = d2.
Proof.
  intros H1 H2. revert b.
  assert (Hno : forall d l, Forall (fun c => Wide.is_digit c = true) d ->
                            d <> l ++ 45%N :: d2 /\ d <> l ++ 45%N :: d1).
  { intros d l Hd. rewrite List.Forall_forall in Hd.
    split; intros E;
      assert (Hin : In 45%N d) by (rewrite E; apply in_elt);
      apply Hd in Hin; discriminate Hin. }
  induction a as [|x a IH]; intros [|y b] E; simpl in E.
  - congruence.
  - injection E as _ E. now apply (Hno d1 b) in E.
  - injection E as _ E. symmetry in E. now apply (Hno d2 a) in E.
  - injection E as _ E. now apply (IH b).
Qed.

Lemma wide_branchName_timestamp_inj slug1 slug2 now1 now2 :
  0 <= now1 -> 0 <= now2 ->
  Wide.branchName slug1 now1 = Wide.branchName slug2 now2 -> now1 = now2.
Proof.
  intros H1 H2 E. unfold Wide.branchName in E.
  apply app_inv_head in E.
  apply (wide_hyphen_digits_suffix slug1 slug2) in E;
    [| apply (wide_of_int_digits _ H1) | apply (wide_of_int_digits _ H2)].
  apply wide_of_string_inj in E. now apply (inj pretty) in E.
Qed.

(** The instance of the lower-case mapping used in examples yields no
    capital of ASCII. *)
Lemma lower_unit_no_capitals c :
  Forall (fun x => Wide.is_upper x = false) (Wide.lower_unit c).
Proof.
  unfold Wide.lower_unit.
  destruct (Wide.is_upper c || (Wide.in_range 192 222 c && negb (c =? 215)%N)) eqn:E.
  - repeat constructor. unfold Wide.is_upper, Wide.in_range in *.
    apply andb_false_iff.
    apply orb_true_iff in E as [E | E].
    + apply andb_true_iff in E as [E1 E2].
      apply N.leb_le in E1, E2. right. apply N.leb_gt. lia.
    + apply andb_true_iff in E as [E _]. apply andb_true_iff in E as [E1 E2].
      apply N.leb_le in E1, E2. right. apply N.leb_gt. lia.
  - apply orb_false_iff in E as [E _].
    destruct (c =? 8490)%N; [repeat constructor |].
    destruct (c =? 304)%N; repeat constructor. exact E.
Qed.

Lemma lower_known_no_capitals s :
  Forall (fun c => Wide.is_upper c = false) (Wide.lower_known s).
Proof.
  unfold Wide.lower_known. induction s as [|c s IH]; simpl; [constructor |].
  apply Forall_app. split; [apply lower_unit_no_capitals | exact IH].
Qed.

Section WideNamer.

Variable toLowerCase : list N -> list N.

(** All that is assumed of [String.prototype.toLowerCase]: its result
    holds no capital letter of ASCII. *)
Hypothesis lower_has_no_capitals :
  forall s, Forall (fun c => Wide.is_upper c = false) (toLowerCase s).

Lemma wide_slugify_slug text :
  Forall (fun c => Wide.is_slug c = true) (Wide.slugify toLowerCase text).
Proof.
  unfold Wide.slugify, Wide.strip_hyphens, Wide.remove_non_word, Wide.trim.
  apply wide_Forall_strip, wide_collapse_slug, wide_Forall_filter, wide_Forall_strip.
  apply lower_has_no_capitals.
Qed.

Lemma wide_namer_fallback_slug request :
  Forall (fun c => Wide.is_slug c = true) (Wide.namer_fallback toLowerCase request) /\
  (length (Wide.namer_fallback toLowerCase request) <= 30)%nat.
Proof.
  split; [apply wide_Forall_take, wide_slugify_slug | apply wide_length_take].
Qed.

Lemma wide_namer_step_settled request st ev v :
  Wide.namer_promise st = Some v ->
  Wide.namer_promise (Wide.namer_step toLowerCase request st ev) = Some v.
Proof.
  intros H. destruct ev as [d|d|code|msg|msg]; simpl; try exact H.
  - destruct (decide _); simpl; now rewrite H.
  - now rewrite H.
  - now rewrite H.
Qed.

Lemma wide_namer_step_ok request st ev :
  (forall slug, Wide.namer_promise st = Some (Resolved slug) ->
     Forall (fun c => Wide.is_slug c = true) slug /\ (length slug <= 40)%nat) ->
  forall slug,
    Wide.namer_promise (Wide.namer_step toLowerCase request st ev) = Some (Resolved slug) ->
    Forall (fun c => Wide.is_slug c = true) slug /\ (length slug <= 40)%nat.
Proof.
  intros Hok slug Hv.
  destruct (Wide.namer_promise st) as [v0|] eqn:E.
  - rewrite (wide_namer_step_settled request st ev v0 E) in Hv. injection Hv as ->.
    now apply Hok.
  - assert (Hfb : Forall (fun c => Wide.is_slug c = true)
                    (Wide.namer_fallback toLowerCase request) /\
                  (length (Wide.namer_fallback toLowerCase request) <= 40)%nat).
    { destruct (wide_namer_fallback_slug request) as [H1 H2]. split; [exact H1 | lia]. }
    destruct ev as [d|d|code|msg|msg]; simpl in Hv; try congruence.
    + destruct (decide _); simpl in Hv; rewrite E in Hv; simpl in Hv;
        injection Hv as <-; [| exact Hfb].
      assert (Hcut : Forall (fun c => Wide.is_slug c = true)
                       (take 40 (Wide.slugify toLowerCase
                                   (Wide.trim (Wide.namer_stdout st)))) /\
                     (length (take 40 (Wide.slugify toLowerCase
                                         (Wide.trim (Wide.namer_stdout st)))) <= 40)%nat).
      { split; [apply wide_Forall_take, wide_slugify_slug | apply wide_length_take]. }
      destruct (take 40 (Wide.slugify toLowerCase (Wide.trim (Wide.namer_stdout st))));
        [exact Hfb | exact Hcut].
    + rewrite E in Hv. simpl in Hv. injection Hv as <-. exact Hfb.
    + rewrite E in Hv. simpl in Hv. discriminate.
Qed.

Lemma wide_generateBranchName_ok request events slug :
  Wide.generateBranchName toLowerCase request events = Some (Resolved slug) ->
  Forall (fun c => Wide.is_slug c = true) slug /\ (length slug <= 40)%nat.
Proof.
  unfold Wide.generateBranchName.
  assert (H : forall st,
            (forall s, Wide.namer_promise st = Some (Resolved s) ->
               Forall (fun c => Wide.is_slug c = true) s /\ (length s <= 40)%nat) ->
            forall s,
              Wide.namer_promise
                (fold_left (Wide.namer_step toLowerCase request) events st)
              = Some (Resolved s) ->
              Forall (fun c => Wide.is_slug c = true) s /\ (length s <= 40)%nat).
  { induction events as [|ev evs IH]; intros st Hst; [exact Hst |].
    simpl. apply IH. now apply wide_namer_step_ok. }
  apply H. intros s Hs. discriminate.
Qed.

(** C5.  For every request text, a string of any code units, every run
    of the auxiliary model process and every clock reading that is not
    negative: the slug the assisted namer resolves to, its fallback and the
    slug of the deterministic namer contain only lowercase ASCII letters,
    digits and hyphens and are at most 40, 30 and 50 code units long; the
    branch name built from any of them matches
    claude/[a-z0-9-]{0,50}-\d+ and ends with the decimal timestamp; names
    built at distinct timestamps differ. *)
Theorem branch_name_pattern (request : list N) (events : list Wide.Event) (now : Z) :
  0 <= now ->
  (forall slug,
     Wide.generateBranchName toLowerCase request events = Some (Resolved slug) ->
     Forall (fun c => Wide.is_slug c = true) slug /\ (length slug <= 40)%nat /\
     Wide.matches_branch_pattern (Wide.branchName slug now) = true) /\
  (Forall (fun c => Wide.is_slug c = true) (Wide.namer_fallback toLowerCase request) /\
   (length (Wide.namer_fallback toLowerCase request) <= 30)%nat /\
   Wide.matches_branch_pattern
     (Wide.branchName (Wide.namer_fallback toLowerCase request) now) = true) /\
  (Forall (fun c => Wide.is_slug c = true) (Wide.basic_slugify toLowerCase request) /\
   (length (Wide.basic_slugify toLowerCase request) <= 50)%nat /\
   Wide.matches_branch_pattern
     (Wide.branchName (Wide.basic_slugify toLowerCase request) now) = true) /\
  (forall slug,
     Wide.branchName slug now
     = (Wide.of_string "claude/" ++ slug ++ Wide.of_string "-")
       ++ Wide.of_string (Js.of_int now) /\
     Wide.all_digits (Wide.of_string (Js.of_int now)) = true) /\
  (forall slug1 slug2 now',
     0 <= now' -> now <> now' ->
     Wide.branchName slug1 now <> Wide.branchName slug2 now').
Proof.
  intros Hnow.
  split; [| split; [| split; [| split]]].
  - intros slug H.
    destruct (wide_generateBranchName_ok _ _ _ H) as [Hs Hl].
    split; [exact Hs |]. split; [exact Hl |].
    apply wide_branchName_matches; [exact Hs | lia | exact Hnow].
  - destruct (wide_namer_fallback_slug request) as [Hs Hl].
    split; [exact Hs |]. split; [exact Hl |].
    apply wide_branchName_matches; [exact Hs | lia | exact Hnow].
  - assert (Hs : Forall (fun c => Wide.is_slug c = true)
                   (Wide.basic_slugify toLowerCase request))
      by apply wide_Forall_take, wide_slugify_slug.
    split; [exact Hs |]. split; [apply wide_length_take |].
    apply wide_branchName_matches; [exact Hs | apply wide_length_take | exact Hnow].
  - intros slug. split.
    + unfold Wide.branchName. now rewrite <- !app_assoc.
    + destruct (wide_of_int_digits now Hnow) as [Hd Hne].
      now apply wide_all_digits_true.
  - intros slug1 slug2 now' Hnow' Hneq E. apply Hneq.
    now apply (wide_branchName_timestamp_inj slug1 slug2 now now').
Qed.

End WideNamer.

Lemma branch_name_pattern_witness :
  Wide.namer_fallback Wide.lower_known request_kelvin = Wide.of_string "kelvin-scale" /\
  Wide.matches_branch_pattern
    (Wide.branchName (Wide.namer_fallback Wide.lower_known request_kelvin)
       1705123456789) = true.
Proof.
  assert (Hnow : 0 <= 1705123456789) by lia.
  split; [vm_compute; reflexivity |].
  destruct (branch_name_pattern Wide.lower_known lower_known_no_capitals
              request_kelvin [] 1705123456789 Hnow)
    as (_ & (_ & _ & H) & _).
  exact H.
Defined.

(** *** The namer of the handler is the namer on arbitrary strings,
    restricted to strings of code units below 256 *)

Lemma code_below_256 c : (Char.code c < 256)%N.
Proof. apply N_ascii_bounded. Qed.

Lemma wide_is_space_code c : Wide.is_space (Char.code c) = Char.is_space c.
Proof.
  pose proof (code_below_256 c) as Hc.
  unfold Wide.is_space, Char.is_space, Wide.in_range, Char.in_range.
  assert (H1 : (Char.code c =? 5760)%N = false) by (apply N.eqb_neq; lia).
  assert (H2 : (8192 <=? Char.code c)%N = false) by (apply N.leb_gt; lia).
  assert (H3 : (Char.code c =? 8232)%N = false) by (apply N.eqb_neq; lia).
  assert (H4 : (Char.code c =? 8233)%N = false) by (apply N.eqb_neq; lia).
  assert (H5 : (Char.code c =? 8239)%N = false) by (apply N.eqb_neq; lia).
  assert (H6 : (Char.code c =? 8287)%N = false) by (apply N.eqb_neq; lia).
  assert (H7 : (Char.code c =? 12288)%N = false) by (apply N.eqb_neq; lia).
  assert (H8 : (Char.code c =? 65279)%N = false) by (apply N.eqb_neq; lia).
  rewrite H1, H2, H3, H4, H5, H6, H7, H8. simpl. now rewrite !orb_false_r.
Qed.

Lemma wide_drop_while_map p q l :
  (forall c, q (Char.code c) = p c) ->
  Wide.drop_while q (map Char.code l) = map Char.code (Js.drop_while p l).
Proof.
  intros H. induction l as [|c l IH]; [reflexivity |]. simpl.
  rewrite H. destruct (p c); [exact IH | reflexivity].
Qed.

Lemma wide_strip_map p q l :
  (forall c, q (Char.code c) = p c) ->
  Wide.strip q (map Char.code l) = map Char.code (Js.strip p l).
Proof.
  intros H. unfold Wide.strip, Js.strip.
  rewrite (wide_drop_while_map p q _ H), <- map_rev.
  rewrite (wide_drop_while_map p q _ H), <- map_rev. reflexivity.
Qed.

Lemma wide_filter_map (p : ascii -> bool) (q : N -> bool) l :
  (forall c, q (Char.code c) = p c) ->
  List.filter q (map Char.code l) = map Char.code (List.filter p l).
Proof.
  intros H. induction l as [|c l IH]; [reflexivity |]. simpl.
  rewrite H. destruct (p c); simpl; now rewrite IH.
Qed.

Lemma wide_collapse_map in_run l :
  Wide.collapse_separators in_run (map Char.code l)
  = map Char.code (collapse_separators in_run l).
Proof.
  revert in_run. induction l as [|c l IH]; intros in_run; [reflexivity |]. simpl.
  assert (Hsep : Wide.is_separator (Char.code c) = is_separator c).
  { unfold Wide.is_separator, is_separator. now rewrite wide_is_space_code. }
  rewrite Hsep. destruct (is_separator c).
  - destruct in_run; simpl; now rewrite IH.
  - simpl. now rewrite IH.
Qed.

Lemma lower_known_latin1 s :
  Wide.lower_known (Wide.of_string s) = Wide.of_string (Js.toLowerCase s).
Proof.
  unfold Js.toLowerCase, Wide.of_string, Wide.lower_known. rewrite chars_str.
  induction (Js.chars s) as [|c l IH]; [reflexivity |]. simpl. rewrite IH. f_equal.
  pose proof (code_below_256 c) as Hc.
  unfold Wide.lower_unit, Char.to_lower.
  change (Wide.is_upper (Char.code c)) with (Char.is_upper c).
  change (Wide.in_range 192 222 (Char.code c)) with (Char.in_range 192 222 c).
  destruct (Char.is_upper c || (Char.in_range 192 222 c && negb (Char.code c =? 215)%N))
    eqn:E.
  - f_equal. unfold Char.code at 2. rewrite N_ascii_embedding; [reflexivity |].
    unfold Char.is_upper, Char.in_range in E.
    apply orb_true_iff in E as [E | E].
    + apply andb_true_iff in E as [_ E]. apply N.leb_le in E. lia.
    + apply andb_true_iff in E as [E _]. apply andb_true_iff in E as [_ E].
      apply N.leb_le in E. lia.
  - assert (H1 : (Char.code c =? 8490)%N = false) by (apply N.eqb_neq; lia).
    assert (H2 : (Char.code c =? 304)%N = false) by (apply N.eqb_neq; lia).
    now rewrite H1, H2.
Qed.

Section Restriction.

Variable toLowerCase : list N -> list N.

(** On a string of code units below 256 the lower-case mapping works unit
    by unit, as [Js.toLowerCase] has it. *)
Hypothesis lower_latin1 :
  forall s, toLowerCase (Wide.of_string s) = Wide.of_string (Js.toLowerCase s).

Lemma slugify_is_wide_slugify text :
  Wide.of_string (slugify text) = Wide.slugify toLowerCase (Wide.of_string text).
Proof.
  unfold Wide.slugify, slugify, Wide.trim, Js.trim, Wide.strip_hyphens, strip_hyphens,
    Wide.remove_non_word, remove_non_word.
  rewrite lower_latin1. unfold Wide.of_string. rewrite !chars_str.
  rewrite (wide_strip_map Char.is_space Wide.is_space _ wide_is_space_code).
  rewrite (wide_filter_map
             (fun c => Char.is_word c || Char.is_space c || Char.is_hyphen c)
             (fun c => Wide.is_word c || Wide.is_space c || Wide.is_hyphen c)).
  2:{ intros c. now rewrite wide_is_space_code. }
  rewrite wide_collapse_map.
  now rewrite (wide_strip_map Char.is_hyphen Wide.is_hyphen _ (fun c => eq_refl)).
Qed.

End Restriction.

(** *** When the slug is empty *)

Lemma wide_drop_while_keeps p c l :
  In c l -> p c = false -> In c (Wide.drop_while p l).
Proof.
  intros Hin Hc. induction l as [|x l IH]; [contradiction |]. simpl.
  destruct (p x) eqn:E; [| exact Hin].
  destruct Hin as [-> | Hin]; [congruence | now apply IH].
Qed.

Lemma wide_strip_keeps p c l : In c l -> p c = false -> In c (Wide.strip p l).
Proof.
  intros Hin Hc. unfold Wide.strip.
  apply in_rev. rewrite rev_involutive.
  apply wide_drop_while_keeps; [| exact Hc].
  apply -> in_rev. now apply wide_drop_while_keeps.
Qed.

Lemma wide_collapse_keeps in_run c l :
  In c l -> Wide.is_separator c = false -> In c (Wide.collapse_separators in_run l).
Proof.
  intros Hin Hc. revert in_run. induction l as [|x l IH]; intros in_run; [contradiction |].
  simpl. destruct Hin as [-> | Hin].
  - rewrite Hc. now left.
  - destruct (Wide.is_separator x).
    + destruct in_run; [now apply IH | right; now apply IH].
    + right. now apply IH.
Qed.

Lemma wide_collapse_separators_only in_run l :
  Forall (fun c => Wide.is_separator c = true) l ->
  Wide.collapse_separators in_run l = [] \/
  Wide.collapse_separators in_run l = [45%N].
Proof.
  intros H. revert in_run. induction H as [|c l Hc Hl IH]; intros in_run; simpl.
  - now left.
  - rewrite Hc. destruct in_run.
    + apply IH.
    + destruct (IH true) as [E | E]; rewrite E.
      * now right.
      * exfalso. clear -Hl E. destruct Hl as [|x l Hx Hl]; simpl in E; [discriminate |].
        rewrite Hx in E. 
        assert (Hlen : forall l', Forall (fun c => Wide.is_separator c = true) l' ->
                  Wide.collapse_separators true l' = []).
        { clear. induction 1 as [|y l' Hy _ IH']; simpl; [reflexivity |].
          now rewrite Hy. }
        rewrite (Hlen l Hl) in E. discriminate.
Qed.

Lemma wide_alnum_classes c :
  Wide.is_alnum c = true ->
  Wide.is_word c = true /\ Wide.is_space c = false /\ Wide.is_separator c = false /\
  Wide.is_hyphen c = false.
Proof.
  unfold Wide.is_alnum, Wide.is_word, Wide.is_separator, Wide.is_space, Wide.is_upper,
    Wide.is_lower, Wide.is_digit, Wide.is_underscore, Wide.is_hyphen, Wide.in_range.
  intros H.
  assert (Hr : (48 <= c <= 57 \/ 65 <= c <= 90 \/ 97 <= c <= 122)%N).
  { apply orb_true_iff in H as [H | H]; [apply orb_true_iff in H as [H | H] |];
      apply andb_true_iff in H as [H1 H2]; apply N.leb_le in H1, H2; lia. }
  assert (E : forall n, (n < 48 \/ 57 < n < 65 \/ 90 < n < 97 \/ 122 < n)%N ->
                        (c =? n)%N = false).
  { intros n Hn. apply N.eqb_neq. lia. }
  assert (L : forall lo hi, (hi < 48 \/ 122 < lo)%N ->
                            ((lo <=? c) && (c <=? hi))%N = false).
  { intros lo hi Hb. apply andb_false_iff.
    destruct Hb; [right | left]; apply N.leb_gt; lia. }
  rewrite !(E 45%N), !(E 95%N), (E 32%N), (E 160%N), (E 5760%N), (E 8232%N), (E 8233%N),
    (E 8239%N), (E 8287%N), (E 12288%N), (E 65279%N), (L 9%N 13%N), (L 8192%N 8202%N)
    by lia.
  rewrite !orb_false_r. simpl. now rewrite H.
Qed.

Lemma wide_other_is_separator c :
  Wide.is_word c || Wide.is_space c || Wide.is_hyphen c = true ->
  Wide.is_alnum c = false ->
  Wide.is_separator c = true.
Proof.
  unfold Wide.is_word, Wide.is_alnum, Wide.is_separator.
  destruct (Wide.is_upper c), (Wide.is_lower c), (Wide.is_digit c),
    (Wide.is_underscore c), (Wide.is_space c), (Wide.is_hyphen c);
    simpl; congruence.
Qed.

Section WideSlug.

Variable toLowerCase : list N -> list N.

(** X26.  For every text, a string of any code units: the slug is empty
    exactly when the lower-case form of the text holds no ASCII letter and
    no digit.  (A text without ASCII letters can have a slug: the Kelvin
    sign lower-cases to "k".) *)
Theorem wide_slugify_empty_iff (text : list N) :
  Wide.slugify toLowerCase text = [] <->
  Forall (fun c => Wide.is_alnum c = false) (toLowerCase text).
Proof.
  unfold Wide.slugify, Wide.strip_hyphens, Wide.remove_non_word, Wide.trim. split.
  - intros E. apply List.Forall_forall. intros c Hin.
    destruct (Wide.is_alnum c) eqn:Hc; [exfalso | reflexivity].
    destruct (wide_alnum_classes c Hc) as (Hword & Hspace & Hsep & Hhyphen).
    assert (Hslug : In c (Wide.strip Wide.is_hyphen
                            (Wide.collapse_separators false
                               (List.filter
                                  (fun c => Wide.is_word c || Wide.is_space c
                                            || Wide.is_hyphen c)
                                  (Wide.strip Wide.is_space (toLowerCase text)))))).
    { apply wide_strip_keeps; [| exact Hhyphen].
      apply wide_collapse_keeps; [| exact Hsep].
      apply List.filter_In. split; [| now rewrite Hword].
      now apply wide_strip_keeps. }
    rewrite E in Hslug. contradiction.
  - intros H.
    assert (Hsep : Forall (fun c => Wide.is_separator c = true)
                     (List.filter
                        (fun c => Wide.is_word c || Wide.is_space c || Wide.is_hyphen c)
                        (Wide.strip Wide.is_space (toLowerCase text)))).
    { eapply Forall_impl.
      - apply (wide_Forall_filter (fun c => Wide.is_alnum c = false)).
        now apply wide_Forall_strip.
      - intros c [Hkept Hc]. now apply wide_other_is_separator. }
    destruct (wide_collapse_separators_only false _ Hsep) as [-> | ->]; reflexivity.
Qed.

End WideSlug.

Lemma wide_slugify_empty_iff_witness :
  Wide.slugify Wide.lower_known [8490%N] = Wide.of_string "k" /\
  Wide.slugify Wide.lower_known (Wide.of_string " ?! -- _ (...) ") = [].
Proof.
  split; [vm_compute; reflexivity |].
  apply wide_slugify_empty_iff. vm_compute. repeat constructor.
Defined.

(** * Further properties of the service *)

(** ** The request gate *)

Lemma prefix_split p h :
  String.prefix p h = true -> h = p +:+ Js.str (drop (String.length p) (Js.chars h)).
Proof.
  revert h. induction p as [|a p IH]; intros h H.
  - simpl. symmetry. apply str_chars.
  - destruct h as [|b h]; [discriminate |].
    rewrite prefix_cons in H. destruct (ascii_dec a b) as [<- |]; [| discriminate].
    change (String a p +:+ ?x) with (String a (p +:+ x)).
    f_equal. now apply IH.
Qed.

Lemma slice_from_app p x : Js.slice_from (String.length p) (p +:+ x) = x.
Proof.
  unfold Js.slice_from. rewrite chars_app, length_chars.
  rewrite drop_app_length. apply str_chars.
Qed.

Section GateExtras.

Variables REPO_PATH API_KEY BB_WORKSPACE BB_REPO : string.

Local Abbreviation serve := (server REPO_PATH API_KEY BB_WORKSPACE BB_REPO).
Local Abbreviation authenticated := (isAuthenticated API_KEY).

(** X1.  A request is authenticated exactly when its Authorization
    header is "Bearer " followed by the configured key. *)
Theorem authenticated_iff_bearer_key req :
  isAuthenticated API_KEY req = true <->
  req_authorization req = Some ("Bearer " +:+ API_KEY).
Proof.
  unfold isAuthenticated. split.
  - destruct (req_authorization req) as [h|]; [| discriminate].
    destruct (bool_decide (h = "")); [discriminate |].
    destruct (Js.startsWith "Bearer " h) eqn:Hp; [| discriminate].
    simpl. intros Hk. apply bool_decide_eq_true in Hk.
    apply prefix_split in Hp. rewrite Hp. f_equal. f_equal. exact Hk.
  - intros ->.
    rewrite bool_decide_eq_false_2 by discriminate.
    unfold Js.startsWith. rewrite prefix_app. simpl.
    apply bool_decide_eq_true.
    apply (slice_from_app "Bearer " API_KEY).
Qed.


(** X3.  A command is run or the file system touched only for an
    authenticated POST / that the rate limiter allowed. *)
Theorem pipeline_only_behind_gate w req srv :
  reply_trace (serve w req srv).1 <> [] \/ srv_fs (serve w req srv).2 <> srv_fs srv ->
  authenticated req = true /\
  req_method req = "POST" /\ req_pathname req = "/" /\
  (checkRateLimit (w_gate_now w) (clientIp req) (srv_rateLimitMap srv)).1 = true.
Proof.
  unfold server.
  destruct (decide (req_method req = "OPTIONS")); [simpl; intros [[] | []]; reflexivity |].
  destruct (decide (req_method req = "GET" /\ req_pathname req = "/health"));
    [simpl; intros [[] | []]; reflexivity |].
  destruct (authenticated req); simpl; [| intros [[] | []]; reflexivity].
  destruct (checkRateLimit _ _ _) as [allowed table]. simpl.
  destruct allowed; simpl; [| intros [[] | []]; reflexivity].
  destruct (decide (req_method req = "POST" /\ req_pathname req = "/")) as [[Hm Hp] |];
    [| simpl; intros [[] | []]; reflexivity].
  intros _. repeat split; assumption.
Qed.

(** X4.  Whatever the route and the outcome, the reply names an allowed
    origin exactly when the request's Origin header is one of the three
    configured origins, and then it echoes that origin. *)
Theorem reply_origin_is_allowed w req srv origin :
  reply_allow_origin (serve w req srv).1 = Some origin <->
  req_origin req = Some origin /\ In origin ALLOWED_ORIGINS.
Proof.
  assert (Hreply : reply_allow_origin (serve w req srv).1 = allowed_origin req).
  { unfold server.
    repeat (destruct (decide _); [reflexivity |]).
    destruct (authenticated req); simpl; [| reflexivity].
    destruct (checkRateLimit _ _ _) as [[] table]; simpl; [| reflexivity].
    destruct (decide _); [| reflexivity].
    destruct (handleChangeRequest _ _ _ _ _ _). reflexivity. }
  rewrite Hreply. unfold allowed_origin.
  destruct (req_origin req) as [o|]; [| split; [discriminate | intros [[=] _]]].
  destruct (bool_decide (o ∈ ALLOWED_ORIGINS)) eqn:Hin.
  - apply bool_decide_eq_true in Hin. apply list_elem_of_In in Hin.
    rewrite bool_decide_eq_true_2.
    + simpl. split; [intros [= ->]; now split | now intros [[= ->] _]].
    + intros ->. simpl in Hin. decompose [or] Hin; discriminate || contradiction.
  - apply bool_decide_eq_false in Hin. rewrite andb_false_r.
    split; [discriminate |]. intros [[= ->] Ho]. exfalso. apply Hin.
    now apply list_elem_of_In.
Qed.

End GateExtras.

Lemma authenticated_iff_bearer_key_witness :
  isAuthenticated "secret" req_sixth = true.
Proof.
  apply (authenticated_iff_bearer_key "secret" req_sixth). reflexivity.
Defined.


Lemma pipeline_only_behind_gate_witness :
  isAuthenticated "secret" req_post = true /\
  req_method req_post = "POST" /\ req_pathname req_post = "/" /\
  (checkRateLimit (w_gate_now world_noop) (clientIp req_post) ∅).1 = true.
Proof.
  apply (pipeline_only_behind_gate "/workspace/repo" "secret" "ws" "repo"
           world_noop req_post (mkServer ∅ fs_ready)).
  left. vm_compute. discriminate.
Defined.

Lemma reply_origin_is_allowed_witness :
  reply_allow_origin
    (server "/workspace/repo" "secret" "ws" "repo" world_noop req_post
       (mkServer ∅ fs_ready)).1
  = Some "https://www.smarty.com".
Proof.
  apply (reply_origin_is_allowed "/workspace/repo" "secret" "ws" "repo").
  split; [reflexivity |]. right. right. left. reflexivity.
Defined.

(** ** The rate limiter, continued *)

(** X5.  A check of one identity leaves the records of all other
    identities as they were. *)
Theorem rate_limit_other_identities (now : Z) (ip other : option string)
    (m : gmap (option string) RateLimitRecord) :
  ip <> other -> (checkRateLimit now ip m).2 !! other = m !! other.
Proof.
  intros Hne. unfold checkRateLimit.
  destruct (m !! ip) as [r|]; simpl; [| now rewrite lookup_insert_ne].
  repeat (destruct (decide _)); simpl; try reflexivity;
    now rewrite lookup_insert_ne.
Qed.

Lemma rate_limit_other_identities_witness :
  (checkRateLimit 1705123456000 (Some "203.0.113.7") (srv_rateLimitMap srv_full)).2
    !! Some "198.51.100.4"
  = srv_rateLimitMap srv_full !! Some "198.51.100.4".
Proof.
  apply rate_limit_other_identities. discriminate.
Defined.

(** Checks of an identity whose window began at [start] with [used]
    requests counted, all made while that window is current. *)
Lemma checks_in_window (start : Z) (ip : option string) (times : list Z) :
  Forall (fun t => t - start <= RATE_LIMIT_WINDOW_MS) times ->
  forall (used : nat) (m : gmap (option string) RateLimitRecord),
    (used <= 5)%nat ->
    m !! ip = Some (mkRecord start (Z.of_nat used)) ->
    check_times times ip m
    = (repeat true (Nat.min (length times) (5 - used))
       ++ repeat false (length times - (5 - used)),
       <[ ip := mkRecord start (Z.of_nat (Nat.min 5 (used + length times))) ]> m).
Proof.
  induction 1 as [|t times Ht Htimes IH]; intros used m Hused Hm.
  - cbn [check_times length]. rewrite Nat.add_0_r, (Nat.min_r 5 used) by lia.
    now rewrite insert_id.
  - cbn [check_times].
    destruct (decide (used = 5)%nat) as [-> | Hroom].
    + rewrite (check_full t ip m _ Hm) by (simpl; unfold RATE_LIMIT_MAX_REQUESTS; lia).
      rewrite (IH 5%nat m) by (lia || exact Hm).
      change (5 - 5)%nat with 0%nat.
      rewrite !Nat.min_0_r, !Nat.sub_0_r, !(Nat.min_l 5) by lia.
      reflexivity.
    + rewrite (check_increment t ip m _ Hm) by (simpl; unfold RATE_LIMIT_MAX_REQUESTS; lia).
      simpl windowStart. simpl count.
      replace (Z.of_nat used + 1) with (Z.of_nat (S used)) by lia.
      rewrite (IH (S used)) by (lia || apply lookup_insert_eq).
      rewrite insert_insert_eq.
      replace (5 - used)%nat with (S (5 - S used)) by lia.
      simpl length. rewrite <- Nat.succ_min_distr. simpl repeat.
      replace (S (length times) - S (5 - S used))%nat
        with (length times - (5 - S used))%nat by lia.
      replace (S used + length times)%nat with (used + S (length times))%nat by lia.
      reflexivity.
Qed.

(** X6.  Of the checks an identity without a record makes inside one
    window (none later than the window length after the first), exactly
    the first five are allowed, however many follow; the window start stays
    at the first check. *)
Theorem rate_limit_window_cap (first : Z) (later : list Z) (ip : option string)
    (m : gmap (option string) RateLimitRecord) :
  m !! ip = None ->
  Forall (fun t => t - first <= RATE_LIMIT_WINDOW_MS) later ->
  (check_times (first :: later) ip m).1
  = repeat true (Nat.min (S (length later)) 5)
    ++ repeat false (S (length later) - 5) /\
  (check_times (first :: later) ip m).2 !! ip
  = Some (mkRecord first (Z.of_nat (Nat.min 5 (S (length later))))).
Proof.
  intros Hnone Hlater. cbn [check_times].
  rewrite (check_fresh first ip m Hnone).
  rewrite (checks_in_window first ip later Hlater 1%nat)
    by (lia || apply lookup_insert_eq).
  simpl fst. simpl snd. rewrite insert_insert_eq, lookup_insert_eq.
  split; [| reflexivity].
  destruct (length later) as [|[|[|[|n]]]]; reflexivity.
Qed.

Lemma rate_limit_window_cap_witness :
  (check_times [1000; 1001; 1002; 1003; 1004; 1005; 86401000] (Some "203.0.113.7") ∅).1
  = [true; true; true; true; true; false; false].
Proof.
  refine (proj1 (rate_limit_window_cap 1000 [1001; 1002; 1003; 1004; 1005; 86401000]
                   (Some "203.0.113.7") ∅ _ _)).
  - apply lookup_empty.
  - repeat constructor; unfold RATE_LIMIT_WINDOW_MS; lia.
Defined.

(** ** The shape of slugs *)

Lemma drop_while_suffix p l :
  exists pre, l = pre ++ Js.drop_while p l /\ Forall (fun c => p c = true) pre.
Proof.
  induction l as [|c l (pre & IH & Hpre)]; [exists []; now split |].
  simpl. destruct (p c) eqn:Hc.
  - exists (c :: pre). split; [simpl; now f_equal | now constructor].
  - exists []. now split.
Qed.

Lemma drop_while_head p l c r : Js.drop_while p l = c :: r -> p c = false.
Proof.
  induction l as [|x l IH]; [discriminate |]. simpl.
  destruct (p x) eqn:Hx; [exact IH |]. now intros [= <- _].
Qed.

Lemma drop_while_id p l :
  (forall c r, l = c :: r -> p c = false) -> Js.drop_while p l = l.
Proof.
  destruct l as [|c l]; [reflexivity |]. intros H. simpl.
  now rewrite (H c l eq_refl).
Qed.

Lemma drop_while_all p l : Forall (fun c => p c = true) l -> Js.drop_while p l = [].
Proof. induction 1 as [|c l Hc _ IH]; [reflexivity |]. simpl. now rewrite Hc. Qed.

Lemma drop_while_keeps p l x : In x l -> p x = false -> In x (Js.drop_while p l).
Proof.
  induction l as [|c l IH]; [intros [] |]. intros Hin Hx. simpl.
  destruct (p c) eqn:Hc; [| exact Hin].
  destruct Hin as [-> | Hin]; [congruence | now apply IH].
Qed.

Lemma strip_infix p l : exists pre post, l = pre ++ Js.strip p l ++ post.
Proof.
  destruct (drop_while_suffix p l) as (pre & Hl & _).
  destruct (drop_while_suffix p (rev (Js.drop_while p l))) as (post & Hr & _).
  exists pre, (rev post). unfold Js.strip.
  rewrite <- rev_app_distr, <- Hr, rev_involutive. exact Hl.
Qed.

Lemma strip_head p l c r : Js.strip p l = c :: r -> p c = false.
Proof.
  intros H.
  destruct (drop_while_suffix p (rev (Js.drop_while p l))) as (post & Hr & _).
  apply (f_equal (@rev ascii)) in Hr. rewrite rev_involutive, rev_app_distr in Hr.
  fold (Js.strip p l) in Hr. rewrite H in Hr. simpl in Hr.
  now apply (drop_while_head p l c (r ++ rev post)).
Qed.

Lemma strip_last p l r c : Js.strip p l = r ++ [c] -> p c = false.
Proof.
  unfold Js.strip. intros H.
  apply (f_equal (@rev ascii)) in H. rewrite rev_involutive, rev_app_distr in H.
  simpl in H. now apply drop_while_head in H.
Qed.

Lemma strip_id p l :
  (forall c r, l = c :: r -> p c = false) ->
  (forall r c, l = r ++ [c] -> p c = false) ->
  Js.strip p l = l.
Proof.
  intros Hhead Hlast. unfold Js.strip.
  rewrite (drop_while_id p l Hhead), drop_while_id, rev_involutive; [reflexivity |].
  intros c r E. apply (Hlast (rev r) c).
  rewrite <- (rev_involutive l), E. reflexivity.
Qed.

Lemma strip_all p l : Forall (fun c => p c = true) l -> Js.strip p l = [].
Proof. intros H. unfold Js.strip. now rewrite (drop_while_all p l H). Qed.

Lemma strip_keeps p l x : In x l -> p x = false -> In x (Js.strip p l).
Proof.
  intros Hin Hx. unfold Js.strip.
  apply -> in_rev. apply drop_while_keeps; [| exact Hx].
  apply -> in_rev. now apply drop_while_keeps.
Qed.

Lemma no_double_cons c l :
  no_double_hyphen l -> Char.is_hyphen c = false \/ no_leading_hyphen l ->
  no_double_hyphen (c :: l).
Proof.
  intros Hl Hc [|x l1] l2 E; simpl in E.
  - injection E as -> ->. destruct Hc as [Hc | Hc]; [discriminate |].
    now specialize (Hc _ _ eq_refl).
  - injection E as _ E. now apply (Hl l1 l2).
Qed.

Lemma no_double_infix pre l post :
  no_double_hyphen (pre ++ l ++ post) -> no_double_hyphen l.
Proof.
  intros H l1 l2 ->. apply (H (pre ++ l1) (l2 ++ post)).
  now rewrite <- !app_assoc.
Qed.

Lemma no_double_tail c l : no_double_hyphen (c :: l) -> no_double_hyphen l.
Proof.
  intros H. apply (no_double_infix [c] l []). simpl. now rewrite app_nil_r.
Qed.

Lemma hyphen_is_separator c : Char.is_hyphen c = true -> is_separator c = true.
Proof. by_cases_on_char c. Qed.

Lemma collapse_shape b l :
  no_double_hyphen (collapse_separators b l) /\
  (b = true -> no_leading_hyphen (collapse_separators b l)).
Proof.
  revert b. induction l as [|c l IH]; intros b.
  - split; [intros [|? ?] ?; discriminate | intros _ ? ? ?; discriminate].
  - simpl. destruct (is_separator c) eqn:Hsep.
    + destruct b.
      * apply IH.
      * split; [| discriminate].
        apply no_double_cons; [apply IH | right; now apply IH].
    + assert (Hc : Char.is_hyphen c = false).
      { destruct (Char.is_hyphen c) eqn:E; [| reflexivity].
        apply hyphen_is_separator in E. congruence. }
      split.
      * apply no_double_cons; [apply IH | now left].
      * intros _ x r [= <- _]. exact Hc.
Qed.

Lemma slugify_unfold text :
  Js.chars (slugify text)
  = strip_hyphens
      (collapse_separators false
         (remove_non_word (Js.strip Char.is_space (map Char.to_lower (Js.chars text))))).
Proof.
  unfold slugify, Js.trim, Js.toLowerCase. now rewrite !chars_str.
Qed.

(** X7.  A slug neither starts nor ends with a hyphen and has no two
    hyphens in a row; cut to any length it still does not start with a
    hyphen and has no two in a row. *)
Theorem slugify_shape text :
  is_slug_form (slugify text) /\
  forall n,
    no_leading_hyphen (Js.chars (Js.substring0 n (slugify text))) /\
    no_double_hyphen (Js.chars (Js.substring0 n (slugify text))).
Proof.
  assert (Hhead : no_leading_hyphen (Js.chars (slugify text))).
  { rewrite slugify_unfold. intros c r E. now apply strip_head in E. }
  assert (Hdouble : no_double_hyphen (Js.chars (slugify text))).
  { rewrite slugify_unfold. unfold strip_hyphens.
    destruct (strip_infix Char.is_hyphen
                (collapse_separators false
                   (remove_non_word
                      (Js.strip Char.is_space (map Char.to_lower (Js.chars text))))))
      as (pre & post & E).
    apply (no_double_infix pre _ post). rewrite <- E. apply collapse_shape. }
  split.
  - split; [apply slugify_slug_chars |]. split; [exact Hhead |]. split; [| exact Hdouble].
    rewrite slugify_unfold. intros r c E. now apply strip_last in E.
  - intros n. unfold Js.substring0. rewrite chars_str. split.
    + intros c r E. destruct n as [|n]; [discriminate |].
      destruct (Js.chars (slugify text)) as [|x l] eqn:El; [discriminate |].
      simpl in E. injection E as <- _. now apply (Hhead x l).
    + apply (no_double_infix [] _ (drop n (Js.chars (slugify text)))).
      simpl. now rewrite take_drop.
Qed.

Lemma slug_to_lower c : Char.is_slug c = true -> Char.to_lower c = c.
Proof. by_cases_on_char c. Qed.

Lemma slug_not_space c : Char.is_slug c = true -> Char.is_space c = false.
Proof. by_cases_on_char c. Qed.

Lemma slug_kept c :
  Char.is_slug c = true ->
  (Char.is_word c || Char.is_space c || Char.is_hyphen c) = true.
Proof. by_cases_on_char c. Qed.

Lemma slug_separator c :
  Char.is_slug c = true -> is_separator c = Char.is_hyphen c.
Proof. by_cases_on_char c. Qed.

Lemma hyphen_eq c : Char.is_hyphen c = true -> c = "-"%char.
Proof. by_cases_on_char c. Qed.

Lemma collapse_fixed l :
  Forall (fun c => Char.is_slug c = true) l -> no_double_hyphen l ->
  forall b, (b = true -> no_leading_hyphen l) -> collapse_separators b l = l.
Proof.
  induction 1 as [|c l Hc Hl IH]; intros Hdouble b Hb; [reflexivity |].
  simpl. rewrite (slug_separator c Hc).
  destruct (Char.is_hyphen c) eqn:Hh.
  - destruct b; [now rewrite (Hb eq_refl c l eq_refl) in Hh |].
    apply hyphen_eq in Hh as ->. f_equal.
    apply IH; [now apply no_double_tail in Hdouble |].
    intros _ x r ->. destruct (Char.is_hyphen x) eqn:Hx; [| reflexivity].
    apply hyphen_eq in Hx as ->. now destruct (Hdouble [] r).
  - f_equal. apply IH; [now apply no_double_tail in Hdouble | discriminate].
Qed.

Lemma filter_all {A} (f : A -> bool) l :
  Forall (fun x => f x = true) l -> List.filter f l = l.
Proof. induction 1 as [|x l Hx _ IH]; [reflexivity |]. simpl. now rewrite Hx, IH. Qed.

Lemma map_fixed {A} (f : A -> A) l :
  Forall (fun x => f x = x) l -> map f l = l.
Proof. induction 1 as [|x l Hx _ IH]; [reflexivity |]. simpl. now rewrite Hx, IH. Qed.

(** X8.  [slugify] leaves every string in slug form as it is; applied
    twice it gives the same as applied once. *)
Theorem slugify_idempotent :
  (forall s, is_slug_form s -> slugify s = s) /\
  (forall text, slugify (slugify text) = slugify text).
Proof.
  assert (Hfixed : forall s, is_slug_form s -> slugify s = s).
  { intros s (Hslug & Hhead & Hlast & Hdouble). unfold slug_chars in Hslug.
    apply chars_inj. rewrite slugify_unfold.
    rewrite map_fixed
      by (eapply Forall_impl; [exact Hslug | apply slug_to_lower]).
    rewrite strip_id.
    - unfold remove_non_word. rewrite filter_all
        by (eapply Forall_impl; [exact Hslug | apply slug_kept]).
      rewrite collapse_fixed by (assumption || discriminate).
      now apply strip_id.
    - intros c r E. rewrite E in Hslug. inversion Hslug; subst.
      now apply slug_not_space.
    - intros r c E. rewrite E in Hslug. apply Forall_app in Hslug as [_ Hc].
      inversion Hc; subst. now apply slug_not_space. }
  split; [exact Hfixed |].
  intros text. apply Hfixed, slugify_shape.
Qed.

Lemma slugify_idempotent_witness : slugify "fix-login-bug" = "fix-login-bug".
Proof.
  apply (proj1 slugify_idempotent).
  split; [repeat constructor |].
  split; [now intros c r [= <- _] |].
  split.
  - intros r c E. apply (f_equal (@rev ascii)) in E.
    rewrite rev_app_distr in E. simpl in E. now injection E as <- _.
  - intros l1 l2 E.
    assert (H : existsb (fun p => Char.is_hyphen p.1 && Char.is_hyphen p.2)
                  (combine (Js.chars "fix-login-bug") (tl (Js.chars "fix-login-bug")))
                = true).
    { rewrite E. clear E. induction l1 as [|x l1 IH]; [reflexivity |].
      destruct l1 as [|y l1]; simpl in *; rewrite ?IH; now rewrite ?orb_true_r. }
    vm_compute in H. discriminate.
Defined.

Lemma alnum_survives c :
  is_alnum c = true ->
  Char.is_space (Char.to_lower c) = false /\
  (Char.is_word (Char.to_lower c) || Char.is_space (Char.to_lower c)
   || Char.is_hyphen (Char.to_lower c)) = true /\
  is_separator (Char.to_lower c) = false /\
  Char.is_hyphen (Char.to_lower c) = false.
Proof.
  destruct c as [[] [] [] [] [] [] [] []]; vm_compute; intros;
    repeat split; congruence.
Qed.

Lemma other_is_separator c :
  is_alnum c = false ->
  (Char.is_word (Char.to_lower c) || Char.is_space (Char.to_lower c)
   || Char.is_hyphen (Char.to_lower c)) = true ->
  is_separator (Char.to_lower c) = true.
Proof. by_cases_on_char c. Qed.

Lemma collapse_keeps b l x :
  In x l -> is_separator x = false -> In x (collapse_separators b l).
Proof.
  revert b. induction l as [|c l IH]; intros b; [intros [] |].
  intros [-> | Hin] Hx; simpl.
  - rewrite Hx. now left.
  - destruct (is_separator c); [destruct b |]; try right; now apply IH.
Qed.

Lemma collapse_separators_only b l :
  Forall (fun c => is_separator c = true) l ->
  Forall (fun c => Char.is_hyphen c = true) (collapse_separators b l).
Proof.
  intros H. revert b. induction H as [|c l Hc _ IH]; intros b; simpl; [constructor |].
  rewrite Hc. destruct b; [apply IH | constructor; [reflexivity | apply IH]].
Qed.

(** X9.  For a text of code units below 256, the slug is empty exactly
    when the text has no ASCII letter and no digit. *)
Theorem slugify_empty_iff text :
  slugify text = "" <-> Forall (fun c => is_alnum c = false) (Js.chars text).
Proof.
  split.
  - intros Hempty. apply List.Forall_forall. intros c Hc.
    destruct (is_alnum c) eqn:Ha; [| reflexivity]. exfalso.
    destruct (alnum_survives c Ha) as (Hspace & Hkept & Hsep & Hhyphen).
    assert (Hin : In (Char.to_lower c) (Js.chars (slugify text))).
    { rewrite slugify_unfold. apply strip_keeps; [| exact Hhyphen].
      apply collapse_keeps; [| exact Hsep].
      apply List.filter_In. split; [| exact Hkept].
      apply strip_keeps; [| exact Hspace]. now apply List.in_map. }
    rewrite Hempty in Hin. exact Hin.
  - intros Hnone. apply chars_inj. rewrite slugify_unfold.
    apply strip_all, collapse_separators_only.
    apply List.Forall_forall. intros x Hx.
    apply List.filter_In in Hx as [Hx Hkept].
    destruct (strip_infix Char.is_space (map Char.to_lower (Js.chars text)))
      as (pre & post & E).
    assert (Hin : In x (map Char.to_lower (Js.chars text))).
    { rewrite E, !in_app_iff. tauto. }
    apply List.in_map_iff in Hin as (c & <- & Hc).
    rewrite List.Forall_forall in Hnone.
    apply other_is_separator; [now apply Hnone | exact Hkept].
Qed.

Lemma slugify_empty_iff_witness : slugify " ?! -- _ (...) " = "".
Proof.
  apply slugify_empty_iff. vm_compute. repeat constructor.
Defined.

(** ** Subprocess promises *)

Lemma namer_pending_data request events st :
  namer_promise (fold_left (namer_step request) events st) = None ->
  Forall is_data events.
Proof.
  revert st. induction events as [|ev events IH]; intros st H; [constructor |].
  simpl in H. constructor; [| now apply IH in H].
  destruct ev as [d|d|code|message|message]; simpl; try exact I.
  - assert (Hs : exists v, namer_promise (namer_step request st (Close code)) = Some v).
    { simpl. destruct (decide _); simpl; destruct (namer_promise st); eexists; reflexivity. }
    destruct Hs as (v & Hv). rewrite (namer_run_settled _ _ _ _ Hv) in H. discriminate.
  - assert (Hs : exists v, namer_promise (namer_step request st (ProcError message)) = Some v).
    { simpl. destruct (namer_promise st); eexists; reflexivity. }
    destruct Hs as (v & Hv). rewrite (namer_run_settled _ _ _ _ Hv) in H. discriminate.
  - assert (Hs : exists v, namer_promise (namer_step request st (SpawnThrow message)) = Some v).
    { simpl. destruct (namer_promise st); eexists; reflexivity. }
    destruct Hs as (v & Hv). rewrite (namer_run_settled _ _ _ _ Hv) in H. discriminate.
Qed.

Lemma agent_pending_data events st :
  agent_promise (fold_left agent_step events st) = None -> Forall is_data events.
Proof.
  revert st. induction events as [|ev events IH]; intros st H; [constructor |].
  simpl in H. constructor; [| now apply IH in H].
  destruct ev as [d|d|code|message|message]; simpl; try exact I.
  - assert (Hs : exists v, agent_promise (agent_step st (Close code)) = Some v).
    { simpl. destruct (decide _); simpl; destruct (agent_promise st); eexists; reflexivity. }
    destruct Hs as (v & Hv). rewrite (agent_fold_settled _ _ _ Hv) in H. discriminate.
  - assert (Hs : exists v, agent_promise (agent_step st (ProcError message)) = Some v).
    { simpl. destruct (agent_promise st); eexists; reflexivity. }
    destruct Hs as (v & Hv). rewrite (agent_fold_settled _ _ _ Hv) in H. discriminate.
  - assert (Hs : exists v, agent_promise (agent_step st (SpawnThrow message)) = Some v).
    { simpl. destruct (agent_promise st); eexists; reflexivity. }
    destruct Hs as (v & Hv). rewrite (agent_fold_settled _ _ _ Hv) in H. discriminate.
Qed.

(** X10.  The promise of either subprocess is rejected at once, with the
    error thrown, when [spawn] itself throws; otherwise it is pending
    exactly as long as nothing but data has arrived.  Once it is settled no
    later event changes its outcome. *)
Theorem promises_settle_once (request : string) (events later : list ProcEvent) :
  (forall message,
     generateBranchName request (SpawnThrow message :: later) = Some (Rejected message) /\
     agent_promise (agent_run (SpawnThrow message :: later)) = Some (Rejected message)) /\
  (generateBranchName request events = None <-> Forall is_data events) /\
  (agent_promise (agent_run events) = None <-> Forall is_data events) /\
  (forall v, generateBranchName request events = Some v ->
     generateBranchName request (events ++ later) = Some v) /\
  (forall v, agent_promise (agent_run events) = Some v ->
     agent_promise (agent_run (events ++ later)) = Some v).
Proof.
  split; [| split; [| split; [| split]]].
  - intros message. split.
    + apply (namer_run_settled request later). reflexivity.
    + apply (agent_fold_settled later). reflexivity.
  - split; [apply namer_pending_data |].
    intros H. unfold generateBranchName. now rewrite namer_run_data.
  - split; [apply agent_pending_data |].
    intros H. unfold agent_run. now rewrite agent_fold_data.
  - intros v H. unfold generateBranchName in *. rewrite fold_left_app.
    now apply namer_run_settled.
  - intros v H. unfold agent_run in *. rewrite fold_left_app.
    now apply agent_fold_settled.
Qed.

Lemma promises_settle_once_witness :
  agent_promise
    (agent_run ([StderrData "out of credit"; Close (Some 1)] ++ [Close (Some 0)]))
  = Some (Rejected "Claude Code exited with code 1: out of credit").
Proof.
  apply (proj2 (proj2 (proj2 (proj2
           (promises_settle_once "" [StderrData "out of credit"; Close (Some 1)]
              [Close (Some 0)]))))).
  vm_compute. reflexivity.
Defined.



(** ** The pipeline as a table *)

Section Attachments.

Variable REPO_PATH : string.

Local Abbreviation tmp := (tempDir REPO_PATH).
Local Abbreviation path_of img i := (Path.join (tempDir REPO_PATH) (image_filename img i)).

(** One turn of the loop of [saveImages]. *)
Lemma save_each_cons img rest index saved s :
  (img_data img = None ->
   exists message, save_each REPO_PATH (img :: rest) index saved s = (Throw message, s)) /\
  (forall d, img_data img = Some d ->
     fs_writable (st_fs s) (path_of img index) = false ->
     exists message, save_each REPO_PATH (img :: rest) index saved s = (Throw message, s)) /\
  (forall d, img_data img = Some d ->
     fs_writable (st_fs s) (path_of img index) = true ->
     save_each REPO_PATH (img :: rest) index saved s
     = save_each REPO_PATH rest (S index) (saved ++ [path_of img index])
         (after_write s (path_of img index) d)).
Proof.
  split; [| split].
  - intros E. simpl. unfold bind at 1. rewrite E. simpl. eexists. reflexivity.
  - intros d E Hw. simpl. unfold bind at 1. rewrite E. simpl.
    unfold bind at 1. unfold writeFileSync, bind, get_fs, throw. simpl.
    rewrite Hw. eexists. reflexivity.
  - intros d E Hw. simpl. unfold bind at 1. rewrite E. simpl.
    unfold bind at 1. unfold writeFileSync, bind, get_fs, put_fs, emit. simpl.
    rewrite Hw. reflexivity.
Qed.

Lemma save_each_cases img rest index saved s :
  (exists message, save_each REPO_PATH (img :: rest) index saved s = (Throw message, s)) \/
  (exists d, img_data img = Some d /\
     fs_writable (st_fs s) (path_of img index) = true /\
     save_each REPO_PATH (img :: rest) index saved s
     = save_each REPO_PATH rest (S index) (saved ++ [path_of img index])
         (after_write s (path_of img index) d)).
Proof.
  destruct (save_each_cons img rest index saved s) as (Hnone & Hro & Hok).
  destruct (img_data img) as [d|] eqn:E; [| left; now apply Hnone].
  destruct (fs_writable (st_fs s) (path_of img index)) eqn:Hw.
  - right. exists d. repeat split. now apply Hok.
  - left. now apply (Hro d).
Qed.

(** Saving never touches the directories, writes only at the paths it
    builds, and ends by returning or throwing. *)
Lemma save_each_frame images index saved s :
  (exists paths, (save_each REPO_PATH images index saved s).1 = Val paths) \/
  (exists message, (save_each REPO_PATH images index saved s).1 = Throw message).
Proof.
  revert index saved s. induction images as [|img rest IH]; intros index saved s.
  - left. now exists saved.
  - destruct (save_each_cases img rest index saved s) as [[m ->] | (d & _ & _ & ->)].
    + right. now exists m.
    + apply IH.
Qed.

Lemma save_each_keeps (P : string -> Prop) images index saved s :
  (forall img i, In img images -> P (path_of img i)) ->
  fs_dirs (st_fs (save_each REPO_PATH images index saved s).2) = fs_dirs (st_fs s) /\
  forall p, ~ P p ->
    fs_files (st_fs (save_each REPO_PATH images index saved s).2) !! p
    = fs_files (st_fs s) !! p.
Proof.
  revert index saved s. induction images as [|img rest IH]; intros index saved s HP.
  - split; [reflexivity | intros; reflexivity].
  - destruct (save_each_cases img rest index saved s) as [[m ->] | (d & _ & _ & ->)].
    + split; [reflexivity | intros; reflexivity].
    + destruct (IH (S index) (saved ++ [path_of img index])
                  (after_write s (path_of img index) d)) as [Hd Hf].
      { intros img' i Hin. apply HP. now right. }
      split; [exact Hd |]. intros p Hp. rewrite (Hf p Hp). cbn.
      apply lookup_insert_ne. intros <-. apply Hp, HP. now left.
Qed.

Lemma image_paths_lookup images index i img :
  images !! i = Some img ->
  image_paths REPO_PATH images index !! i = Some (path_of img (index + i)).
Proof.
  revert index i. induction images as [|x rest IH]; intros index [|i] H;
    try discriminate; cbn in H |- *.
  - injection H as ->. now rewrite Nat.add_0_r.
  - rewrite Nat.add_succ_r. apply (IH (S index) i H).
Qed.

Lemma image_paths_length images index :
  length (image_paths REPO_PATH images index) = length images.
Proof.
  revert index. induction images as [|x rest IH]; intros index; [reflexivity |].
  cbn. now rewrite IH.
Qed.

Lemma save_each_val images index saved s paths s' :
  save_each REPO_PATH images index saved s = (Val paths, s') ->
  paths = saved ++ image_paths REPO_PATH images index /\
  fs_dirs (st_fs s') = fs_dirs (st_fs s) /\
  (forall p, p ∉ image_paths REPO_PATH images index ->
     fs_files (st_fs s') !! p = fs_files (st_fs s) !! p) /\
  (forall i img, images !! i = Some img ->
     exists d, img_data img = Some d /\
       ((forall j, (i < j)%nat ->
           image_paths REPO_PATH images index !! j <> Some (path_of img (index + i))) ->
        fs_files (st_fs s') !! path_of img (index + i) = Some d)).
Proof.
  revert index saved s. induction images as [|img rest IH]; intros index saved s H.
  - injection H as <- <-. rewrite app_nil_r. repeat split. intros i img Hi. discriminate.
  - destruct (save_each_cases img rest index saved s) as [[m E] | (d & Hd & Hw & E)];
      rewrite E in H; [discriminate |].
    destruct (IH _ _ _ H) as (Hpaths & Hdirs & Hother & Hmine).
    split; [| split; [| split]].
    + rewrite Hpaths, <- app_assoc. reflexivity.
    + exact Hdirs.
    + intros p Hp. cbn in Hp. apply not_elem_of_cons in Hp as [Hne Hp].
      rewrite (Hother p Hp). cbn. now apply lookup_insert_ne.
    + intros [|i] img' Hi; cbn in Hi.
      * injection Hi as <-. exists d. split; [exact Hd |]. intros Hlater.
        rewrite Nat.add_0_r in *. rewrite Hother.
        -- cbn. apply lookup_insert_eq.
        -- intros Hin. apply list_elem_of_lookup in Hin as [j Hj].
           apply (Hlater (S j)); [lia | exact Hj].
      * destruct (Hmine i img' Hi) as (d' & Hd' & Hlast).
        exists d'. split; [exact Hd' |]. intros Hlater.
        replace (index + S i)%nat with (S index + i)%nat in * by lia.
        apply Hlast. intros j Hj. apply (Hlater (S j)). lia.
Qed.

(** How [saveImages] starts: the directory is created when it is missing. *)
Lemma saveImages_start images s :
  exists s1,
    saveImages REPO_PATH images s = save_each REPO_PATH images 0 [] s1 /\
    fs_files (st_fs s1) = fs_files (st_fs s) /\
    fs_dirs (st_fs s1)
    = (if fs_exists (st_fs s) tmp then fs_dirs (st_fs s) else {[ tmp ]} ∪ fs_dirs (st_fs s)).
Proof.
  unfold saveImages. unfold bind at 1. unfold get_fs at 1. cbv beta iota.
  destruct (fs_exists (st_fs s) tmp).
  - exists s. repeat split.
  - rewrite bind_assoc. unfold bind at 1. unfold put_fs at 1. cbv beta iota.
    rewrite bind_emit. eexists. split; [reflexivity |]. split; reflexivity.
Qed.

Lemma saveImages_outcome images s :
  (exists paths, (saveImages REPO_PATH images s).1 = Val paths) \/
  (exists message, (saveImages REPO_PATH images s).1 = Throw message).
Proof.
  destruct (saveImages_start images s) as (s1 & -> & _). apply save_each_frame.
Qed.

(** X12.  When [saveImages] returns, it returns one path per attachment,
    in order: the attachment directory joined with the attachment's name,
    or with [image-<position>.png] when it has none.  Every attachment
    carried data, and the file at its path holds that data unless a later
    attachment was written to the same path. *)
Theorem saved_attachments images s paths s' :
  saveImages REPO_PATH images s = (Val paths, s') ->
  paths = image_paths REPO_PATH images 0 /\
  length paths = length images /\
  forall i img, images !! i = Some img ->
    exists d, img_data img = Some d /\
      paths !! i = Some (path_of img i) /\
      ((forall j, (i < j)%nat -> paths !! j <> Some (path_of img i)) ->
       fs_files (st_fs s') !! path_of img i = Some d).
Proof.
  intros H. destruct (saveImages_start images s) as (s1 & E & _). rewrite E in H.
  destruct (save_each_val _ _ _ _ _ _ H) as (-> & _ & _ & Hmine). cbn [app].
  split; [reflexivity |]. split; [apply image_paths_length |].
  intros i img Hi. destruct (Hmine i img Hi) as (d & Hd & Hlast).
  exists d. split; [exact Hd |]. split; [apply (image_paths_lookup images 0 i img Hi) |].
  exact Hlast.
Qed.

Lemma unnamed_filename img index :
  unnamed img -> image_filename img index = "image-" +:+ Js.of_index index +:+ ".png".
Proof. unfold image_filename. now intros [-> | ->]. Qed.

Lemma unnamed_plain img : unnamed img -> plain_image img.
Proof. unfold plain_image. intros [-> | ->]; [exact I | now left]. Qed.

Lemma plain_path img index :
  REPO_PATH <> "" -> plain_image img ->
  path_of img index = tmp +:+ "/" +:+ image_filename img index.
Proof.
  intros Hrepo Himg. unfold tempDir.
  apply join_plain_twice; [exact Hrepo | apply temp_name_plain |].
  now apply image_filename_plain.
Qed.

Lemma default_name_inj dir i j :
  dir +:+ "/" +:+ "image-" +:+ Js.of_index i +:+ ".png"
  = dir +:+ "/" +:+ "image-" +:+ Js.of_index j +:+ ".png" -> i = j.
Proof.
  intros H. apply (f_equal Js.chars) in H. rewrite !chars_app in H.
  do 3 apply app_inv_head in H. apply app_inv_tail in H.
  apply chars_inj in H. now apply pretty_nat_inj in H.
Qed.

(** X13.  When every attachment of the list is unnamed (no name, or the
    empty name) and [saveImages] returns, none has overwritten another: the
    attachment at position [i] is stored at
    [<attachment directory>/image-<i>.png] with its own data, and that is
    the path returned for it. *)
Theorem unnamed_attachments_all_stored images s paths s' :
  REPO_PATH <> "" -> Forall unnamed images ->
  saveImages REPO_PATH images s = (Val paths, s') ->
  forall i img, images !! i = Some img ->
    paths !! i = Some (tmp +:+ "/" +:+ "image-" +:+ Js.of_index i +:+ ".png") /\
    fs_files (st_fs s') !! (tmp +:+ "/" +:+ "image-" +:+ Js.of_index i +:+ ".png")
    = img_data img.
Proof.
  intros Hrepo Hall H i img Hi.
  assert (Hpath : forall k x, images !! k = Some x ->
            path_of x k = tmp +:+ "/" +:+ "image-" +:+ Js.of_index k +:+ ".png").
  { intros k x Hk.
    assert (Hx : unnamed x).
    { apply (proj1 (List.Forall_forall _ _) Hall). apply list_elem_of_In.
      apply list_elem_of_lookup. now exists k. }
    rewrite (plain_path x k Hrepo (unnamed_plain x Hx)).
    now rewrite (unnamed_filename x k Hx). }
  destruct (saveImages_start images s) as (s1 & E & _). rewrite E in H.
  destruct (save_each_val _ _ _ _ _ _ H) as (-> & _ & _ & Hmine). cbn [app].
  destruct (Hmine i img Hi) as (d & Hd & Hlast). cbn [Nat.add] in Hlast.
  rewrite (image_paths_lookup images 0 i img Hi). cbn [Nat.add].
  rewrite (Hpath i img Hi) in *. split; [reflexivity |]. rewrite Hd.
  apply Hlast. intros j Hj Hsame.
  destruct (images !! j) as [x|] eqn:Hx.
  - rewrite (image_paths_lookup images 0 j x Hx) in Hsame. cbn [Nat.add] in Hsame.
    rewrite (Hpath j x Hx) in Hsame. injection Hsame as Hsame.
    apply default_name_inj in Hsame. lia.
  - apply lookup_ge_None in Hx. apply lookup_lt_Some in Hsame.
    rewrite image_paths_length in Hsame. lia.
Qed.

Lemma nothing_at_missing fs dir : nothing_at fs dir -> fs_exists fs dir = false.
Proof.
  intros [Hd Hf]. unfold fs_exists. apply orb_false_intro.
  - apply bool_decide_eq_false. intros H. now destruct (Hd dir H).
  - apply bool_decide_eq_false. intros [v H]. now destruct (Hf dir v H).
Qed.

(** X14.  Removing the attachment directory undoes the saving of
    attachments with plain names: if nothing was at or below the directory
    before, then after [saveImages], however it ended, [cleanupImages]
    leaves the file system exactly as [saveImages] found it. *)
Theorem cleanup_undoes_save images s :
  REPO_PATH <> "" -> Forall plain_image images ->
  nothing_at (st_fs s) tmp ->
  st_fs (cleanupImages REPO_PATH (saveImages REPO_PATH images s).2).2 = st_fs s.
Proof.
  intros Hrepo Hplain Hclear.
  destruct (saveImages_start images s) as (s1 & -> & Hfiles1 & Hdirs1).
  rewrite (nothing_at_missing _ _ Hclear) in Hdirs1.
  destruct (save_each_keeps (fun p => Path.inside tmp p = true) images 0 [] s1)
    as [Hdirs Hfiles].
  { intros img i Hin. apply plain_file_inside; [exact Hrepo |].
    now apply (proj1 (List.Forall_forall _ _) Hplain). }
  set (s2 := (save_each REPO_PATH images 0 [] s1).2) in *.
  assert (Hthere : fs_exists (st_fs s2) tmp = true).
  { unfold fs_exists. apply orb_true_intro. left. apply bool_decide_eq_true.
    rewrite Hdirs, Hdirs1. apply elem_of_union. left. now apply elem_of_singleton. }
  unfold cleanupImages. unfold bind at 1. unfold get_fs at 1. cbv beta iota.
  rewrite Hthere. unfold bind, put_fs, emit. cbn [snd st_fs].
  destruct Hclear as [Hd Hf]. unfold fs_rm_rf.
  destruct (st_fs s) as [dirs files] eqn:Efs. cbn [fs_dirs fs_files] in *. f_equal.
  - rewrite Hdirs, Hdirs1. apply set_eq. intros q.
    rewrite elem_of_filter, elem_of_union, elem_of_singleton. split.
    + intros [[Hne _] [-> | Hq]]; [congruence | exact Hq].
    + intros Hq. split; [now apply Hd | now right].
  - apply map_eq. intros k. apply option_eq. intros v.
    rewrite map_lookup_filter_Some. cbn [fst]. split.
    + intros [Hk [_ Hout]]. rewrite Hfiles, Hfiles1 in Hk; [exact Hk |].
      now rewrite Hout.
    + intros Hk. assert (Hkeep : k <> tmp /\ Path.inside tmp k = false).
      { exact (Hf k v Hk). }
      split; [| exact Hkeep]. rewrite Hfiles, Hfiles1; [exact Hk |].
      destruct Hkeep as [_ ->]. discriminate.
Qed.

End Attachments.

Lemma saved_attachments_witness :
  fs_files (st_fs (saveImages "/workspace/repo" images_mixed (mkSt fs_ready [] [] None)).2)
    !! "/workspace/repo/.claude-temp-images/image-1.png"
  = Some "BBBB".
Proof.
  assert (H : saveImages "/workspace/repo" images_mixed (mkSt fs_ready [] [] None)
              = (Val ["/workspace/repo/.claude-temp-images/mockup.png";
                      "/workspace/repo/.claude-temp-images/image-1.png"],
                 (saveImages "/workspace/repo" images_mixed (mkSt fs_ready [] [] None)).2))
    by (vm_compute; reflexivity).
  destruct (proj2 (proj2 (saved_attachments "/workspace/repo" _ _ _ _ H))
              1%nat (mkImage None (Some "BBBB")) eq_refl) as (d & Hd & _ & Hlast).
  injection Hd as <-. apply Hlast.
  intros [|[|j]] Hj; [lia | lia | discriminate].
Defined.

Lemma unnamed_attachments_all_stored_witness :
  fs_files (st_fs (saveImages "/workspace/repo" images_unnamed
                     (mkSt fs_ready [] [] None)).2)
    !! "/workspace/repo/.claude-temp-images/image-1.png"
  = Some "BBBB".
Proof.
  assert (H : saveImages "/workspace/repo" images_unnamed (mkSt fs_ready [] [] None)
              = (Val ["/workspace/repo/.claude-temp-images/image-0.png";
                      "/workspace/repo/.claude-temp-images/image-1.png"],
                 (saveImages "/workspace/repo" images_unnamed
                    (mkSt fs_ready [] [] None)).2))
    by (vm_compute; reflexivity).
  refine (proj2 (unnamed_attachments_all_stored "/workspace/repo" images_unnamed
                   _ _ _ _ _ H 1%nat (mkImage (Some "") (Some "BBBB")) eq_refl)).
  - discriminate.
  - constructor; [now left | constructor; [now right | constructor]].
Defined.

Lemma cleanup_undoes_save_witness :
  st_fs (cleanupImages "/workspace/repo"
           (saveImages "/workspace/repo" images_mixed (mkSt fs_ready [] [] None)).2).2
  = fs_ready.
Proof.
  apply (cleanup_undoes_save "/workspace/repo" images_mixed (mkSt fs_ready [] [] None)).
  - discriminate.
  - constructor; [| constructor; [exact I | constructor]].
    right. repeat split; try discriminate.
    intros H. vm_compute in H. decompose [or] H; discriminate || contradiction.
  - apply (bool_decide_unpack _). vm_compute. exact I.
Defined.

Section Tables.

Variables REPO_PATH BB_WORKSPACE BB_REPO : string.

Local Abbreviation handle := (handleChangeRequest REPO_PATH BB_WORKSPACE BB_REPO).
Local Abbreviation run_pipeline := (pipeline REPO_PATH BB_WORKSPACE BB_REPO).
Local Abbreviation tmp := (tempDir REPO_PATH).
Local Abbreviation sync := (synchronize_and_run BB_WORKSPACE BB_REPO).
Local Abbreviation verify := (verify_and_publish BB_WORKSPACE BB_REPO).
Local Abbreviation table := (run_table BB_WORKSPACE BB_REPO).
Local Abbreviation final w parsed fs := (handle w parsed (mkSt fs [] [] None)).2.

Lemma logged_nil s : logged s [] = s.
Proof. destruct s. unfold logged. simpl. now rewrite app_nil_r. Qed.

Lemma bind_respond {B} st b (k : unit -> M B) s :
  bind (respond st b) k s
  = k tt (mkSt (st_fs s) (st_trace s) (st_imagePaths s) (Some (mkResponse st b))).
Proof. reflexivity. Qed.

(** [verify_and_publish] does what its table says. *)
Lemma verify_refines w request s :
  verify w request s = apply_run (verify_table BB_WORKSPACE BB_REPO w request) s.
Proof.
  unfold verify_and_publish, getCurrentBranch, verify_table.
  fold cmd_rev_parse.
  destruct (w_exec w cmd_rev_parse) as [out|e] eqn:E1;
    [rewrite (bind_exec_ok _ _ _ _ _ E1) | now rewrite (bind_exec_fail _ _ _ _ _ E1)].
  destruct (negb (Js.startsWith "claude/" (Js.trim out))); [reflexivity |].
  fold (cmd_rev_list (Js.trim out)).
  destruct (w_exec w (cmd_rev_list (Js.trim out))) as [counted|e] eqn:E2;
    [rewrite (bind_exec_ok _ _ _ _ _ E2)
    | rewrite (bind_exec_fail _ _ _ _ _ E2), logged_logged; reflexivity].
  destruct (decide (parseInt (Js.trim counted) = Some 0)).
  { rewrite bind_respond, logged_logged. reflexivity. }
  fold (cmd_push (Js.trim out)).
  destruct (w_exec w (cmd_push (Js.trim out))) as [pushed|e] eqn:E3;
    [rewrite (bind_exec_ok _ _ _ _ _ E3)
    | rewrite (bind_exec_fail _ _ _ _ _ E3), !logged_logged; reflexivity].
  unfold createBitbucketPR. rewrite bind_assoc, bind_emit, !logged_logged.
  fold (forge_call BB_WORKSPACE BB_REPO request (Js.trim out)).
  destruct (w_fetch w); reflexivity.
Qed.

(** [synchronize_and_run] does what its table says. *)
Lemma sync_refines w request s :
  sync w request s = apply_run (table w request (st_imagePaths s)) s.
Proof.
  unfold synchronize_and_run, run_table.
  destruct (w_exec w "git fetch origin") as [o1|e1] eqn:E1;
    [rewrite (bind_exec_ok _ _ _ _ _ E1) | now rewrite (bind_exec_fail _ _ _ _ _ E1)].
  destruct (w_exec w "git checkout master") as [o2|e2] eqn:E2;
    [rewrite (bind_exec_ok _ _ _ _ _ E2)
    | rewrite (bind_exec_fail _ _ _ _ _ E2), !logged_logged; reflexivity].
  destruct (w_exec w "git reset --hard origin/master") as [o3|e3] eqn:E3;
    [rewrite (bind_exec_ok _ _ _ _ _ E3)
    | rewrite (bind_exec_fail _ _ _ _ _ E3), !logged_logged; reflexivity].
  rewrite bind_emit, !logged_logged.
  destruct (generateBranchName request (w_namer w)) as [[slug|e4]|];
    [rewrite (bind_await_resolved _ slug _ _ eq_refl)
    | rewrite (bind_await_rejected _ e4 _ _ eq_refl); reflexivity
    | rewrite (bind_await_pending _ _ _ eq_refl); reflexivity].
  fold (cmd_checkout_new (branchName slug (w_now w))).
  destruct (w_exec w (cmd_checkout_new (branchName slug (w_now w)))) as [o5|e5] eqn:E5;
    [rewrite (bind_exec_ok _ _ _ _ _ E5)
    | rewrite (bind_exec_fail _ _ _ _ _ E5), !logged_logged; reflexivity].
  rewrite logged_logged.
  unfold bind at 1. unfold get_imagePaths at 1. cbv beta iota.
  unfold runClaudeCode. rewrite bind_assoc, bind_emit, logged_logged.
  cbn [logged st_imagePaths].
  destruct (agent_promise (agent_run (w_agent w))) as [[out|e6]|];
    [rewrite (bind_await_resolved _ out _ _ eq_refl)
    | rewrite (bind_await_rejected _ e6 _ _ eq_refl); unfold apply_run, logged;
      simpl; now rewrite <- ?app_assoc
    | rewrite (bind_await_pending _ _ _ eq_refl); unfold apply_run, logged;
      simpl; now rewrite <- ?app_assoc].
  rewrite verify_refines.
  destruct (verify_table BB_WORKSPACE BB_REPO w request) as [[t o] resp].
  unfold apply_run. simpl. now rewrite <- !app_assoc.
Qed.

Lemma saveImages_fs images s :
  exists t,
    st_trace (saveImages REPO_PATH images s).2 = st_trace s ++ t /\
    Forall (fun e => is_fs_effect e = true) t /\
    st_response (saveImages REPO_PATH images s).2 = st_response s.
Proof.
  assert (Hstart : exists s1 pre,
            saveImages REPO_PATH images s = save_each REPO_PATH images 0 [] s1 /\
            st_trace s1 = st_trace s ++ pre /\
            Forall (fun e => is_fs_effect e = true) pre /\
            st_response s1 = st_response s).
  { unfold saveImages. unfold bind at 1. unfold get_fs at 1. cbv beta iota.
    destruct (fs_exists (st_fs s) tmp).
    - exists s, []. rewrite app_nil_r. repeat split. constructor.
    - rewrite bind_assoc. unfold bind at 1. unfold put_fs at 1. cbv beta iota.
      rewrite bind_emit. eexists _, [_]. repeat split. repeat constructor. }
  destruct Hstart as (s1 & pre & -> & Hpre & Hfs & Hresp).
  destruct (save_each_spec REPO_PATH (fun _ => True) images 0 [] s1)
    as (t & Ht & Hall & Hr & _); [auto |].
  exists (pre ++ t). rewrite Ht, Hpre, Hr, <- app_assoc.
  split; [reflexivity |]. split; [| exact Hresp].
  apply Forall_app. split; [exact Hfs |].
  eapply Forall_impl; [exact Hall |]. now intros e (p & d & -> & _).
Qed.

Lemma finally_fs s :
  exists s2 t,
    finally_block REPO_PATH s = (Val tt, s2) /\
    st_response s2 = st_response s /\
    st_trace s2 = st_trace s ++ t /\
    Forall (fun e => is_fs_effect e = true) t /\
    (st_imagePaths s = [] -> s2 = s).
Proof.
  unfold finally_block, bind, get_imagePaths. simpl.
  destruct (st_imagePaths s) as [|p ps].
  - exists s, []. rewrite app_nil_r. repeat split. constructor.
  - unfold cleanupImages, bind, get_fs. simpl.
    destruct (fs_exists (st_fs s) tmp); simpl.
    + eexists _, [_]. repeat split; [repeat constructor | discriminate].
    + exists s, []. rewrite app_nil_r. repeat split. constructor.
Qed.

(** How the handler ends, given how its [try] block ends. *)
Lemma handle_after w parsed s o s1 :
  run_pipeline w parsed (mkSt (st_fs s) (st_trace s) [] (st_response s)) = (o, s1) ->
  exists t_fin,
    Forall (fun e => is_fs_effect e = true) t_fin /\
    st_trace (handle w parsed s).2 = st_trace s1 ++ t_fin /\
    (handle w parsed s).1 = match o with Throw _ => Val tt | _ => o end /\
    st_response (handle w parsed s).2
    = match o with
      | Throw message => Some (mkResponse 500 (ErrorBody message))
      | _ => st_response s1
      end /\
    (st_imagePaths s1 = [] -> t_fin = [] /\ st_fs (handle w parsed s).2 = st_fs s1).
Proof.
  intros Hp. rewrite handle_unfold. unfold try_catch_finally. rewrite Hp.
  destruct o as [[]|message| |]; cbv beta iota zeta delta [respond].
  - destruct (finally_fs s1) as (s2 & t & -> & Hr & Ht & Hfs & Hsame).
    exists t. cbn [fst snd]. do 4 (split; [auto |]).
    intros Hnil. specialize (Hsame Hnil). subst s2. split; [| reflexivity].
    apply (f_equal (@length Effect)) in Ht. rewrite length_app in Ht.
    destruct t; [reflexivity | simpl in Ht; lia].
  - destruct (finally_fs (mkSt (st_fs s1) (st_trace s1) (st_imagePaths s1)
                            (Some (mkResponse 500 (ErrorBody message)))))
      as (s2 & t & -> & Hr & Ht & Hfs & Hsame).
    exists t. cbn [fst snd]. do 4 (split; [auto |]).
    intros Hnil. specialize (Hsame Hnil). subst s2. split; [| reflexivity].
    apply (f_equal (@length Effect)) in Ht. rewrite length_app in Ht.
    destruct t; [reflexivity | simpl in Ht; lia].
  - destruct (finally_fs s1) as (s2 & t & -> & Hr & Ht & Hfs & Hsame).
    exists t. cbn [fst snd]. do 4 (split; [auto |]).
    intros Hnil. specialize (Hsame Hnil). subst s2. split; [| reflexivity].
    apply (f_equal (@length Effect)) in Ht. rewrite length_app in Ht.
    destruct t; [reflexivity | simpl in Ht; lia].
  - exists []. cbn [fst snd]. rewrite app_nil_r. repeat split. constructor.
Qed.

Ltac early_case Hearly :=
  apply Hearly; try reflexivity;
  first [ left; eexists; reflexivity
        | right; split; [reflexivity | eexists; split; [reflexivity | cbn; auto]] ].

(** Every run of the handler either stops before the first git command,
    having at most saved attachments, or is a row of the table placed
    between the saving and the removal of the attachments. *)
Lemma handle_cases w parsed fs :
  stopped_early (handle w parsed (mkSt fs [] [] None)).1 (st_trace (final w parsed fs))
    (st_response (final w parsed fs)) \/
  exists request images paths t_img t_fin,
    parsed = BodyObject (Some request) images /\ request <> "" /\
    fs_exists fs (Path.join REPO_PATH ".clone-complete") = true /\
    attachments_saved REPO_PATH images fs paths /\
    Forall (fun e => is_fs_effect e = true) t_img /\
    Forall (fun e => is_fs_effect e = true) t_fin /\
    st_trace (final w parsed fs) = t_img ++ (table w request paths).1.1 ++ t_fin /\
    (handle w parsed (mkSt fs [] [] None)).1
    = match (table w request paths).1.2 with Throw _ => Val tt | o => o end /\
    st_response (final w parsed fs)
    = match (table w request paths).1.2 with
      | Throw message => Some (mkResponse 500 (ErrorBody message))
      | _ => (table w request paths).2
      end.
Proof.
  destruct (run_pipeline w parsed (mkSt fs [] [] None)) as [o s1] eqn:Hp.
  destruct (handle_after w parsed (mkSt fs [] [] None) o s1 Hp)
    as (t_fin & Hfin & Htrace & Hout & Hresp & Hnil).
  assert (Hearly : st_trace s1 = [] -> st_imagePaths s1 = [] ->
            ((exists message, o = Throw message) \/
             (o = Return /\ exists r, st_response s1 = Some r /\
                             (status r = 400 \/ status r = 503))) ->
            stopped_early (handle w parsed (mkSt fs [] [] None)).1
              (st_trace (final w parsed fs)) (st_response (final w parsed fs))).
  { intros Ht Hi Ho. split.
    { rewrite Htrace, Ht. now destruct (Hnil Hi) as [-> _]. }
    rewrite Hout, Hresp. destruct Ho as [[message ->] | [-> (r & -> & Hr)]].
    - repeat split; try discriminate. eexists. split; [reflexivity | cbn; auto].
    - repeat split; try discriminate. exists r. split; [reflexivity | tauto]. }
  assert (Hrun : forall request images paths s' t_img,
            parsed = BodyObject (Some request) images -> request <> "" ->
            fs_exists fs (Path.join REPO_PATH ".clone-complete") = true ->
            st_trace s' = t_img -> st_response s' = None -> st_imagePaths s' = paths ->
            Forall (fun e => is_fs_effect e = true) t_img ->
            sync w request s' = (o, s1) ->
            attachments_saved REPO_PATH images fs paths ->
            exists request images paths t_img t_fin,
              parsed = BodyObject (Some request) images /\ request <> "" /\
              fs_exists fs (Path.join REPO_PATH ".clone-complete") = true /\
    attachments_saved REPO_PATH images fs paths /\
              Forall (fun e => is_fs_effect e = true) t_img /\
              Forall (fun e => is_fs_effect e = true) t_fin /\
              st_trace (final w parsed fs) = t_img ++ (table w request paths).1.1 ++ t_fin /\
              (handle w parsed (mkSt fs [] [] None)).1
              = match (table w request paths).1.2 with Throw _ => Val tt | o => o end /\
              st_response (final w parsed fs)
              = match (table w request paths).1.2 with
                | Throw message => Some (mkResponse 500 (ErrorBody message))
                | _ => (table w request paths).2
                end).
  { intros request images paths s' t_img Hparsed Hreq Hready Ht Hr Hi Himg Hsync Hsaved.
    exists request, images, paths, t_img, t_fin.
    rewrite sync_refines, Hi in Hsync.
    destruct (table w request paths) as [[t o'] resp] eqn:Htab.
    unfold apply_run in Hsync. injection Hsync as <- <-.
    simpl in Htrace, Hresp. rewrite Ht in Htrace. rewrite Hr in Hresp.
    cbn [fst snd]. rewrite Htrace, Hout, Hresp, <- app_assoc.
    repeat (split; [assumption || reflexivity |]).
    destruct o' as [[]| | |]; destruct resp; split; reflexivity. }
  unfold pipeline, isRepoReady in Hp. rewrite bind_assoc in Hp.
  unfold bind at 1 in Hp. unfold get_fs at 1 in Hp. cbv beta iota in Hp.
  unfold bind at 1 in Hp. unfold ret at 1 in Hp. cbv beta iota in Hp.
  cbn [st_fs] in Hp.
  destruct (fs_exists fs (Path.join REPO_PATH ".clone-complete")) eqn:Hready;
    cbv beta iota delta [negb] in Hp.
  2:{ left. injection Hp as <- <-. early_case Hearly. }
  destruct parsed as [message | [[|c request]|] images].
  - left. injection Hp as <- <-. early_case Hearly.
  - left. injection Hp as <- <-. early_case Hearly.
  - destruct images as [[|img imgs]|].
    + right. eapply (Hrun (String c request) (Some []) [] (mkSt fs [] [] None) []);
        try reflexivity; [discriminate | constructor | exact Hp].
    + cbv iota in Hp. rewrite bind_assoc in Hp.
      destruct (saveImages_fs (img :: imgs) (mkSt fs [] [] None)) as (t & Ht & Hfs & Hr).
      destruct (saveImages_spec REPO_PATH (img :: imgs) (mkSt fs [] [] None))
        as (_ & _ & _ & _ & Hpaths).
      assert (Hfailed : forall e s',
                saveImages REPO_PATH (img :: imgs) (mkSt fs [] [] None) = (Throw e, s') ->
                stopped_early
                  (handle w (BodyObject (Some (String c request)) (Some (img :: imgs)))
                     (mkSt fs [] [] None)).1
                  (st_trace (final w (BodyObject (Some (String c request))
                                        (Some (img :: imgs))) fs))
                  (st_response (final w (BodyObject (Some (String c request))
                                           (Some (img :: imgs))) fs))).
      { intros e s' E. rewrite E in Ht, Hpaths. simpl in Ht, Hpaths.
        rewrite (bind_throw _ _ _ _ _ E) in Hp. injection Hp as <- <-.
        split.
        { rewrite Htrace. destruct (Hnil Hpaths) as [-> _]. now rewrite app_nil_r, Ht. }
        rewrite Hout, Hresp. repeat split; try discriminate.
        eexists. split; [reflexivity | cbn; auto]. }
      pose proof (saveImages_outcome REPO_PATH (img :: imgs) (mkSt fs [] [] None))
        as Hends.
      destruct (saveImages REPO_PATH (img :: imgs) (mkSt fs [] [] None))
        as [[paths|e| |] s'] eqn:E; simpl in Ht, Hr, Hends.
      * right. rewrite (bind_val _ _ _ _ _ E) in Hp.
        eapply (Hrun (String c request) (Some (img :: imgs)) paths
                  (mkSt (st_fs s') (st_trace s') paths (st_response s')) t);
          try reflexivity; [discriminate | exact Ht | exact Hr | exact Hfs | exact Hp |].
        unfold attachments_saved. now rewrite E.
      * left. now apply (Hfailed e s').
      * destruct Hends as [[? Hv] | [? Hv]]; discriminate Hv.
      * destruct Hends as [[? Hv] | [? Hv]]; discriminate Hv.
    + right. eapply (Hrun (String c request) None [] (mkSt fs [] [] None) []);
        try reflexivity; [discriminate | constructor | exact Hp].
  - left. injection Hp as <- <-. early_case Hearly.
Qed.

Lemma actions_app t1 t2 : actions (t1 ++ t2) = actions t1 ++ actions t2.
Proof. apply List.filter_app. Qed.

Lemma actions_fs t : Forall (fun e => is_fs_effect e = true) t -> actions t = [].
Proof.
  induction 1 as [|e t He _ IH]; [reflexivity |].
  unfold actions in *. simpl. now rewrite He.
Qed.

Lemma actions_in e t : In e t -> is_fs_effect e = false -> In e (actions t).
Proof. intros Hin He. apply List.filter_In. split; [exact Hin | now rewrite He]. Qed.

Lemma in_actions e t : In e (actions t) -> In e t.
Proof. intros H. now apply List.filter_In in H as [H _]. Qed.

(** The actions of a run that reaches the table are those of its row. *)
Lemma actions_of_run t_img row t_fin :
  Forall (fun e => is_fs_effect e = true) t_img ->
  Forall (fun e => is_fs_effect e = true) t_fin ->
  actions (t_img ++ row ++ t_fin) = actions row.
Proof.
  intros H1 H2. rewrite !actions_app, (actions_fs t_img H1), (actions_fs t_fin H2).
  now rewrite app_nil_r.
Qed.

Ltac table_cases :=
  unfold run_table, verify_table;
  repeat match goal with
    | |- context [match w_exec ?w ?c with _ => _ end] =>
        let E := fresh "Hexec" in destruct (w_exec w c) eqn:E
    | |- context [match generateBranchName ?r ?e with _ => _ end] =>
        let E := fresh "Hname" in destruct (generateBranchName r e) as [[?|?]|] eqn:E
    | |- context [match agent_promise ?a with _ => _ end] =>
        let E := fresh "Hagent" in destruct (agent_promise a) as [[?|?]|] eqn:E
    | |- context [if negb (Js.startsWith ?p ?b) then _ else _] =>
        let E := fresh "Hprefix" in destruct (Js.startsWith p b) eqn:E; cbn [negb]
    | |- context [if decide (parseInt ?c = Some 0) then _ else _] =>
        let E := fresh "Hcount" in destruct (decide (parseInt c = Some 0)) as [E|E]
    | |- context [match w_fetch ?w with _ => _ end] =>
        let E := fresh "Hforge" in destruct (w_fetch w) eqn:E
    end;
  cbn [fst snd app].

(** X15.  In every run the commands, subprocesses and forge call come in
    one fixed order and form an initial stretch of it: fetch, checkout of
    master, hard reset, the naming subprocess for the request, creation of
    the branch, the agent with the prompt for the request and the saved
    attachment paths, the branch read-back, the commit count, the push, the
    pull request.  No step is run unless all the steps before it were. *)
Theorem run_follows_the_sequence w parsed fs :
  exists request imagePaths name branch rest,
    run_sequence BB_WORKSPACE BB_REPO request imagePaths name branch
    = actions (st_trace (final w parsed fs)) ++ rest /\
    (actions (st_trace (final w parsed fs)) <> [] ->
     exists images,
       parsed = BodyObject (Some request) images /\
       attachments_saved REPO_PATH images fs imagePaths).
Proof.
  destruct (handle_cases w parsed fs)
    as [[Hfs _] | (request & images & paths & t_img & t_fin & Hp & _ & _ & Hsaved & Himg
                   & Hfin & Ht & _)].
  - rewrite (actions_fs _ Hfs). exists "", [], "", "". eexists.
    split; [reflexivity | congruence].
  - rewrite Ht, (actions_of_run _ _ _ Himg Hfin). clear Ht.
    exists request, paths.
    table_cases; eexists _, _, _;
      (split; [unfold run_sequence; reflexivity | intros _; now exists images]).
    Unshelve. all: exact "".
Qed.

Lemma fs_only_no_action e t :
  Forall (fun e => is_fs_effect e = true) t -> is_fs_effect e = false -> ~ In e t.
Proof.
  intros Hall He Hin. apply (proj1 (List.Forall_forall _ _) Hall) in Hin. congruence.
Qed.

(** An action of a run is an action of its row of the table. *)
Lemma action_in_row w parsed fs e :
  In e (st_trace (final w parsed fs)) -> is_fs_effect e = false ->
  exists request images paths,
    parsed = BodyObject (Some request) images /\
    attachments_saved REPO_PATH images fs paths /\
    In e (table w request paths).1.1 /\
    (forall e', In e' (table w request paths).1.1 ->
                In e' (st_trace (final w parsed fs))) /\
    (exists t_img t_fin,
        Forall (fun e => is_fs_effect e = true) t_img /\
        Forall (fun e => is_fs_effect e = true) t_fin /\
        st_trace (final w parsed fs) = t_img ++ (table w request paths).1.1 ++ t_fin) /\
    st_response (final w parsed fs)
    = match (table w request paths).1.2 with
      | Throw message => Some (mkResponse 500 (ErrorBody message))
      | _ => (table w request paths).2
      end.
Proof.
  intros Hin He.
  destruct (handle_cases w parsed fs)
    as [[Hfs _] | (request & images & paths & t_img & t_fin & Hp & _ & _ & Hsaved & Himg & Hfin
                 & Ht & _ & Hr)].
  - now destruct (fs_only_no_action e _ Hfs He).
  - exists request, images, paths. split; [exact Hp |]. split; [exact Hsaved |].
    split; [| split; [| split; [now exists t_img, t_fin | exact Hr]]].
    + apply in_actions. rewrite <- (actions_of_run _ _ _ Himg Hfin), <- Ht.
      now apply actions_in.
    + intros e' Hin'. rewrite Ht. apply in_or_app. right. apply in_or_app. now left.
Qed.

Lemma is_push_checkout name : is_push (cmd_checkout_new name) = false.
Proof. reflexivity. Qed.

Lemma is_push_rev_list branch : is_push (cmd_rev_list branch) = false.
Proof. reflexivity. Qed.

Lemma branchName_prefix slug now : Js.startsWith "claude/" (branchName slug now) = true.
Proof. apply prefix_app. Qed.

Lemma is_push_push branch : is_push (cmd_push branch) = true.
Proof. apply (prefix_app "git push" (" -u origin " +:+ dq +:+ branch +:+ dq)). Qed.

Lemma app_snoc_cons {A} (l : list A) x r : l ++ x :: r = (l ++ [x]) ++ r.
Proof. now rewrite <- app_assoc. Qed.

Ltac split_at_last :=
  lazymatch goal with
  | |- ?l ++ ?x :: ?r = _ ++ _ :: ?t =>
      first [ unify r t; reflexivity
            | rewrite (app_snoc_cons l x r); split_at_last ]
  end.

Ltac row_member H :=
  cbn [In] in H;
  repeat match type of H with
    | _ \/ _ => destruct H as [H | H]
    end;
  try contradiction; try discriminate H.

(** X16.  [git push] is run only for a verified branch: the agent's
    promise resolved, [git rev-parse] answered with a name that starts with
    [claude/] once trimmed, [git rev-list] succeeded with a count that does
    not parse to zero, and the branch pushed is exactly that name. *)
Theorem push_only_when_verified w parsed fs command :
  In (EffExec command) (st_trace (final w parsed fs)) ->
  is_push command = true ->
  exists out counted stdout,
    agent_promise (agent_run (w_agent w)) = Some (Resolved stdout) /\
    w_exec w cmd_rev_parse = ExecOk out /\
    Js.startsWith "claude/" (Js.trim out) = true /\
    w_exec w (cmd_rev_list (Js.trim out)) = ExecOk counted /\
    parseInt (Js.trim counted) <> Some 0 /\
    command = cmd_push (Js.trim out).
Proof.
  intros Hin Hpush.
  destruct (action_in_row w parsed fs _ Hin eq_refl)
    as (request & images & paths & _ & _ & Hrow & _).
  revert Hrow. table_cases; intros Hrow; row_member Hrow;
    injection Hrow as <-;
    try (rewrite ?is_push_checkout, ?is_push_rev_list in Hpush; discriminate Hpush);
    eexists _, _, _; repeat split; eauto.
Qed.

(** X17.  The pull request is asked for only after [git push] of the same
    branch succeeded: the source branch is the trimmed answer of
    [git rev-parse] and starts with [claude/], the push of it was run and
    did not fail, the request goes to the pull-request endpoint of the
    configured repository, the title is the first 100 characters of the
    request and the description is built from the request. *)
Theorem pull_request_only_after_push w parsed fs url source title description :
  In (EffFetch url source title description) (st_trace (final w parsed fs)) ->
  exists request images out pushed,
    parsed = BodyObject (Some request) images /\
    w_exec w cmd_rev_parse = ExecOk out /\
    source = Js.trim out /\
    Js.startsWith "claude/" source = true /\
    w_exec w (cmd_push source) = ExecOk pushed /\
    In (EffExec (cmd_push source)) (st_trace (final w parsed fs)) /\
    url = pr_url BB_WORKSPACE BB_REPO /\
    title = Js.substring0 100 request /\
    (String.length title <= 100)%nat /\
    description = prDescription request.
Proof.
  intros Hin.
  destruct (action_in_row w parsed fs _ Hin eq_refl)
    as (request & images & paths & Hp & _ & Hrow & Hback & _).
  exists request, images.
  revert Hrow Hback. table_cases; intros Hrow Hback; row_member Hrow;
    unfold forge_call in Hrow; injection Hrow as <- <- <- <-;
    eexists _, _; (do 5 (split; [eauto |]));
    (split; [apply Hback; cbn [In]; auto 12 |]);
    (do 2 (split; [reflexivity |])); (split; [apply length_substring0 | reflexivity]).
Qed.

(** X18.  Once the pull request has been asked for, the answer is the
    forge's: its link and the branch with status 200 when it accepts, its
    status and text in a 500 when it refuses, the transport error in a 500
    when the call fails. *)
Theorem forge_reply_decides_answer w parsed fs url source title description :
  In (EffFetch url source title description) (st_trace (final w parsed fs)) ->
  st_response (final w parsed fs)
  = Some match w_fetch w with
         | FetchOk href => mkResponse 200 (PrBody href source)
         | FetchNotOk st errorText =>
             mkResponse 500 (ErrorBody ("Bitbucket API error (" +:+ Js.of_int st +:+ "): "
                                        +:+ errorText))
         | FetchError message => mkResponse 500 (ErrorBody message)
         end.
Proof.
  intros Hin.
  destruct (action_in_row w parsed fs _ Hin eq_refl)
    as (request & images & paths & _ & _ & Hrow & _ & _ & Hr).
  rewrite Hr. clear Hr.
  revert Hrow. table_cases; intros Hrow; row_member Hrow;
    unfold forge_call in Hrow; injection Hrow as <- <- <- <-; reflexivity.
Qed.

(** X19.  The branch the handler creates is well formed: the only
    [git checkout -b] it runs names [claude/<slug>-<clock>] for the slug the
    namer resolved to, that name matches the documented pattern, and the
    three commands that bring the checkout up to date had succeeded. *)
Theorem created_branch_is_well_formed w parsed fs command :
  0 <= w_now w ->
  In (EffExec command) (st_trace (final w parsed fs)) ->
  Js.startsWith "git checkout -b" command = true ->
  exists request images slug fetched switched reset,
    parsed = BodyObject (Some request) images /\
    w_exec w "git fetch origin" = ExecOk fetched /\
    w_exec w "git checkout master" = ExecOk switched /\
    w_exec w "git reset --hard origin/master" = ExecOk reset /\
    generateBranchName request (w_namer w) = Some (Resolved slug) /\
    command = cmd_checkout_new (branchName slug (w_now w)) /\
    Js.startsWith "claude/" (branchName slug (w_now w)) = true /\
    matches_branch_pattern (branchName slug (w_now w)) = true.
Proof.
  intros Hnow Hin Hcmd.
  destruct (action_in_row w parsed fs _ Hin eq_refl)
    as (request & images & paths & Hp & _ & Hrow & _).
  exists request, images.
  revert Hrow. table_cases; intros Hrow; row_member Hrow;
    injection Hrow as <-; try discriminate Hcmd;
    eexists _, _, _, _; (do 6 (split; [eauto |])); (split; [apply branchName_prefix |]);
    destruct (generateBranchName_ok _ _ _ Hname) as [Hslug Hlen];
    apply branchName_matches; auto; lia.
Qed.

(** X20.  The agent is started only on a branch the handler has just
    created: the naming process had resolved, [git checkout -b] of the name
    built from its slug had succeeded, and the agent is handed the prompt
    for the request followed by exactly the paths of the saved
    attachments. *)
Theorem agent_runs_on_fresh_branch w parsed fs command args :
  In (EffSpawn command args) (st_trace (final w parsed fs)) ->
  is_agent_spawn (EffSpawn command args) = true ->
  exists request images paths slug created,
    parsed = BodyObject (Some request) images /\
    attachments_saved REPO_PATH images fs paths /\
    generateBranchName request (w_namer w) = Some (Resolved slug) /\
    w_exec w (cmd_checkout_new (branchName slug (w_now w))) = ExecOk created /\
    In (EffExec (cmd_checkout_new (branchName slug (w_now w))))
       (st_trace (final w parsed fs)) /\
    command = "claude" /\
    args = agent_args (claudePrompt request paths) paths.
Proof.
  intros Hin Hagent.
  destruct (action_in_row w parsed fs _ Hin eq_refl)
    as (request & images & paths & Hp & Hsaved & Hrow & Hback & _).
  exists request, images, paths.
  revert Hrow Hback. table_cases; intros Hrow Hback; row_member Hrow;
    injection Hrow as <- <-; try discriminate Hagent;
    eexists _, _; (do 4 (split; [eauto |]));
    (split; [apply Hback; cbn [In]; auto 12 | split; reflexivity]).
Qed.

(** X21.  A git command that fails ends the run: it is the last command,
    subprocess or forge call of the run (only the removal of attachments may
    follow), and its message is the body of the 500 answer. *)
Theorem failing_command_ends_run w parsed fs command message :
  In (EffExec command) (st_trace (final w parsed fs)) ->
  w_exec w command = ExecFail message ->
  st_response (final w parsed fs) = Some (mkResponse 500 (ErrorBody message)) /\
  exists before after,
    st_trace (final w parsed fs) = before ++ EffExec command :: after /\
    Forall (fun e => is_fs_effect e = true) after.
Proof.
  intros Hin Hfail.
  destruct (action_in_row w parsed fs _ Hin eq_refl)
    as (request & images & paths & _ & _ & Hrow & _ & (t_img & t_fin & _ & Hfin & Ht) & Hr).
  rewrite Hr, Ht. clear Hr Ht Hin.
  revert Hrow. table_cases; intros Hrow; row_member Hrow;
    injection Hrow as <-; try congruence;
    match goal with
    | H : w_exec _ ?c = ExecFail ?m |- context [ErrorBody ?m] =>
        assert (m = message) as -> by congruence
    end;
    (split; [reflexivity |]);
    eexists _, t_fin; (split; [| exact Hfin]); split_at_last.
Qed.

(** X22.  Every run of the handler that ends has written a response,
    with status 200, 400, 500 or 503, and 200 only when the forge was asked
    for the pull request and accepted: the body then holds its link and
    the branch.  A run that is still waiting for a subprocess has written
    none. *)
Theorem handler_always_answers w parsed fs :
  match (handle w parsed (mkSt fs [] [] None)).1 with
  | Pending => st_response (final w parsed fs) = None
  | _ =>
      exists r,
        st_response (final w parsed fs) = Some r /\
        (status r = 200 \/ status r = 400 \/ status r = 500 \/ status r = 503) /\
        (status r = 200 ->
         exists request href branch,
           In (forge_call BB_WORKSPACE BB_REPO request branch)
              (st_trace (final w parsed fs)) /\
           w_fetch w = FetchOk href /\
           r = mkResponse 200 (PrBody href branch))
  end.
Proof.
  destruct (handle_cases w parsed fs)
    as [(_ & Hnp & Hnt & r & Hr & Hst)
       | (request & images & paths & t_img & t_fin & Hp & _ & _ & _ & _ & _ & Ht & Hout
          & Hresp)].
  - assert (Hanswer : exists r0, st_response (final w parsed fs) = Some r0 /\
              (status r0 = 200 \/ status r0 = 400 \/ status r0 = 500 \/ status r0 = 503) /\
              (status r0 = 200 ->
               exists request href branch,
                 In (forge_call BB_WORKSPACE BB_REPO request branch)
                    (st_trace (final w parsed fs)) /\
                 w_fetch w = FetchOk href /\
                 r0 = mkResponse 200 (PrBody href branch))).
    { exists r. split; [exact Hr |]. split; [tauto |].
      intros H200. destruct Hst as [H | [H | H]]; rewrite H in H200; discriminate. }
    destruct (handle w parsed (mkSt fs [] [] None)).1 as [[]|m| |];
      [exact Hanswer | exact Hanswer | exact Hanswer | now destruct Hnp].
  - rewrite Hout, Hresp, Ht. clear Hout Hresp Ht.
    table_cases; cbv beta iota; try reflexivity;
      (eexists; split; [reflexivity |]; simpl; split;
       [ first [ left; reflexivity | right; left; reflexivity
               | right; right; left; reflexivity | right; right; right; reflexivity ]
       | intros H200; try discriminate H200 ]).
    exists request. eexists _, _. refine (conj _ (conj eq_refl eq_refl)).
    apply in_or_app. right. cbn [In]. repeat (first [left; reflexivity | right]).
Qed.

(** X23.  A request is turned away before anything is touched when the
    clone is not complete (503, whatever the body), when the body is not
    JSON (500 with the parser's message) and when it has no non-empty
    [request] (400): no attachment is saved, no command is run and the file
    system is as it was. *)
Theorem rejected_before_any_effect w parsed fs :
  fs_exists fs (Path.join REPO_PATH ".clone-complete") = false \/
  (forall request images, parsed = BodyObject (Some request) images -> request = "") ->
  st_fs (final w parsed fs) = fs /\
  st_trace (final w parsed fs) = [] /\
  st_response (final w parsed fs)
  = Some (if fs_exists fs (Path.join REPO_PATH ".clone-complete")
          then match parsed with
               | BodyInvalid message => mkResponse 500 (ErrorBody message)
               | _ => mkResponse 400 (ErrorBody invalid_request_error)
               end
          else mkResponse 503
                 (ErrorBody "Repository is still cloning. Please try again in a moment.")).
Proof.
  intros H.
  destruct (run_pipeline w parsed (mkSt fs [] [] None)) as [o s1] eqn:Hp.
  destruct (handle_after w parsed (mkSt fs [] [] None) o s1 Hp)
    as (t_fin & _ & Htrace & _ & Hresp & Hnil).
  unfold pipeline, isRepoReady in Hp. rewrite bind_assoc in Hp.
  unfold bind at 1 in Hp. unfold get_fs at 1 in Hp. cbv beta iota in Hp.
  unfold bind at 1 in Hp. unfold ret at 1 in Hp. cbv beta iota in Hp.
  cbn [st_fs] in Hp.
  destruct (fs_exists fs (Path.join REPO_PATH ".clone-complete")) eqn:Hready;
    cbv beta iota delta [negb] in Hp.
  2:{ injection Hp as <- <-. destruct (Hnil eq_refl) as [-> ->].
      rewrite Htrace, Hresp. repeat split. }
  destruct H as [H | H]; [discriminate |].
  destruct parsed as [message | [[|c request]|] images].
  - injection Hp as <- <-. destruct (Hnil eq_refl) as [-> ->].
    rewrite Htrace, Hresp. repeat split.
  - injection Hp as <- <-. destruct (Hnil eq_refl) as [-> ->].
    rewrite Htrace, Hresp. repeat split.
  - specialize (H _ _ eq_refl). discriminate.
  - injection Hp as <- <-. destruct (Hnil eq_refl) as [-> ->].
    rewrite Htrace, Hresp. repeat split.
Qed.

End Tables.

Lemma push_only_when_verified_witness :
  exists out counted stdout,
    agent_promise (agent_run (w_agent world_one_commit)) = Some (Resolved stdout) /\
    w_exec world_one_commit cmd_rev_parse = ExecOk out /\
    Js.startsWith "claude/" (Js.trim out) = true /\
    w_exec world_one_commit (cmd_rev_list (Js.trim out)) = ExecOk counted /\
    parseInt (Js.trim counted) <> Some 0 /\
    cmd_push "claude/add-health-icon-1705123456789" = cmd_push (Js.trim out).
Proof.
  apply (push_only_when_verified "/workspace/repo" "ws" "repo" world_one_commit
           body_health_icon fs_ready).
  - pick_in_trace.
  - reflexivity.
Defined.

Lemma pull_request_only_after_push_witness :
  exists request images out pushed,
    body_health_icon = BodyObject (Some request) images /\
    w_exec world_one_commit cmd_rev_parse = ExecOk out /\
    "claude/add-health-icon-1705123456789" = Js.trim out /\
    Js.startsWith "claude/" "claude/add-health-icon-1705123456789" = true /\
    w_exec world_one_commit (cmd_push "claude/add-health-icon-1705123456789")
    = ExecOk pushed /\
    In (EffExec (cmd_push "claude/add-health-icon-1705123456789"))
       (st_trace (handleChangeRequest "/workspace/repo" "ws" "repo" world_one_commit
                    body_health_icon (mkSt fs_ready [] [] None)).2) /\
    pr_url "ws" "repo" = pr_url "ws" "repo" /\
    "add a health icon" = Js.substring0 100 request /\
    (String.length "add a health icon" <= 100)%nat /\
    prDescription "add a health icon" = prDescription request.
Proof.
  apply (pull_request_only_after_push "/workspace/repo" "ws" "repo" world_one_commit
           body_health_icon fs_ready).
  pick_in_trace.
Defined.

Lemma forge_reply_decides_answer_witness :
  st_response (handleChangeRequest "/workspace/repo" "ws" "repo" world_forge_refuses
                 body_health_icon (mkSt fs_ready [] [] None)).2
  = Some (mkResponse 500 (ErrorBody "Bitbucket API error (401): Unauthorized")).
Proof.
  apply (forge_reply_decides_answer "/workspace/repo" "ws" "repo" world_forge_refuses
           body_health_icon fs_ready (pr_url "ws" "repo")
           "claude/add-health-icon-1705123456789" "add a health icon"
           (prDescription "add a health icon")).
  pick_in_trace.
Defined.

Lemma created_branch_is_well_formed_witness :
  exists request images slug fetched switched reset,
    body_health_icon = BodyObject (Some request) images /\
    w_exec world_one_commit "git fetch origin" = ExecOk fetched /\
    w_exec world_one_commit "git checkout master" = ExecOk switched /\
    w_exec world_one_commit "git reset --hard origin/master" = ExecOk reset /\
    generateBranchName request (w_namer world_one_commit) = Some (Resolved slug) /\
    cmd_checkout_new "claude/add-health-icon-1705123456789"
    = cmd_checkout_new (branchName slug (w_now world_one_commit)) /\
    Js.startsWith "claude/" (branchName slug (w_now world_one_commit)) = true /\
    matches_branch_pattern (branchName slug (w_now world_one_commit)) = true.
Proof.
  apply (created_branch_is_well_formed "/workspace/repo" "ws" "repo" world_one_commit
           body_health_icon fs_ready).
  - vm_compute. discriminate.
  - pick_in_trace.
  - reflexivity.
Defined.

Lemma agent_runs_on_fresh_branch_witness :
  exists request images paths slug created,
    body_health_icon = BodyObject (Some request) images /\
    attachments_saved "/workspace/repo" images fs_ready paths /\
    generateBranchName request (w_namer world_one_commit) = Some (Resolved slug) /\
    w_exec world_one_commit (cmd_checkout_new (branchName slug (w_now world_one_commit)))
    = ExecOk created /\
    In (EffExec (cmd_checkout_new (branchName slug (w_now world_one_commit))))
       (st_trace (handleChangeRequest "/workspace/repo" "ws" "repo" world_one_commit
                    body_health_icon (mkSt fs_ready [] [] None)).2) /\
    "claude" = "claude" /\
    agent_args (claudePrompt "add a health icon" []) []
    = agent_args (claudePrompt request paths) paths.
Proof.
  apply (agent_runs_on_fresh_branch "/workspace/repo" "ws" "repo" world_one_commit
           body_health_icon fs_ready).
  - pick_in_trace.
  - reflexivity.
Defined.

Lemma failing_command_ends_run_witness :
  st_response (handleChangeRequest "/workspace/repo" "ws" "repo" world_push_rejected
                 body_health_icon (mkSt fs_ready [] [] None)).2
  = Some (mkResponse 500 (ErrorBody "remote: Permission denied")).
Proof.
  refine (proj1 (failing_command_ends_run "/workspace/repo" "ws" "repo"
                   world_push_rejected body_health_icon fs_ready
                   (cmd_push "claude/add-health-icon-1705123456789")
                   "remote: Permission denied" _ _)).
  - pick_in_trace.
  - reflexivity.
Defined.

Lemma rejected_before_any_effect_witness :
  st_fs (handleChangeRequest "/workspace/repo" "ws" "repo" world_one_commit
           body_no_request (mkSt fs_ready [] [] None)).2 = fs_ready /\
  st_response (handleChangeRequest "/workspace/repo" "ws" "repo" world_one_commit
                 body_no_request (mkSt fs_ready [] [] None)).2
  = Some (mkResponse 400 (ErrorBody invalid_request_error)).
Proof.
  destruct (rejected_before_any_effect "/workspace/repo" "ws" "repo" world_one_commit
              body_no_request fs_ready) as (Hfs & _ & Hresp).
  - right. intros request images E. injection E as <- _. reflexivity.
  - split; [exact Hfs | exact Hresp].
Defined.

